(** * Structure query modifiers of mol*: a shallow embedding

  The development follows [mol-model/structure/query/queries/modifiers.ts]
  (wholeResidues, includeSurroundings, querySelection, intersectBy,
  exceptBy, union, expandProperty).  The structure model, the builders,
  the selections and the query context are imported by that file and are
  modelled here from the specification; every such definition says so. *)

From Stdlib Require Import ZArith Lia.
From stdpp Require Import base option list sorting gmap strings.

Open Scope nat_scope.

(** ** Residue segmentation *)

Module Segmentation.

(** Modelled from the spec: the residue segmentation of 'mol-data/int'.
    A monotonic offset table; segment [i] spans
    [offsets[i], offsets[i+1]). *)
Record t := mk { offsets : list nat }.

(** [segmentIndexFrom i offs e]: the index (counted from [i]) of the first
    segment of [offs] whose range contains [e]. *)
Fixpoint segmentIndexFrom (i : nat) (offs : list nat) (e : nat) : option nat :=
  match offs with
  | lo :: rest =>
      match rest with
      | hi :: _ =>
          if (lo <=? e) && (e <? hi) then Some i
          else segmentIndexFrom (S i) rest e
      | [] => None
      end
  | [] => None
  end.

Definition segmentIndex (segs : t) (e : nat) : option nat :=
  segmentIndexFrom 0 (offsets segs) e.

(** The walk of [transientSegments]: consecutive elements that fall into
    the segment visited last are skipped, every other element opens the
    segment it belongs to. *)
Fixpoint segmentsFrom (last : option nat) (segs : t) (elements : list nat)
  : list nat :=
  match elements with
  | [] => []
  | e :: es =>
      match segmentIndex segs e with
      | Some rI =>
          if decide (last = Some rI) then segmentsFrom last segs es
          else rI :: segmentsFrom (Some rI) segs es
      | None => segmentsFrom last segs es
      end
  end.

(** Modelled from the spec: [Segmentation.transientSegments], the iterator
    over the segments that the element sequence touches (its [index]
    field only, which is all the caller reads). *)
Definition transientSegments (segs : t) (elements : list nat) : list nat :=
  segmentsFrom None segs elements.

End Segmentation.

(** ** Units and structures *)

Module Conformation.
(** Coordinates are JavaScript numbers; the modifiers only hand them to
    the spatial index, so an ordered carrier suffices and [Z] is used. *)
Record t := mk { x : nat → Z; y : nat → Z; z : nat → Z }.
End Conformation.

Record AtomicHierarchy := { residueAtomSegments : Segmentation.t }.
Record Model := { atomicHierarchy : AtomicHierarchy }.

Module Unit.

Inductive Kind := Atomic | Other.

Global Instance Kind_eq_dec : EqDecision Kind.
Proof. solve_decision. Defined.

(** Modelled from the spec: a unit of '../../structure': a stable integer
    id, a kind tag, the ordered element indices, and the shared model and
    conformation. *)
Record t := mk {
  id : nat;
  kind : Kind;
  elements : list nat;
  model : Model;
  conformation : Conformation.t
}.

(** A unit over the same model that keeps the given elements only. *)
Definition getChild (u : t) (els : list nat) : t :=
  mk (id u) (kind u) els (model u) (conformation u).

End Unit.

Module Structure.

(** Modelled from the spec: a structure is an ordered collection of
    units. *)
Record t := mk { units : list Unit.t }.

Definition Empty : t := mk [].

(** [unitMap.get]: the unit that carries the given id. *)
Definition unitMap_get (s : t) (uid : nat) : option Unit.t :=
  list_find (λ u, Unit.id u = uid) (units s) ≫= λ p, Some p.2.

Definition elementCount (s : t) : nat :=
  foldr (λ u n, length (Unit.elements u) + n) 0 (units s).

(** Membership of the atom [(uid, e)]. *)
Definition has (s : t) (uid e : nat) : Prop :=
  ∃ u, u ∈ units s ∧ Unit.id u = uid ∧ e ∈ Unit.elements u.

Definition hasb (s : t) (uid e : nat) : bool :=
  existsb (λ u, bool_decide (Unit.id u = uid ∧ e ∈ Unit.elements u)) (units s).

(** The content of a structure: unit ids with their element sequences. *)
Definition content (s : t) : list (nat * list nat) :=
  (λ u, (Unit.id u, Unit.elements u)) <$> units s.

(** Modelled from the spec: structural identity, the equality by which the
    unique builders deduplicate. *)
Definition areEqual (a b : t) : bool :=
  bool_decide (content a = content b).

End Structure.

(** Ascending order without repetitions: the form in which a builder commits
  the elements of a unit. *)
Definition ascending (l : list nat) : list nat :=
merge_sort (≤) (remove_dups l).

(** ** Subset builders *)

Module StructureSubsetBuilder.

(** Modelled from the spec (section 4.1): the builder of
    '../../structure/util/subset-builder'.  [committed] holds the
    (unit id, elements) pairs in insertion order, [parentId] and
    [currentUnit] the unit under construction. *)
Record t := mk {
  parent : Structure.t;
  isSorted : bool;
  committed : list (nat * list nat);
  parentId : nat;
  currentUnit : list nat
}.

Definition create (parent : Structure.t) (isSorted : bool) : t :=
  mk parent isSorted [] 0 [].

Definition beginUnit (b : t) (uid : nat) : t :=
  mk (parent b) (isSorted b) (committed b) uid [].

Definition addElement (b : t) (e : nat) : t :=
  mk (parent b) (isSorted b) (committed b) (parentId b) (currentUnit b ++ [e]).

(** Elements added more than once are committed once, in ascending
    order. *)
Definition commitUnit (b : t) : t :=
  mk (parent b) (isSorted b)
     (committed b ++ [(parentId b, ascending (currentUnit b))]) 0 [].

(** The fast path: the element sequence is taken verbatim. *)
Definition setUnit (b : t) (uid : nat) (els : list nat) : t :=
  mk (parent b) (isSorted b) (committed b ++ [(uid, els)])
     (parentId b) (currentUnit b).

Fixpoint addTo (cs : list (nat * list nat)) (uid e : nat)
  : list (nat * list nat) :=
  match cs with
  | [] => [(uid, [e])]
  | (i, els) :: rest =>
      if decide (i = uid) then (i, ascending (els ++ [e])) :: rest
      else (i, els) :: addTo rest uid e
  end.

(** Records one element against its unit, without begin/commit pairing. *)
Definition addToUnit (b : t) (uid e : nat) : t :=
  mk (parent b) (isSorted b) (addTo (committed b) uid e)
     (parentId b) (currentUnit b).

(** Every committed pair becomes the child of the parent's unit of that
    id; a pair whose id the parent does not have yields no unit. *)
Definition resolve (parent : Structure.t) (cs : list (nat * list nat))
  : list Unit.t :=
  omap (λ c, (λ p, Unit.getChild p c.2) <$> Structure.unitMap_get parent c.1) cs.

Definition getStructure (b : t) : Structure.t :=
  Structure.mk (resolve (parent b) (committed b)).

End StructureSubsetBuilder.

Definition subsetBuilder (s : Structure.t) (isSorted : bool)
: StructureSubsetBuilder.t :=
StructureSubsetBuilder.create s isSorted.

Module StructureUniqueSubsetBuilder.

(** Modelled from the spec (section 4.1, second variant): the builder of
    '../../structure/util/unique-subset-builder', which records a found
    element against its owning unit and keeps every element once. *)
Record t := mk {
  parent : Structure.t;
  entries : list (nat * list nat)
}.

Definition create (parent : Structure.t) : t := mk parent [].

Definition addToUnit (b : t) (uid e : nat) : t :=
  mk (parent b) (StructureSubsetBuilder.addTo (entries b) uid e).

Definition getStructure (b : t) : Structure.t :=
  Structure.mk (StructureSubsetBuilder.resolve (parent b) (entries b)).

End StructureUniqueSubsetBuilder.

(** ** Element-wise set operations on structures *)

(** Modelled from the spec: [structureIntersect] of '../utils/structure-set',
    the atoms of [a] that [b] has too; units left without atoms are
    dropped. *)
Definition structureIntersect (a b : Structure.t) : Structure.t :=
  Structure.mk
    (omap (λ u,
       let els := filter (λ e, Structure.hasb b (Unit.id u) e = true) (Unit.elements u) in
       if decide (els = []) then None else Some (Unit.getChild u els))
     (Structure.units a)).

(** Modelled from the spec: [structureSubtract], the atoms of [a] that [b]
    does not have. *)
Definition structureSubtract (a b : Structure.t) : Structure.t :=
  Structure.mk
    (omap (λ u,
       let els := filter (λ e, Structure.hasb b (Unit.id u) e = false) (Unit.elements u) in
       if decide (els = []) then None else Some (Unit.getChild u els))
     (Structure.units a)).

(** Merging one unit into a list of units with distinct ids. *)
Fixpoint mergeUnit (acc : list Unit.t) (u : Unit.t) : list Unit.t :=
  match acc with
  | [] => [u]
  | v :: rest =>
      if decide (Unit.id v = Unit.id u)
      then Unit.getChild v (ascending (Unit.elements v ++ Unit.elements u)) :: rest
      else v :: mergeUnit rest u
  end.

(** Modelled from the spec: the element-wise union of several structures. *)
Definition structureUnion (l : list Structure.t) : Structure.t :=
  Structure.mk (foldl (λ acc s, foldl mergeUnit acc (Structure.units s)) [] l).

(** ** Selections *)

Module StructureSelection.

(** Modelled from the spec: a selection of '../selection' is a singleton
    (one structure) or a list of structures, each with the structure it was
    selected from. *)
Inductive t :=
| Singletons (source structure : Structure.t)
| Sequence (source : Structure.t) (structures : list Structure.t).

Definition source (sel : t) : Structure.t :=
  match sel with Singletons src _ => src | Sequence src _ => src end.

Definition isSingleton (sel : t) : bool :=
  match sel with Singletons _ _ => true | Sequence _ _ => false end.

(** The structures of a selection, in iteration order. *)
Definition structures (sel : t) : list Structure.t :=
  match sel with Singletons _ s => [s] | Sequence _ l => l end.

Definition structureCount (sel : t) : nat := length (structures sel).

Definition Empty (source : Structure.t) : t := Sequence source [].

Definition unionStructure (sel : t) : Structure.t :=
  structureUnion (structures sel).

(** Membership of an atom in some structure of the selection. *)
Definition has (sel : t) (uid e : nat) : Prop :=
  ∃ s, s ∈ structures sel ∧ Structure.has s uid e.

(** Modelled from the spec: the builders of a selection.  The linear one
    keeps every structure added; the unique one keeps a structure unless a
    structurally identical one was added before. *)
Record Builder := mkBuilder {
  builderSource : Structure.t;
  builderStructures : list Structure.t
}.

Definition LinearBuilder (source : Structure.t) : Builder := mkBuilder source [].
Definition UniqueBuilder (source : Structure.t) : Builder := mkBuilder source [].

Definition linearAdd (b : Builder) (s : Structure.t) : Builder :=
  mkBuilder (builderSource b) (builderStructures b ++ [s]).

Definition uniqueAdd (b : Builder) (s : Structure.t) : Builder :=
  if existsb (λ s', Structure.areEqual s' s) (builderStructures b) then b
  else mkBuilder (builderSource b) (builderStructures b ++ [s]).

Definition getSelection (b : Builder) : t :=
  Sequence (builderSource b) (builderStructures b).

End StructureSelection.

(** The [UniqueStructuresBuilder] of '../utils/builders' accumulates like the
    unique builder of a selection. *)
Definition UniqueStructuresBuilder := StructureSelection.UniqueBuilder.

(** ** The query context *)

Module StructureElement.
Record t := mk { unit : option Unit.t; element : nat }.
Definition create : t := mk None 0.
End StructureElement.

(** The failures a query can end in: the timeout of the deadline check, and
    the TypeError JavaScript raises when a property of [undefined] is
    read. *)
Inductive QueryError := TimedOut | TypeError.

Inductive Result (A : Type) :=
| Ok (a : A)
| Err (e : QueryError).
Arguments Ok {A} a.
Arguments Err {A} e.

Module QueryContext.

(** Modelled from the spec (section 3): the context of '../context': the
    current input structure with the stack of the suspended ones, the
    element cursor with the stack of the saved ones, and the deadline.
    [clock] counts the deadline checks that still pass: when it is 0 the
    deadline is over and every check raises. *)
Record t := mk {
  inputStructure : Structure.t;
  inputStructureStack : list Structure.t;
  element : StructureElement.t;
  currentElementStack : list StructureElement.t;
  clock : nat
}.

Definition create (s : Structure.t) (clock : nat) : t :=
  mk s [] StructureElement.create [] clock.

End QueryContext.

(** Queries run in a state-and-error monad over the context; the context
    reached is kept when an error is raised, since JavaScript does not roll
    back the mutations that precede a throw. *)
Definition M (A : Type) : Type := QueryContext.t → Result A * QueryContext.t.

Definition ret {A} (a : A) : M A := λ ctx, (Ok a, ctx).

Definition bind {A B} (m : M A) (k : A → M B) : M B :=
  λ ctx, match m ctx with
         | (Ok a, ctx') => k a ctx'
         | (Err e, ctx') => (Err e, ctx')
         end.

Definition throw {A} (e : QueryError) : M A := λ ctx, (Err e, ctx).

Notation "'let*' x ':=' m 'in' k" := (bind m (λ x, k))
  (at level 10, x pattern, m at level 100, k at level 200).
Notation "m '>>' k" := (bind m (λ _, k))
  (at level 100, k at level 200, right associativity).

Definition getInputStructure : M Structure.t :=
  λ ctx, (Ok (QueryContext.inputStructure ctx), ctx).

Definition pushInputStructure (s : Structure.t) : M () :=
  λ ctx, (Ok (),
          QueryContext.mk s
            (QueryContext.inputStructure ctx :: QueryContext.inputStructureStack ctx)
            (QueryContext.element ctx) (QueryContext.currentElementStack ctx)
            (QueryContext.clock ctx)).

(** Popping restores the structure pushed last (an empty stack is left as it
    is). *)
Definition popInputStructure : M () :=
  λ ctx, (Ok (),
          match QueryContext.inputStructureStack ctx with
          | [] => ctx
          | s :: rest =>
              QueryContext.mk s rest (QueryContext.element ctx)
                (QueryContext.currentElementStack ctx) (QueryContext.clock ctx)
          end).

(** Saves the cursor and installs a fresh one. *)
Definition pushCurrentElement : M () :=
  λ ctx, (Ok (),
          QueryContext.mk (QueryContext.inputStructure ctx)
            (QueryContext.inputStructureStack ctx) StructureElement.create
            (QueryContext.element ctx :: QueryContext.currentElementStack ctx)
            (QueryContext.clock ctx)).

Definition popCurrentElement : M () :=
  λ ctx, (Ok (),
          match QueryContext.currentElementStack ctx with
          | [] => ctx
          | el :: rest =>
              QueryContext.mk (QueryContext.inputStructure ctx)
                (QueryContext.inputStructureStack ctx) el rest
                (QueryContext.clock ctx)
          end).

Definition withElement (ctx : QueryContext.t) (el : StructureElement.t)
  : QueryContext.t :=
  QueryContext.mk (QueryContext.inputStructure ctx)
    (QueryContext.inputStructureStack ctx) el
    (QueryContext.currentElementStack ctx) (QueryContext.clock ctx).

(** [ctx.element.unit = unit] *)
Definition setElementUnit (u : Unit.t) : M () :=
  λ ctx, (Ok (),
          withElement ctx
            (StructureElement.mk (Some u)
               (StructureElement.element (QueryContext.element ctx)))).

(** [ctx.element.element = e] *)
Definition setElementElement (e : nat) : M () :=
  λ ctx, (Ok (),
          withElement ctx
            (StructureElement.mk
               (StructureElement.unit (QueryContext.element ctx)) e)).

(** The deadline check. *)
Definition throwIfTimedOut : M () :=
  λ ctx, match QueryContext.clock ctx with
         | 0 => (Err TimedOut, ctx)
         | S n =>
             (Ok (),
              QueryContext.mk (QueryContext.inputStructure ctx)
                (QueryContext.inputStructureStack ctx) (QueryContext.element ctx)
                (QueryContext.currentElementStack ctx) n)
         end.

Definition StructureQuery : Type := M StructureSelection.t.

(** A property is a pure function of the context (it reads the cursor). *)
Definition QueryFn (P : Type) : Type := QueryContext.t → P.

Definition evalProperty {P} (property : QueryFn P) : M P :=
  λ ctx, (Ok (property ctx), ctx).

(** ** Loops *)

(** [for (const x of xs) body], with the locals the body mutates passed
    along as [acc]. *)
Fixpoint forOf {A B} (xs : list A) (acc : B) (body : B → A → M B) : M B :=
  match xs with
  | [] => ret acc
  | x :: rest => let* acc' := body acc x in forOf rest acc' body
  end.

(** [for (let i = ..., _i = xs.length; i < _i; i++) body] over [xs[i]],
    from index [i] on. *)
Fixpoint forIndexedFrom {A B} (i : nat) (xs : list A) (acc : B)
    (body : B → A → nat → M B) : M B :=
  match xs with
  | [] => ret acc
  | x :: rest =>
      let* acc' := body acc x i in forIndexedFrom (S i) rest acc' body
  end.

(** Modelled from the spec: [StructureSelection.forEach], which calls back
    with every structure of the selection and its index. *)
Definition forEach {B} (sel : StructureSelection.t) (acc : B)
    (f : B → Structure.t → nat → M B) : M B :=
  forIndexedFrom 0 (StructureSelection.structures sel) acc f.

(** ** wholeResidues *)

(** The elements [offsets[rI] .. offsets[rI + 1] - 1]; an offset that is
    missing leaves the loop without iterations. *)
Definition residueRange (segs : Segmentation.t) (rI : nat) : list nat :=
  match Segmentation.offsets segs !! rI, Segmentation.offsets segs !! (rI + 1) with
  | Some j, Some _j => seq j (_j - j)
  | _, _ => []
  end.

(** The body of the loop over the units in [getWholeResidues]. *)
Definition getWholeResidues_unit (builder : StructureSubsetBuilder.t)
    (unit : Unit.t) : M StructureSubsetBuilder.t :=
  if decide (Unit.kind unit ≠ Unit.Atomic) then
    (* just copy non-atomic units. *)
    ret (StructureSubsetBuilder.setUnit builder (Unit.id unit) (Unit.elements unit))
  else
    let residueAtomSegments := residueAtomSegments (atomicHierarchy (Unit.model unit)) in
    let elements := Unit.elements unit in
    let builder := StructureSubsetBuilder.beginUnit builder (Unit.id unit) in
    let residuesIt := Segmentation.transientSegments residueAtomSegments elements in
    let builder :=
      foldl (λ b rI, foldl StructureSubsetBuilder.addElement b
                       (residueRange residueAtomSegments rI))
            builder residuesIt in
    let builder := StructureSubsetBuilder.commitUnit builder in
    throwIfTimedOut >> ret builder.

Definition getWholeResidues (source structure : Structure.t) : M Structure.t :=
  let* builder := forOf (Structure.units structure) (subsetBuilder source true)
                    getWholeResidues_unit in
  ret (StructureSubsetBuilder.getStructure builder).

Definition wholeResidues (query : StructureQuery) : StructureQuery :=
  let* inner := query in
  match inner with
  | StructureSelection.Singletons _ structure =>
      let* input := getInputStructure in
      let* whole := getWholeResidues input structure in
      ret (StructureSelection.Singletons input whole)
  | StructureSelection.Sequence _ structures =>
      let* input := getInputStructure in
      let* builder :=
        forOf structures (UniqueStructuresBuilder input) (λ builder s,
          let* input := getInputStructure in
          let* whole := getWholeResidues input s in
          ret (StructureSelection.uniqueAdd builder whole)) in
      ret (StructureSelection.getSelection builder)
  end.

(** ** includeSurroundings *)

Module IncludeSurroundingsParams.
Record t := mk { radius : Z; wholeResidues : option bool }.
End IncludeSurroundingsParams.

Section Surroundings.

(** The spatial index of a structure is given: [lookup3d s x y z r] lists the
    atoms (unit id, element) of [s] that the index reports for the ball of
    radius [r] around the point. *)
Variable lookup3d : Structure.t → Z → Z → Z → Z → list (nat * nat).

(** Modelled from the spec: [findIntoBuilder] feeds every reported atom to
    the unique subset builder. *)
Definition findIntoBuilder (source : Structure.t) (x y z r : Z)
    (builder : StructureUniqueSubsetBuilder.t) : StructureUniqueSubsetBuilder.t :=
  foldl (λ b hit, StructureUniqueSubsetBuilder.addToUnit b hit.1 hit.2)
        builder (lookup3d source x y z r).

(** The body of the loop over the units in [getIncludeSurroundings]. *)
Definition getIncludeSurroundings_unit (source : Structure.t) (r : Z)
    (builder : StructureUniqueSubsetBuilder.t) (unit : Unit.t)
  : M StructureUniqueSubsetBuilder.t :=
  let c := Unit.conformation unit in
  let elements := Unit.elements unit in
  let builder :=
    foldl (λ b e, findIntoBuilder source (Conformation.x c e) (Conformation.y c e)
                    (Conformation.z c e) r b)
          builder elements in
  throwIfTimedOut >> ret builder.

Definition getIncludeSurroundings (source structure : Structure.t)
    (params : IncludeSurroundingsParams.t) : M Structure.t :=
  let r := IncludeSurroundingsParams.radius params in
  let* builder := forOf (Structure.units structure)
                    (StructureUniqueSubsetBuilder.create source)
                    (getIncludeSurroundings_unit source r) in
  if default false (IncludeSurroundingsParams.wholeResidues params)
  then getWholeResidues source (StructureUniqueSubsetBuilder.getStructure builder)
  else ret (StructureUniqueSubsetBuilder.getStructure builder).

Definition includeSurroundings (query : StructureQuery)
    (params : IncludeSurroundingsParams.t) : StructureQuery :=
  let* inner := query in
  match inner with
  | StructureSelection.Singletons _ structure =>
      let* input := getInputStructure in
      let* surr := getIncludeSurroundings input structure params in
      let* input' := getInputStructure in
      ret (StructureSelection.Singletons input' surr)
  | StructureSelection.Sequence _ structures =>
      let* input := getInputStructure in
      let* builder :=
        forOf structures (UniqueStructuresBuilder input) (λ builder s,
          let* input := getInputStructure in
          let* surr := getIncludeSurroundings input s params in
          ret (StructureSelection.uniqueAdd builder surr)) in
      ret (StructureSelection.getSelection builder)
  end.

End Surroundings.

(** ** querySelection *)

(** The callback of [forEach] in [querySelection]. *)
Definition querySelection_each (query : StructureQuery)
    (ret_ : StructureSelection.Builder) (s : Structure.t) (sI : nat)
  : M StructureSelection.Builder :=
  pushInputStructure s >>
  let* inner := query in
  let ret_ := foldl StructureSelection.uniqueAdd ret_
                (StructureSelection.structures inner) in
  popInputStructure >>
  (if decide (sI `mod` 10 = 0) then throwIfTimedOut else ret ()) >>
  ret ret_.

Definition querySelection (selection query : StructureQuery) : StructureQuery :=
  let* targetSel := selection in
  if decide (StructureSelection.structureCount targetSel = 0) then ret targetSel
  else
    let* input := getInputStructure in
    let ret_ := StructureSelection.UniqueBuilder input in
    let* ret_ := forEach targetSel ret_ (querySelection_each query) in
    ret (StructureSelection.getSelection ret_).

(** ** intersectBy, exceptBy, union *)

Definition intersectBy_each (unionBy : Structure.t)
    (ret_ : StructureSelection.Builder) (s : Structure.t) (sI : nat)
  : M StructureSelection.Builder :=
  let ii := structureIntersect unionBy s in
  let ret_ := if decide (Structure.elementCount ii ≠ 0)
              then StructureSelection.uniqueAdd ret_ ii else ret_ in
  (if decide (sI `mod` 50 = 0) then throwIfTimedOut else ret ()) >>
  ret ret_.

Definition intersectBy (query by_ : StructureQuery) : StructureQuery :=
  let* selection := query in
  if decide (StructureSelection.structureCount selection = 0) then ret selection
  else
    let* bySel := by_ in
    if decide (StructureSelection.structureCount bySel = 0)
    then let* input := getInputStructure in ret (StructureSelection.Empty input)
    else
      let unionBy := StructureSelection.unionStructure bySel in
      let* input := getInputStructure in
      let ret_ := StructureSelection.UniqueBuilder input in
      let* ret_ := forEach selection ret_ (intersectBy_each unionBy) in
      ret (StructureSelection.getSelection ret_).

Definition exceptBy_each (subtractBy : Structure.t)
    (ret_ : StructureSelection.Builder) (s : Structure.t) (sI : nat)
  : M StructureSelection.Builder :=
  let diff := structureSubtract s subtractBy in
  let ret_ := if decide (Structure.elementCount diff ≠ 0)
              then StructureSelection.uniqueAdd ret_ diff else ret_ in
  (if decide (sI `mod` 50 = 0) then throwIfTimedOut else ret ()) >>
  ret ret_.

Definition exceptBy (query by_ : StructureQuery) : StructureQuery :=
  let* selection := query in
  if decide (StructureSelection.structureCount selection = 0) then ret selection
  else
    let* bySel := by_ in
    if decide (StructureSelection.structureCount bySel = 0)
    then let* input := getInputStructure in ret (StructureSelection.Empty input)
    else
      let subtractBy := StructureSelection.unionStructure bySel in
      let* input := getInputStructure in
      let ret_ := StructureSelection.UniqueBuilder input in
      let* ret_ := forEach selection ret_ (exceptBy_each subtractBy) in
      ret (StructureSelection.getSelection ret_).

Definition union (query : StructureQuery) : StructureQuery :=
  let* input := getInputStructure in
  let ret_ := StructureSelection.LinearBuilder input in
  let* sel := query in
  let ret_ := StructureSelection.linearAdd ret_ (StructureSelection.unionStructure sel) in
  ret (StructureSelection.getSelection ret_).

(** ** expandProperty *)

Module UniqueArray.

(** Modelled from the spec: the [UniqueArray] of 'mol-data/generic', an
    array to which a value is added unless its key was added before. *)
Record t := mk { keys : list nat; array : list nat }.

Definition create : t := mk [] [].

Definition add (arr : t) (key value : nat) : t :=
  if decide (key ∈ keys arr) then arr
  else mk (keys arr ++ [key]) (array arr ++ [value]).

End UniqueArray.

(** [arr[i] = v] on a JavaScript array: an index past the end extends the
    array, leaving holes. *)
Definition arraySet {A} (arr : list (option A)) (i : nat) (v : A)
  : list (option A) :=
  if decide (i < length arr) then <[i := Some v]> arr
  else arr ++ replicate (i - length arr) None ++ [Some v].

(** [arr[i]]: [None] stands for [undefined]. *)
Definition arrayGet {A} (arr : list (option A)) (i : nat) : option A :=
  mjoin (arr !! i).

Section ExpandProperty.

Context {P : Type} `{Countable P}.

(** The first pass, over one structure of the selection: every property
    value seen is claimed by the index [sI]. *)
Definition expandProperty_claim (property : QueryFn P) (sI : nat)
    (propertyToStructureIndexMap : gmap P UniqueArray.t) (s : Structure.t)
  : M (gmap P UniqueArray.t) :=
  forOf (Structure.units s) propertyToStructureIndexMap (λ map_ unit,
    setElementUnit unit >>
    let elements := Unit.elements unit in
    forIndexedFrom 0 elements map_ (λ map_ e i,
      setElementElement e >>
      let* p := evalProperty property in
      let arr := default UniqueArray.create (map_ !! p) in
      let map_ := match map_ !! p with
                  | Some _ => map_
                  | None => <[p := arr]> map_
                  end in
      ret (<[p := UniqueArray.add arr sI sI]> map_))).

(** The callback of [forEach] in the first pass. *)
Definition expandProperty_each (property : QueryFn P)
    (st : gmap P UniqueArray.t * list (option StructureSubsetBuilder.t))
    (s : Structure.t) (sI : nat)
  : M (gmap P UniqueArray.t * list (option StructureSubsetBuilder.t)) :=
  let* map_ := expandProperty_claim property sI st.1 s in
  let* input := getInputStructure in
  let builders := arraySet st.2 sI (subsetBuilder input true) in
  (if decide (sI `mod` 10 = 0) then throwIfTimedOut else ret ()) >>
  ret (map_, builders).

(** One atom of the second pass: [i] is its position in the unit. *)
Definition expandProperty_atom (property : QueryFn P)
    (propertyToStructureIndexMap : gmap P UniqueArray.t) (unit : Unit.t)
    (builders : list (option StructureSubsetBuilder.t)) (e i : nat)
  : M (list (option StructureSubsetBuilder.t)) :=
  setElementElement e >>
  let* p := evalProperty property in
  match propertyToStructureIndexMap !! p with
  | None => ret builders
  | Some arr =>
      let indices := UniqueArray.array arr in
      forIndexedFrom 0 indices builders (λ builders _ _sI,
        match indices !! i with
        | None => throw TypeError
        | Some k =>
            match arrayGet builders k with
            | None => throw TypeError
            | Some b =>
                ret (<[k := Some (StructureSubsetBuilder.addToUnit b (Unit.id unit) e)]>
                       builders)
            end
        end)
  end.

(** The second pass, over the whole input structure. *)
Definition expandProperty_collect (property : QueryFn P)
    (propertyToStructureIndexMap : gmap P UniqueArray.t)
    (input : Structure.t) (builders : list (option StructureSubsetBuilder.t))
  : M (list (option StructureSubsetBuilder.t)) :=
  forOf (Structure.units input) builders (λ builders unit,
    setElementUnit unit >>
    let elements := Unit.elements unit in
    forIndexedFrom 0 elements builders
      (expandProperty_atom property propertyToStructureIndexMap unit)).

Definition expandProperty (query : StructureQuery) (property : QueryFn P)
  : StructureQuery :=
  let* src := query in
  pushCurrentElement >>
  let* st := forEach src (∅, []) (expandProperty_each property) in
  let propertyToStructureIndexMap := st.1 in
  let builders := st.2 in
  let* input := getInputStructure in
  let* builders := expandProperty_collect property propertyToStructureIndexMap
                     input builders in
  popCurrentElement >>
  let* input := getInputStructure in
  let ret_ := StructureSelection.UniqueBuilder input in
  let* ret_ := forOf builders ret_ (λ ret_ b,
                 match b with
                 | Some b => ret (StructureSelection.uniqueAdd ret_
                                    (StructureSubsetBuilder.getStructure b))
                 | None => throw TypeError
                 end) in
  ret (StructureSelection.getSelection ret_).

End ExpandProperty.

(** ** Sample data *)

Module Sample.

Definition conformation : Conformation.t :=
  Conformation.mk (λ e, Z.of_nat e) (λ _, 0%Z) (λ _, 0%Z).

(** Residues of five atoms each. *)
Definition model : Model :=
  {| atomicHierarchy :=
       {| residueAtomSegments := Segmentation.mk [0; 5; 10] |} |}.

Definition atomic (uid : nat) (els : list nat) : Unit.t :=
  Unit.mk uid Unit.Atomic els model conformation.

Definition coarse (uid : nat) (els : list nat) : Unit.t :=
  Unit.mk uid Unit.Other els model conformation.

(** Two atomic units of ten atoms: twenty atoms. *)
Definition twenty : Structure.t :=
  Structure.mk [atomic 0 (seq 0 10); atomic 1 (seq 0 10)].

Definition const (sel : StructureSelection.t) : StructureQuery := ret sel.

End Sample.

(** ** Notions used in the statements *)

(** Membership of an atom in the pairs a builder holds. *)
Definition entryHas (cs : list (nat * list nat)) (uid e : nat) : Prop :=
  ∃ els, (uid, els) ∈ cs ∧ e ∈ els.

(** Membership of an atom in some structure of a list. *)
Definition anyHas (l : list Structure.t) (uid e : nat) : Prop :=
  ∃ s, s ∈ l ∧ Structure.has s uid e.

Definition setClock (ctx : QueryContext.t) (n : nat) : QueryContext.t :=
  QueryContext.mk (QueryContext.inputStructure ctx)
    (QueryContext.inputStructureStack ctx) (QueryContext.element ctx)
    (QueryContext.currentElementStack ctx) n.

(** The number of indices [j] with [i <= j < i + n] at which a loop that
    checks the deadline when [j mod k = 0] does so. *)
Definition checks (k i n : nat) : nat :=
  length (filter (λ j, j `mod` k = 0) (seq i n)).

(** The outcome of a loop that makes [c] deadline checks and computes [v]. *)
Definition afterChecks {A} (c : nat) (v : A) (ctx : QueryContext.t)
  : Result A * QueryContext.t :=
  if decide (c ≤ QueryContext.clock ctx)
  then (Ok v, setClock ctx (QueryContext.clock ctx - c))
  else (Err TimedOut, setClock ctx 0).

(** What [getWholeResidues] leaves of one unit. *)
Definition wholeResidueElements (u : Unit.t) : list nat :=
  if decide (Unit.kind u ≠ Unit.Atomic) then Unit.elements u
  else
    let segs := residueAtomSegments (atomicHierarchy (Unit.model u)) in
    ascending (mjoin (residueRange segs <$>
                         Segmentation.transientSegments segs (Unit.elements u))).

Definition wholeResiduesOf (source structure : Structure.t) : Structure.t :=
  Structure.mk
    (StructureSubsetBuilder.resolve source
       ((λ u, (Unit.id u, wholeResidueElements u)) <$> Structure.units structure)).

Definition atomicUnits (structure : Structure.t) : nat :=
  length (filter (λ u, Unit.kind u = Unit.Atomic) (Structure.units structure)).

(** What one round of the loop of [intersectBy] does to the builder. *)
Definition intersectBy_add (unionBy : Structure.t)
    (ret_ : StructureSelection.Builder) (s : Structure.t)
  : StructureSelection.Builder :=
  let ii := structureIntersect unionBy s in
  if decide (Structure.elementCount ii ≠ 0)
  then StructureSelection.uniqueAdd ret_ ii else ret_.

(** What one round of the loop of [exceptBy] does to the builder. *)
Definition exceptBy_add (subtractBy : Structure.t)
    (ret_ : StructureSelection.Builder) (s : Structure.t)
  : StructureSelection.Builder :=
  let diff := structureSubtract s subtractBy in
  if decide (Structure.elementCount diff ≠ 0)
  then StructureSelection.uniqueAdd ret_ diff else ret_.

(** The partition law of the set algebra, for two queries run in [ctx]: the
    atoms of [exceptBy A B] and of [intersectBy A B] together are the atoms
    of [A], when the atoms of [B] lie in the structure [A] is run on. *)
Definition partitionLaw (A B : StructureQuery) (ctx : QueryContext.t) : Prop :=
  ∀ selA ctx1 selB ctx2 sE cE sI cI,
    A ctx = (Ok selA, ctx1) → B ctx1 = (Ok selB, ctx2) →
    (∀ uid e, StructureSelection.has selB uid e →
              Structure.has (QueryContext.inputStructure ctx) uid e) →
    union (exceptBy A B) ctx = (Ok sE, cE) →
    union (intersectBy A B) ctx = (Ok sI, cI) →
    ∀ uid e,
      StructureSelection.has sE uid e ∨ StructureSelection.has sI uid e
      ↔ Structure.has (StructureSelection.unionStructure selA) uid e.

(** [s] is a subset of [source]: every unit of [s] is the child of the unit
    of [source] with the same id. *)
Definition subStructure (s source : Structure.t) : Prop :=
  ∀ u, u ∈ Structure.units s →
    ∃ p, Structure.unitMap_get source (Unit.id u) = Some p ∧
         u = Unit.getChild p (Unit.elements u).

(** The invariant of the residue segmentation: the offsets do not
    decrease. *)
Definition monotonicOffsets (u : Unit.t) : Prop :=
  Sorted (≤) (Segmentation.offsets (residueAtomSegments (atomicHierarchy (Unit.model u)))).

(** [e] lies in the residue [rI] of the unit. *)
Definition inResidue (u : Unit.t) (rI e : nat) : Prop :=
  ∃ lo hi,
    Segmentation.offsets (residueAtomSegments (atomicHierarchy (Unit.model u))) !! rI = Some lo ∧
    Segmentation.offsets (residueAtomSegments (atomicHierarchy (Unit.model u))) !! (S rI) = Some hi ∧
    lo ≤ e < hi.

(** The relation between a unit and what residue expansion makes of it: a
    non-atomic unit is kept as it is, an atomic unit gets the elements of
    the residues that hold one of its elements. *)
Definition wholeResiduesUnit (u u' : Unit.t) : Prop :=
  (Unit.kind u ≠ Unit.Atomic → u' = u) ∧
  (Unit.kind u = Unit.Atomic →
     u' = Unit.getChild u (Unit.elements u') ∧
     ∀ e, e ∈ Unit.elements u' ↔
          ∃ rI, inResidue u rI e ∧ ∃ e', e' ∈ Unit.elements u ∧ inResidue u rI e').

(** What one round of the loop of [getIncludeSurroundings] does to the
    builder. *)
Definition surroundUnit (lookup3d : Structure.t → Z → Z → Z → Z → list (nat * nat))
    (source : Structure.t) (r : Z)
    (builder : StructureUniqueSubsetBuilder.t) (unit : Unit.t)
  : StructureUniqueSubsetBuilder.t :=
  let c := Unit.conformation unit in
  foldl (λ b e, findIntoBuilder lookup3d source (Conformation.x c e)
                  (Conformation.y c e) (Conformation.z c e) r b)
        builder (Unit.elements unit).

(** The structure of the atoms the index reports around [structure]. *)
Definition surroundingsOf (lookup3d : Structure.t → Z → Z → Z → Z → list (nat * nat))
    (source : Structure.t) (r : Z) (structure : Structure.t) : Structure.t :=
  StructureUniqueSubsetBuilder.getStructure
    (foldl (surroundUnit lookup3d source r)
       (StructureUniqueSubsetBuilder.create source) (Structure.units structure)).

(** What [getIncludeSurroundings] returns, and the deadline checks it
    makes. *)
Definition includeSurroundingsOf
    (lookup3d : Structure.t → Z → Z → Z → Z → list (nat * nat))
    (source : Structure.t) (params : IncludeSurroundingsParams.t)
    (structure : Structure.t) : Structure.t :=
  let surr := surroundingsOf lookup3d source
                (IncludeSurroundingsParams.radius params) structure in
  if default false (IncludeSurroundingsParams.wholeResidues params)
  then wholeResiduesOf source surr else surr.

Definition includeSurroundingsChecks
    (lookup3d : Structure.t → Z → Z → Z → Z → list (nat * nat))
    (source : Structure.t) (params : IncludeSurroundingsParams.t)
    (structure : Structure.t) : nat :=
  length (Structure.units structure) +
  (if default false (IncludeSurroundingsParams.wholeResidues params)
   then atomicUnits (surroundingsOf lookup3d source
                       (IncludeSurroundingsParams.radius params) structure)
   else 0).

(** The atom [(uid, e)] is reported by the index for the ball of radius [r]
    around some atom of [structure]. *)
Definition reported (lookup3d : Structure.t → Z → Z → Z → Z → list (nat * nat))
    (source : Structure.t) (r : Z) (structure : Structure.t) (uid e : nat) : Prop :=
  ∃ u e0, u ∈ Structure.units structure ∧ e0 ∈ Unit.elements u ∧
    (uid, e) ∈ lookup3d source (Conformation.x (Unit.conformation u) e0)
                 (Conformation.y (Unit.conformation u) e0)
                 (Conformation.z (Unit.conformation u) e0) r.

(** The index reports the atom at the centre of the ball. *)
Definition selfHits (lookup3d : Structure.t → Z → Z → Z → Z → list (nat * nat))
    (source : Structure.t) (r : Z) (structure : Structure.t) : Prop :=
  ∀ u e, u ∈ Structure.units structure → e ∈ Unit.elements u →
    (Unit.id u, e) ∈ lookup3d source (Conformation.x (Unit.conformation u) e)
                       (Conformation.y (Unit.conformation u) e)
                       (Conformation.z (Unit.conformation u) e) r.

(** Every element of the unit lies in a residue of its segmentation. *)
Definition coveredByResidues (u : Unit.t) : Prop :=
  ∀ e, e ∈ Unit.elements u → ∃ rI, inResidue u rI e.

(** The claim that a negative radius is rejected: [includeSurroundings]
    ends in an error whenever the radius is negative. *)
Definition rejectsNegativeRadius
    (lookup3d : Structure.t → Z → Z → Z → Z → list (nat * nat)) : Prop :=
  ∀ (query : StructureQuery) (r : Z) (wholeResidues : option bool)
    (ctx : QueryContext.t),
    (r < 0)%Z →
    ∃ err ctx',
      includeSurroundings lookup3d query
        (IncludeSurroundingsParams.mk r wholeResidues) ctx = (Err err, ctx').

Module SampleIndex.

(** An exact index for the sample conformation: the atoms of the structure
    whose distance to the point is at most [r]. *)
Definition within (xc yc zc r : Z) (u : Unit.t) (e : nat) : bool :=
  let c := Unit.conformation u in
  let dx := (Conformation.x c e - xc)%Z in
  let dy := (Conformation.y c e - yc)%Z in
  let dz := (Conformation.z c e - zc)%Z in
  (0 <=? r)%Z && (dx * dx + dy * dy + dz * dz <=? r * r)%Z.

Definition lookup3d (s : Structure.t) (xc yc zc r : Z) : list (nat * nat) :=
  u ← Structure.units s;
  (λ e, (Unit.id u, e)) <$> filter (λ e, within xc yc zc r u e = true) (Unit.elements u).

End SampleIndex.

(** [ctx'] has the input structure and the two stacks of [ctx], and its
    deadline is not further away: what a run that only moves the cursor and
    checks the deadline leaves of the context. *)
Definition settles (ctx ctx' : QueryContext.t) : Prop :=
  QueryContext.inputStructure ctx' = QueryContext.inputStructure ctx ∧
  QueryContext.inputStructureStack ctx' = QueryContext.inputStructureStack ctx ∧
  QueryContext.currentElementStack ctx' = QueryContext.currentElementStack ctx ∧
  QueryContext.clock ctx' ≤ QueryContext.clock ctx.

(** [ctx'] has the input structure, its stack, the cursor and its stack of
    [ctx]: the scoped state is as it was. *)
Definition sameScope (ctx ctx' : QueryContext.t) : Prop :=
  QueryContext.inputStructure ctx' = QueryContext.inputStructure ctx ∧
  QueryContext.inputStructureStack ctx' = QueryContext.inputStructureStack ctx ∧
  QueryContext.element ctx' = QueryContext.element ctx ∧
  QueryContext.currentElementStack ctx' = QueryContext.currentElementStack ctx.

(** The claim on timeouts: when the query ends in a timeout, the scoped
    state of the context is as it was before the call. *)
Definition restoresOnTimeout (q : StructureQuery) : Prop :=
  ∀ ctx ctx', q ctx = (Err TimedOut, ctx') → sameScope ctx ctx'.

(** [m] relates the contexts before and after by [R], and raises errors of
    [E] only. *)
Definition respects {A} (R : QueryContext.t → QueryContext.t → Prop)
    (E : QueryError → Prop) (m : M A) : Prop :=
  ∀ ctx r ctx', m ctx = (r, ctx') → R ctx ctx' ∧ ∀ e, r = Err e → E e.

(** The claim of a bounded stride, for a traversal of the units of a
    structure: some [k] bounds the number of units that a run whose
    deadline is over gets through. *)
Definition boundedStride {A} (traverse : Structure.t → M A) : Prop :=
  ∃ k, ∀ s ctx,
    k ≤ length (Structure.units s) →
    QueryContext.inputStructure ctx = s → QueryContext.clock ctx = 0 →
    ∃ e ctx', traverse s ctx = (Err e, ctx').

(** A query never turns back the clock. *)
Definition clockMonotone (q : StructureQuery) : Prop :=
  ∀ ctx r ctx', q ctx = (r, ctx') → QueryContext.clock ctx' ≤ QueryContext.clock ctx.

Module SampleScope.

(** Two atoms of one unit, and queries over them. *)
Definition two : Structure.t := Structure.mk [Sample.atomic 0 [0; 1]].

Definition first : Structure.t := Structure.mk [Sample.atomic 0 [0]].
Definition second : Structure.t := Structure.mk [Sample.atomic 0 [1]].

Definition all : StructureQuery :=
  Sample.const (StructureSelection.Sequence two [two]).

Definition firstOnly : StructureQuery :=
  Sample.const (StructureSelection.Sequence two [first]).

Definition each : StructureQuery :=
  Sample.const (StructureSelection.Sequence two [first; second]).

(** A property that has the same value on every atom. *)
Definition constant : QueryFn nat := λ _, 0.

End SampleScope.

(** A query that returns a selection computed from the input structure and
    touches nothing. *)
Definition readsInput (f : Structure.t → StructureSelection.t) : StructureQuery :=
  let* input := getInputStructure in ret (f input).

(** What [wholeResidues] returns for the selection of the inner query, and
    the deadline checks it makes. *)
Definition wholeResiduesSelection (input : Structure.t) (inner : StructureSelection.t)
  : StructureSelection.t :=
  match inner with
  | StructureSelection.Singletons _ structure =>
      StructureSelection.Singletons input (wholeResiduesOf input structure)
  | StructureSelection.Sequence _ structures =>
      StructureSelection.getSelection
        (foldl (λ builder s, StructureSelection.uniqueAdd builder (wholeResiduesOf input s))
               (UniqueStructuresBuilder input) structures)
  end.

Definition wholeResiduesChecks (inner : StructureSelection.t) : nat :=
  sum_list (atomicUnits <$> StructureSelection.structures inner).

(** The structure is a subset of the source whose atomic units keep the
    invariant of the residue segmentation. *)
Definition segmentedSubset (s source : Structure.t) : Prop :=
  subStructure s source ∧
  ∀ u, u ∈ Structure.units s → monotonicOffsets u.

(** The value [p] of a property of the cursor is claimed by the selection:
    it is the value at some atom of one of its structures. *)
Definition claimed {P} (g : StructureElement.t → P) (src : StructureSelection.t)
    (p : P) : Prop :=
  ∃ s u e, s ∈ StructureSelection.structures src ∧ u ∈ Structure.units s ∧
           e ∈ Unit.elements u ∧ p = g (StructureElement.mk (Some u) e).

(** The atom [(uid, e)] is an atom of the input structure whose property
    value is claimed by the selection. *)
Definition claimedAtom {P} (g : StructureElement.t → P) (src : StructureSelection.t)
    (input : Structure.t) (uid e : nat) : Prop :=
  ∃ u, u ∈ Structure.units input ∧ Unit.id u = uid ∧ e ∈ Unit.elements u ∧
       claimed g src (g (StructureElement.mk (Some u) e)).

(** A builder of the second pass of [expandProperty] (or a hole of the
    array) holds claimed atoms of the input structure only. *)
Definition holdsClaimed {P} (g : StructureElement.t → P) (src : StructureSelection.t)
    (input : Structure.t) (ob : option StructureSubsetBuilder.t) : Prop :=
  match ob with
  | None => True
  | Some b =>
      StructureSubsetBuilder.parent b = input ∧
      ∀ uid e, entryHas (StructureSubsetBuilder.committed b) uid e →
               claimedAtom g src input uid e
  end.

(** Every key of the map of the first pass is a claimed value. *)
Definition keysClaimedBy {P} `{Countable P} (g : StructureElement.t → P)
    (src : StructureSelection.t) (map_ : gmap P UniqueArray.t) : Prop :=
  ∀ p, is_Some (map_ !! p) → claimed g src p.

(** * The method and the ids of volume streaming

    The second file, [mol-plugin/behavior/dynamic/volume-streaming/util.ts]:
    the choice between the EM and the X-ray volume server from the mmCIF
    categories of the first model of a structure, and the ids to ask the
    server for.  Its functions that fetch from the network are left out. *)

Module VolumeStreaming.

(** A column of an mmCIF category: whether it is defined, its number of
    rows, and the value of a row. *)
Module Column.
Record t := mk { isDefined : bool; rowCount : nat; value : nat → string }.
End Column.

Record PdbxDatabaseRelated := {
  _rowCount : nat;
  db_id : Column.t;
  db_name : Column.t;
  content_type : Column.t
}.

Record PdbxDatabaseStatus := { status_code_sf : Column.t }.

Record Exptl := { method : Column.t }.

Record Database := {
  pdbx_database_related : PdbxDatabaseRelated;
  pdbx_database_status : PdbxDatabaseStatus;
  exptl : Exptl
}.

(** The source data of a model: in the mmCIF format, with its database, or
    in another format ([MmcifFormat.is] tells them apart). *)
Inductive SourceData :=
| Mmcif (db : Database)
| OtherFormat.

Record Model := { sourceData : SourceData; entryId : string }.

Record Structure := { models : list Model }.

(** [VolumeServerInfo.Kind]: 'em' or 'x-ray'. *)
Inductive Kind := em | x_ray.

(** [sub] is a prefix of [s]. *)
Fixpoint startsWith (sub s : string) : bool :=
  match sub with
  | EmptyString => true
  | String a sub' =>
      match s with
      | EmptyString => false
      | String b s' => Ascii.eqb a b && startsWith sub' s'
      end
  end.

Fixpoint indexOfFrom (i : nat) (s sub : string) : Z :=
  if startsWith sub s then Z.of_nat i
  else match s with
       | EmptyString => (-1)%Z
       | String _ s' => indexOfFrom (S i) s' sub
       end.

(** [s.indexOf(sub)]: the position of the first occurrence, or -1. *)
Definition indexOf (s sub : string) : Z := indexOfFrom 0 s sub.

(** [for (let i = 0; i < n; ++i) if (test(i)) return v]: the value returned
    from inside the loop, if any row passes the test. *)
Fixpoint returnFrom {A} (i n : nat) (test : nat → bool) (v : A) : option A :=
  match n with
  | 0 => None
  | S n' => if test i then Some v else returnFrom (S i) n' test v
  end.

Section Methods.

(** [String.prototype.toUpperCase] follows the Unicode case mapping and is
    taken as given. *)
Variable toUpperCase : string → string.

(** The row names an EMDB entry that is the associated EM volume. *)
Definition isEmdbRow (related : PdbxDatabaseRelated) (i : nat) : bool :=
  bool_decide (toUpperCase (Column.value (db_name related) i) = "EMDB") &&
  bool_decide (Column.value (content_type related) i = "associated EM volume").

Definition isMicroscopyRow (e : Exptl) (i : nat) : bool :=
  let v := toUpperCase (Column.value (method e) i) in
  bool_decide (0 ≤ indexOf v "MICROSCOPY")%Z.

Definition getStreamingMethod (s : option Structure) (defaultKind : option Kind)
  : Result Kind :=
  let defaultKind := default x_ray defaultKind in
  match s with
  | None => Ok defaultKind
  | Some s =>
      match models s with
      | [] => Err TypeError
      | model :: _ =>
          match sourceData model with
          | OtherFormat => Ok defaultKind
          | Mmcif db =>
              let related := pdbx_database_related db in
              (* Prefer EMDB entries over structure-factors (SF) *)
              match returnFrom 0 (_rowCount related) (isEmdbRow related) em with
              | Some kind => Ok kind
              | None =>
                  let status_code_sf := status_code_sf (pdbx_database_status db) in
                  if Column.isDefined status_code_sf &&
                     bool_decide (Column.value status_code_sf 0 = "REL")
                  then Ok x_ray
                  else
                    (* fallbacks *)
                    match returnFrom 0 (Column.rowCount (method (exptl db)))
                            (isMicroscopyRow (exptl db)) em with
                    | Some kind => Ok kind
                    | None => Ok defaultKind
                    end
              end
          end
      end
  end.

(** The loop of [getEmIds]: the ids of the EMDB rows are pushed in turn. *)
Fixpoint getEmIds_rows (related : PdbxDatabaseRelated) (i n : nat)
    (ids : list string) : list string :=
  match n with
  | 0 => ids
  | S n' =>
      let ids := if isEmdbRow related i
                 then ids ++ [Column.value (db_id related) i] else ids in
      getEmIds_rows related (S i) n' ids
  end.

Definition getEmIds (model : Model) : list string :=
  match sourceData model with
  | OtherFormat => [entryId model]
  | Mmcif db =>
      let related := pdbx_database_related db in
      if negb (Column.isDefined (db_name related)) then [entryId model]
      else getEmIds_rows related 0 (Column.rowCount (db_name related)) []
  end.

Definition getXrayIds (model : Model) : list string := [entryId model].

Definition getIds (method_ : Kind) (s : option Structure) : list string :=
  match s with
  | None => []
  | Some s =>
      match models s with
      | [] => []
      | model :: _ =>
          match method_ with
          | em => getEmIds model
          | x_ray => getXrayIds model
          end
      end
  end.

(** Some row below [n] passes the test. *)
Definition someRow (n : nat) (test : nat → bool) : Prop :=
  ∃ i, i < n ∧ test i = true.

End Methods.

End VolumeStreaming.

Module SampleStreaming.

Import VolumeStreaming.

(** ASCII upper case, enough for the sample values. *)
Definition upperAscii (a : Ascii.ascii) : Ascii.ascii :=
  let n := Ascii.nat_of_ascii a in
  if (97 <=? n) && (n <=? 122) then Ascii.ascii_of_nat (n - 32) else a.

Fixpoint toUpperCase (s : string) : string :=
  match s with
  | EmptyString => EmptyString
  | String a s' => String (upperAscii a) (toUpperCase s')
  end.

Definition column (values : list string) : Column.t :=
  Column.mk true (length values) (λ i, default EmptyString (values !! i)).

(** An entry solved by electron crystallography with a related EMDB map and
    released structure factors. *)
Definition db : Database :=
  {| pdbx_database_related :=
       {| _rowCount := 2;
          db_id := column ["1ABC"; "EMD-1234"];
          db_name := column ["PDB"; "emdb"];
          content_type := column ["unspecified"; "associated EM volume"] |};
     pdbx_database_status := {| status_code_sf := column ["REL"] |};
     exptl := {| method := column ["ELECTRON CRYSTALLOGRAPHY"] |} |}.

Definition model : Model := {| sourceData := Mmcif db; entryId := "6AXZ" |}.

Definition structure : Structure := {| models := [model] |}.

End SampleStreaming.

(** * Facts about the structure model *)

Section StructureFacts.

Implicit Types (s a b : Structure.t) (u v : Unit.t) (uid e : nat).

Lemma hasb_has s uid e : Structure.hasb s uid e = true ↔ Structure.has s uid e.
Proof.
  unfold Structure.hasb, Structure.has. rewrite existsb_exists. split.
  - intros (u & Hin & Hb). apply bool_decide_eq_true in Hb as [? ?].
    exists u. by rewrite list_elem_of_In.
  - intros (u & Hin & ? & ?). exists u. rewrite <- list_elem_of_In.
    split; [done|]. by apply bool_decide_eq_true.
Qed.

Lemma hasb_not_has s uid e : Structure.hasb s uid e = false ↔ ¬ Structure.has s uid e.
Proof. rewrite <- hasb_has. by destruct (Structure.hasb s uid e). Qed.

Lemma structureIntersect_has a b uid e :
  Structure.has (structureIntersect a b) uid e ↔
  Structure.has a uid e ∧ Structure.has b uid e.
Proof.
  unfold structureIntersect, Structure.has at 1 2; simpl. split.
  - intros (u' & Hin & Hid & He). apply list_elem_of_omap in Hin as (u & Hu & Hf).
    simpl in Hf. case_decide; [done|]. injection Hf as <-. simpl in *.
    apply list_elem_of_filter in He as [Hb He]. subst uid.
    split; [by exists u | by apply hasb_has].
  - intros [(u & Hu & Hid & He) Hb]. subst uid.
    assert (e ∈ filter (λ e, Structure.hasb b (Unit.id u) e = true) (Unit.elements u)) as Hf.
    { apply list_elem_of_filter. split; [by apply hasb_has | done]. }
    eexists. split; [apply list_elem_of_omap; exists u; split; [done|]|].
    + simpl. case_decide as Hnil; [|done]. rewrite Hnil in Hf. by apply elem_of_nil in Hf.
    + done.
Qed.

Lemma structureSubtract_has a b uid e :
  Structure.has (structureSubtract a b) uid e ↔
  Structure.has a uid e ∧ ¬ Structure.has b uid e.
Proof.
  unfold structureSubtract, Structure.has at 1 2; simpl. split.
  - intros (u' & Hin & Hid & He). apply list_elem_of_omap in Hin as (u & Hu & Hf).
    simpl in Hf. case_decide; [done|]. injection Hf as <-. simpl in *.
    apply list_elem_of_filter in He as [Hb He]. subst uid.
    split; [by exists u | by apply hasb_not_has].
  - intros [(u & Hu & Hid & He) Hb]. subst uid.
    assert (e ∈ filter (λ e, Structure.hasb b (Unit.id u) e = false) (Unit.elements u)) as Hf.
    { apply list_elem_of_filter. split; [by apply hasb_not_has | done]. }
    eexists. split; [apply list_elem_of_omap; exists u; split; [done|]|].
    + simpl. case_decide as Hnil; [|done]. rewrite Hnil in Hf. by apply elem_of_nil in Hf.
    + done.
Qed.

(** A structure counts no elements exactly when it has no atom. *)
Lemma elementCount_0 s : Structure.elementCount s = 0 ↔ ∀ uid e, ¬ Structure.has s uid e.
Proof.
  unfold Structure.elementCount, Structure.has. destruct s as [us]; simpl.
  induction us as [|u us IH]; simpl.
  - split; [|done]. intros _ uid e (u & Hu & _). by apply elem_of_nil in Hu.
  - split.
    + intros Hz uid e (v & Hv & Hid & He).
      assert (length (Unit.elements u) = 0) as Hl by lia.
      apply elem_of_cons in Hv as [->|Hv].
      * apply nil_length_inv in Hl. rewrite Hl in He. by apply elem_of_nil in He.
      * apply (proj1 IH ltac:(lia) uid e). by exists v.
    + intros Hno. assert (Unit.elements u = []) as ->.
      { apply elem_of_nil_inv. intros e He. apply (Hno (Unit.id u) e).
        exists u. split; [left|done]. }
      simpl. apply IH. intros uid e (v & Hv & Hrest). apply (Hno uid e).
      exists v. split; [by right|done].
Qed.

Lemma elem_of_ascending (l : list nat) e : e ∈ ascending l ↔ e ∈ l.
Proof.
  unfold ascending. rewrite merge_sort_Permutation. apply elem_of_remove_dups.
Qed.

Lemma ascending_NoDup (l : list nat) : NoDup (ascending l).
Proof.
  unfold ascending. rewrite merge_sort_Permutation. apply NoDup_remove_dups.
Qed.

Lemma ascending_Sorted (l : list nat) : Sorted (≤) (ascending l).
Proof. unfold ascending. apply Sorted_merge_sort. apply _. Qed.

(** The committed form only depends on which elements were added. *)
Lemma ascending_ext (l k : list nat) :
  (∀ e, e ∈ l ↔ e ∈ k) → ascending l = ascending k.
Proof.
  intros Hlk. apply (Sorted_unique (≤)); try apply ascending_Sorted.
  apply NoDup_Permutation; try apply ascending_NoDup.
  intros e. by rewrite !elem_of_ascending.
Qed.

Lemma unitMap_get_Some s uid p :
  Structure.unitMap_get s uid = Some p → p ∈ Structure.units s ∧ Unit.id p = uid.
Proof.
  unfold Structure.unitMap_get. intros Hg.
  destruct (list_find _ _) as [[i q]|] eqn:Hf; simpl in Hg; [|done].
  injection Hg as ->. apply list_find_Some in Hf as (Hi & Hid & _).
  split; [|done]. apply list_elem_of_lookup. by exists i.
Qed.

Lemma unitMap_get_is_Some s uid :
  is_Some (Structure.unitMap_get s uid) ↔ ∃ p, p ∈ Structure.units s ∧ Unit.id p = uid.
Proof.
  split.
  - intros [p Hp]. exists p. by apply unitMap_get_Some.
  - intros (p & Hp & Hid). unfold Structure.unitMap_get.
    destruct (list_find _ _) as [[i q]|] eqn:Hf; simpl; [by eexists|].
    apply list_find_None in Hf. rewrite Forall_forall in Hf. by destruct (Hf p Hp).
Qed.

Lemma content_has s uid e : Structure.has s uid e ↔ entryHas (Structure.content s) uid e.
Proof.
  unfold Structure.has, entryHas, Structure.content. split.
  - intros (u & Hu & Hid & He). exists (Unit.elements u). split; [|done].
    apply list_elem_of_fmap. exists u. by rewrite Hid.
  - intros (els & Hin & He). apply list_elem_of_fmap in Hin as (u & Heq & Hu).
    injection Heq as -> ->. by exists u.
Qed.

Lemma areEqual_has a b uid e :
  Structure.areEqual a b = true → Structure.has a uid e ↔ Structure.has b uid e.
Proof.
  unfold Structure.areEqual. intros Heq%bool_decide_eq_true.
  by rewrite !content_has, Heq.
Qed.

Lemma addTo_has cs uid e uid' e' :
  entryHas (StructureSubsetBuilder.addTo cs uid e) uid' e' ↔
  entryHas cs uid' e' ∨ (uid' = uid ∧ e' = e).
Proof.
  unfold entryHas. induction cs as [|[i els] cs IH]; simpl.
  - split.
    + intros (l & Hin & He). apply list_elem_of_singleton in Hin. injection Hin as -> ->.
      apply list_elem_of_singleton in He. by right.
    + intros [(l & Hin & _)|[-> ->]]; [by apply elem_of_nil in Hin|].
      exists [e]. split; apply list_elem_of_singleton; done.
  - case_decide as Hi.
    + subst i. split.
      * intros (l & Hin & He). apply elem_of_cons in Hin as [Heq|Hin].
        -- injection Heq as -> ->. apply elem_of_ascending, elem_of_app in He as [He|He].
           ++ left. exists els. split; [left|done].
           ++ apply list_elem_of_singleton in He. by right.
        -- left. exists l. split; [by right|done].
      * intros [(l & Hin & He)|[-> ->]].
        -- apply elem_of_cons in Hin as [Heq|Hin].
           ++ injection Heq as -> ->. eexists. split; [left|].
              apply elem_of_ascending, elem_of_app. by left.
           ++ exists l. split; [by right|done].
        -- eexists. split; [left|]. apply elem_of_ascending, elem_of_app. right.
           by apply list_elem_of_singleton.
    + split.
      * intros (l & Hin & He). apply elem_of_cons in Hin as [Heq|Hin].
        -- injection Heq as -> ->. left. exists els. split; [left|done].
        -- destruct (proj1 IH) as [(l' & ? & ?)|?]; [by exists l| |by right].
           left. exists l'. split; [by right|done].
      * intros [(l & Hin & He)|Hnew].
        -- apply elem_of_cons in Hin as [Heq|Hin].
           ++ injection Heq as -> ->. exists els. split; [left|done].
           ++ destruct (proj2 IH) as (l' & ? & ?); [left; by exists l|].
              exists l'. split; [by right|done].
        -- destruct (proj2 IH) as (l' & ? & ?); [by right|].
           exists l'. split; [by right|done].
Qed.

Lemma resolve_has parent cs uid e :
  Structure.has (Structure.mk (StructureSubsetBuilder.resolve parent cs)) uid e ↔
  entryHas cs uid e ∧ is_Some (Structure.unitMap_get parent uid).
Proof.
  unfold Structure.has, entryHas, StructureSubsetBuilder.resolve; simpl. split.
  - intros (u & Hu & Hid & He). apply list_elem_of_omap in Hu as ([i els] & Hin & Hf).
    simpl in Hf. destruct (Structure.unitMap_get parent i) as [p|] eqn:Hp; [|done].
    injection Hf as <-. simpl in *. apply unitMap_get_Some in Hp as Hp'.
    destruct Hp' as [_ Hpid]. rewrite Hpid in Hid. subst i.
    split; [by exists els | by eexists].
  - intros [(els & Hin & He) [p Hp]]. exists (Unit.getChild p els).
    split; [|split; [simpl; by apply unitMap_get_Some in Hp as [_ ?] | done]].
    apply list_elem_of_omap. exists (uid, els). split; [done|]. simpl. by rewrite Hp.
Qed.

Lemma mergeUnit_has acc u uid e :
  Structure.has (Structure.mk (mergeUnit acc u)) uid e ↔
  Structure.has (Structure.mk acc) uid e ∨ (uid = Unit.id u ∧ e ∈ Unit.elements u).
Proof.
  unfold Structure.has; simpl. induction acc as [|v acc IH]; simpl.
  - split.
    + intros (w & Hw & Hid & He). apply list_elem_of_singleton in Hw. subst w. by right.
    + intros [(w & Hw & _)|[-> He]]; [by apply elem_of_nil in Hw|].
      exists u. split; [by apply list_elem_of_singleton|done].
  - case_decide as Hv.
    + split.
      * intros (w & Hw & Hid & He). apply elem_of_cons in Hw as [->|Hw]; simpl in *.
        -- apply elem_of_ascending, elem_of_app in He as [He|He].
           ++ left. exists v. split; [left|done].
           ++ right. by rewrite <- Hv.
        -- left. exists w. split; [by right|done].
      * intros [(w & Hw & Hid & He)|[-> He]].
        -- apply elem_of_cons in Hw as [->|Hw].
           ++ eexists. split; [left|]. simpl. split; [done|].
              apply elem_of_ascending, elem_of_app. by left.
           ++ exists w. split; [by right|done].
        -- eexists. split; [left|]. simpl. split; [done|].
           apply elem_of_ascending, elem_of_app. by right.
    + split.
      * intros (w & Hw & Hid & He). apply elem_of_cons in Hw as [->|Hw].
        -- left. exists v. split; [left|done].
        -- destruct (proj1 IH) as [(w' & ? & ?)|?]; [by exists w| |by right].
           left. exists w'. split; [by right|done].
      * intros [(w & Hw & Hid & He)|Hnew].
        -- apply elem_of_cons in Hw as [->|Hw].
           ++ exists v. split; [left|done].
           ++ destruct (proj2 IH) as (w' & ? & ?); [left; by exists w|].
              exists w'. split; [by right|done].
        -- destruct (proj2 IH) as (w' & ? & ?); [by right|].
           exists w'. split; [by right|done].
Qed.

Lemma foldl_mergeUnit_has us acc uid e :
  Structure.has (Structure.mk (foldl mergeUnit acc us)) uid e ↔
  Structure.has (Structure.mk acc) uid e ∨ Structure.has (Structure.mk us) uid e.
Proof.
  revert acc. induction us as [|u us IH]; intros acc; simpl.
  - split; [by left|]. intros [?|(w & Hw & _)]; [done|by apply elem_of_nil in Hw].
  - rewrite IH, mergeUnit_has. unfold Structure.has; simpl. split.
    + intros [[?|[-> He]]|(w & Hw & Hr)]; [by left| |].
      * right. exists u. split; [left|done].
      * right. exists w. split; [by right|done].
    + intros [?|(w & Hw & Hid & He)]; [by left; left|].
      apply elem_of_cons in Hw as [->|Hw]; [left; by right|].
      right. by exists w.
Qed.

(** The union has exactly the atoms of the structures united. *)
Lemma structureUnion_has l uid e :
  Structure.has (structureUnion l) uid e ↔ anyHas l uid e.
Proof.
  unfold structureUnion, anyHas.
  assert (∀ acc, Structure.has (Structure.mk (foldl (λ acc s, foldl mergeUnit acc (Structure.units s)) acc l)) uid e ↔
                 Structure.has (Structure.mk acc) uid e ∨ ∃ s, s ∈ l ∧ Structure.has s uid e) as Hgen.
  { induction l as [|s l IH]; intros acc; simpl.
    - split; [by left|]. intros [?|(s & Hs & _)]; [done|by apply elem_of_nil in Hs].
    - rewrite IH, foldl_mergeUnit_has. destruct s as [us]; simpl. split.
      + intros [[?|?]|(s & Hs & ?)]; [by left| |].
        * right. eexists. split; [left|done].
        * right. exists s. split; [by right|done].
      + intros [?|(s & Hs & Hh)]; [by left; left|].
        apply elem_of_cons in Hs as [->|Hs]; [left; by right|].
        right. by exists s. }
  rewrite Hgen. split; [|by right].
  intros [(w & Hw & _)|?]; [by apply elem_of_nil in Hw|done].
Qed.

Lemma uniqueAdd_in (bd : StructureSelection.Builder) s s' :
  s ∈ StructureSelection.builderStructures (StructureSelection.uniqueAdd bd s') →
  s ∈ StructureSelection.builderStructures bd ∨ s = s'.
Proof.
  unfold StructureSelection.uniqueAdd. destruct (existsb _ _); simpl; [by left|].
  intros [?|Hs%list_elem_of_singleton]%elem_of_app; [by left|by right].
Qed.

Lemma uniqueAdd_has (bd : StructureSelection.Builder) s' uid e :
  anyHas (StructureSelection.builderStructures (StructureSelection.uniqueAdd bd s')) uid e ↔
  anyHas (StructureSelection.builderStructures bd) uid e ∨ Structure.has s' uid e.
Proof.
  unfold anyHas. split.
  - intros (s & Hs & Hh). apply uniqueAdd_in in Hs as [Hs| ->]; [left; by exists s|by right].
  - unfold StructureSelection.uniqueAdd.
    destruct (existsb _ _) eqn:Hex; simpl.
    + intros [?|Hh]; [done|]. apply existsb_exists in Hex as (s & Hs & Heq).
      exists s. split; [by apply list_elem_of_In|]. by apply (areEqual_has s s').
    + intros [(s & Hs & Hh)|Hh].
      * exists s. split; [apply elem_of_app; by left|done].
      * exists s'. split; [apply elem_of_app; right; by apply list_elem_of_singleton|done].
Qed.

Lemma uniqueAdd_source (bd : StructureSelection.Builder) s :
  StructureSelection.builderSource (StructureSelection.uniqueAdd bd s) =
  StructureSelection.builderSource bd.
Proof. unfold StructureSelection.uniqueAdd. by destruct (existsb _ _). Qed.

End StructureFacts.

(** * Facts about the loops *)

Section LoopFacts.

Lemma setClock_clock ctx : setClock ctx (QueryContext.clock ctx) = ctx.
Proof. by destruct ctx. Qed.

Lemma afterChecks_0 {A} (v : A) ctx : afterChecks 0 v ctx = (Ok v, ctx).
Proof.
  unfold afterChecks. rewrite decide_True by lia.
  by rewrite Nat.sub_0_r, setClock_clock.
Qed.

(** One more check in front of [c] checks. *)
Lemma afterChecks_S {A} (c : nat) (v : A) ctx :
  (let* _ := throwIfTimedOut in afterChecks c v) ctx = afterChecks (S c) v ctx.
Proof.
  unfold bind, throwIfTimedOut, afterChecks. destruct ctx as [i st el es [|n]];
    unfold setClock; cbn [QueryContext.clock QueryContext.inputStructure
      QueryContext.inputStructureStack QueryContext.element
      QueryContext.currentElementStack].
  - destruct (decide (S c ≤ 0)); [lia|done].
  - destruct (decide (c ≤ n)), (decide (S c ≤ S n)); try lia; done.
Qed.

Lemma checks_S k i n :
  checks k i (S n) = (if decide (i `mod` k = 0) then 1 else 0) + checks k (S i) n.
Proof.
  unfold checks. simpl. rewrite filter_cons. by destruct (decide (i `mod` k = 0)).
Qed.

(** A loop that updates its locals purely and checks the deadline at the
    indices divisible by [k]. *)
Lemma strided_loop_run {A B} (k : nat) (g : B → A → B) (l : list A) i acc ctx :
  forIndexedFrom i l acc
    (λ acc x sI, let* _ := (if decide (sI `mod` k = 0) then throwIfTimedOut else ret ()) in
                 ret (g acc x)) ctx
  = afterChecks (checks k i (length l)) (foldl g acc l) ctx.
Proof.
  revert i acc ctx. induction l as [|x l IH]; intros i acc ctx; simpl.
  - unfold checks; simpl. by rewrite afterChecks_0.
  - rewrite checks_S. unfold bind at 1. unfold bind at 1.
    destruct (decide (i `mod` k = 0)); simpl.
    + rewrite <- afterChecks_S. unfold bind, throwIfTimedOut.
      destruct (QueryContext.clock ctx); [done|]. simpl. apply IH.
    + apply IH.
Qed.

(** A loop that updates its locals purely and checks the deadline after
    every item. *)
Lemma checked_loop_run {A B} (g : B → A → B) (l : list A) acc ctx :
  forOf l acc (λ acc x, let* _ := throwIfTimedOut in ret (g acc x)) ctx
  = afterChecks (length l) (foldl g acc l) ctx.
Proof.
  revert acc ctx. induction l as [|x l IH]; intros acc ctx; simpl.
  - by rewrite afterChecks_0.
  - rewrite <- afterChecks_S. unfold bind, throwIfTimedOut.
    destruct (QueryContext.clock ctx); [done|]. simpl. apply IH.
Qed.

Lemma afterChecks_Ok {A} c (v w : A) ctx ctx' :
  afterChecks c v ctx = (Ok w, ctx') →
  w = v ∧ c ≤ QueryContext.clock ctx ∧ ctx' = setClock ctx (QueryContext.clock ctx - c).
Proof. unfold afterChecks. case_decide; intros [= <- <-]; done. Qed.

Lemma afterChecks_enough {A} c (v : A) ctx :
  c ≤ QueryContext.clock ctx →
  afterChecks c v ctx = (Ok v, setClock ctx (QueryContext.clock ctx - c)).
Proof. intros. unfold afterChecks. by rewrite decide_True. Qed.

Lemma afterChecks_expired {A} c (v : A) ctx :
  QueryContext.clock ctx < c → afterChecks c v ctx = (Err TimedOut, setClock ctx 0).
Proof. intros. unfold afterChecks. rewrite decide_False by lia. done. Qed.

End LoopFacts.

(** * intersectBy, exceptBy and union *)

Section SetAlgebra.

Implicit Types (A B : StructureQuery) (ctx : QueryContext.t).

Lemma afterChecks_bind_ret {X Y} c (v : X) (f : X → Y) ctx :
  (let* r := afterChecks c v in ret (f r)) ctx = afterChecks c (f v) ctx.
Proof. unfold bind, afterChecks. by case_decide. Qed.

Ltac run_strided k g :=
  match goal with
  | |- context [forIndexedFrom ?i ?l ?acc ?f ?c] =>
      rewrite (strided_loop_run k g l i acc c
               : forIndexedFrom i l acc f c = _)
  end.

(** [intersectBy], case by case. *)
Lemma intersectBy_run A B ctx selA ctx1 :
  A ctx = (Ok selA, ctx1) →
  intersectBy A B ctx =
  if decide (StructureSelection.structureCount selA = 0) then (Ok selA, ctx1)
  else match B ctx1 with
       | (Ok selB, ctx2) =>
           if decide (StructureSelection.structureCount selB = 0)
           then (Ok (StructureSelection.Empty (QueryContext.inputStructure ctx2)), ctx2)
           else afterChecks (checks 50 0 (StructureSelection.structureCount selA))
                  (StructureSelection.getSelection
                     (foldl (intersectBy_add (StructureSelection.unionStructure selB))
                        (StructureSelection.UniqueBuilder (QueryContext.inputStructure ctx2))
                        (StructureSelection.structures selA))) ctx2
       | (Err e, ctx2) => (Err e, ctx2)
       end.
Proof.
  intros HA. unfold intersectBy. unfold bind at 1. rewrite HA.
  case_decide; [done|]. unfold bind at 1. destruct (B ctx1) as [[selB|e] ctx2]; [|done].
  case_decide; [done|]. unfold bind at 1, getInputStructure at 1.
  unfold forEach, intersectBy_each.
  unfold bind at 1.
  run_strided 50 (intersectBy_add (StructureSelection.unionStructure selB)).
  unfold afterChecks, StructureSelection.structureCount. by case_decide.
Qed.

(** [exceptBy], case by case. *)
Lemma exceptBy_run A B ctx selA ctx1 :
  A ctx = (Ok selA, ctx1) →
  exceptBy A B ctx =
  if decide (StructureSelection.structureCount selA = 0) then (Ok selA, ctx1)
  else match B ctx1 with
       | (Ok selB, ctx2) =>
           if decide (StructureSelection.structureCount selB = 0)
           then (Ok (StructureSelection.Empty (QueryContext.inputStructure ctx2)), ctx2)
           else afterChecks (checks 50 0 (StructureSelection.structureCount selA))
                  (StructureSelection.getSelection
                     (foldl (exceptBy_add (StructureSelection.unionStructure selB))
                        (StructureSelection.UniqueBuilder (QueryContext.inputStructure ctx2))
                        (StructureSelection.structures selA))) ctx2
       | (Err e, ctx2) => (Err e, ctx2)
       end.
Proof.
  intros HA. unfold exceptBy. unfold bind at 1. rewrite HA.
  case_decide; [done|]. unfold bind at 1. destruct (B ctx1) as [[selB|e] ctx2]; [|done].
  case_decide; [done|]. unfold bind at 1, getInputStructure at 1.
  unfold forEach, exceptBy_each.
  unfold bind at 1.
  run_strided 50 (exceptBy_add (StructureSelection.unionStructure selB)).
  unfold afterChecks, StructureSelection.structureCount. by case_decide.
Qed.

Lemma union_run A ctx :
  union A ctx =
  match A ctx with
  | (Ok sel, ctx1) =>
      (Ok (StructureSelection.Sequence (QueryContext.inputStructure ctx)
             [StructureSelection.unionStructure sel]), ctx1)
  | (Err e, ctx1) => (Err e, ctx1)
  end.
Proof.
  unfold union, bind, getInputStructure. by destruct (A ctx) as [[sel|e] ctx1].
Qed.

Lemma foldl_intersectBy_has U l bd uid e :
  anyHas (StructureSelection.builderStructures (foldl (intersectBy_add U) bd l)) uid e ↔
  anyHas (StructureSelection.builderStructures bd) uid e ∨
  (Structure.has U uid e ∧ anyHas l uid e).
Proof.
  revert bd. induction l as [|s l IH]; intros bd; simpl.
  - split; [by left|]. intros [?|[_ (s & Hs & _)]]; [done|by apply elem_of_nil in Hs].
  - rewrite IH. unfold intersectBy_add.
    assert (anyHas (s :: l) uid e ↔ Structure.has s uid e ∨ anyHas l uid e) as ->.
    { unfold anyHas. split.
      - intros (s' & [->|Hs]%elem_of_cons & Hh); [by left|right; by exists s'].
      - intros [Hh|(s' & Hs & Hh)]; [exists s; split; [left|done]|].
        exists s'. split; [by right|done]. }
    case_decide as Hc.
    + rewrite uniqueAdd_has, structureIntersect_has. tauto.
    + rewrite elementCount_0 in Hc.
      specialize (Hc uid e). rewrite structureIntersect_has in Hc. tauto.
Qed.

Lemma foldl_exceptBy_has U l bd uid e :
  anyHas (StructureSelection.builderStructures (foldl (exceptBy_add U) bd l)) uid e ↔
  anyHas (StructureSelection.builderStructures bd) uid e ∨
  (anyHas l uid e ∧ ¬ Structure.has U uid e).
Proof.
  revert bd. induction l as [|s l IH]; intros bd; simpl.
  - split; [by left|]. intros [?|[(s & Hs & _) _]]; [done|by apply elem_of_nil in Hs].
  - rewrite IH. unfold exceptBy_add.
    assert (anyHas (s :: l) uid e ↔ Structure.has s uid e ∨ anyHas l uid e) as ->.
    { unfold anyHas. split.
      - intros (s' & [->|Hs]%elem_of_cons & Hh); [by left|right; by exists s'].
      - intros [Hh|(s' & Hs & Hh)]; [exists s; split; [left|done]|].
        exists s'. split; [by right|done]. }
    case_decide as Hc.
    + rewrite uniqueAdd_has, structureSubtract_has. tauto.
    + rewrite elementCount_0 in Hc.
      specialize (Hc uid e). rewrite structureSubtract_has in Hc. tauto.
Qed.

Lemma anyHas_nil uid e : ¬ anyHas [] uid e.
Proof. intros (s & Hs & _). by apply elem_of_nil in Hs. Qed.

Lemma anyHas_singleton s uid e : anyHas [s] uid e ↔ Structure.has s uid e.
Proof.
  unfold anyHas. split.
  - by intros (s' & ->%list_elem_of_singleton & Hh).
  - intros Hh. exists s. split; [by apply list_elem_of_singleton|done].
Qed.

Lemma unionStructure_has sel uid e :
  Structure.has (StructureSelection.unionStructure sel) uid e ↔
  StructureSelection.has sel uid e.
Proof. unfold StructureSelection.unionStructure. apply structureUnion_has. Qed.

End SetAlgebra.

Lemma querySelection_empty (selection query : StructureQuery) ctx targetSel ctx1 :
  selection ctx = (Ok targetSel, ctx1) →
  StructureSelection.structureCount targetSel = 0 →
  querySelection selection query ctx = (Ok targetSel, ctx1).
Proof.
  intros Hs Hc. unfold querySelection. unfold bind at 1. rewrite Hs.
  by rewrite decide_True.
Qed.

Lemma getSelection_has bd uid e :
  StructureSelection.has (StructureSelection.getSelection bd) uid e ↔
  anyHas (StructureSelection.builderStructures bd) uid e.
Proof. done. Qed.

Lemma has_no_structures sel uid e :
  StructureSelection.structureCount sel = 0 → ¬ StructureSelection.has sel uid e.
Proof.
  unfold StructureSelection.structureCount, StructureSelection.has.
  intros Hl%nil_length_inv (s & Hs & _). rewrite Hl in Hs. by apply elem_of_nil in Hs.
Qed.

Lemma anyHas_singleton_sel s uid e :
  (∃ s', s' ∈ [s] ∧ Structure.has s' uid e) ↔ Structure.has s uid e.
Proof. apply anyHas_singleton. Qed.

Lemma has_union_singleton src sel uid e :
  StructureSelection.has
    (StructureSelection.Sequence src [StructureSelection.unionStructure sel]) uid e
  ↔ StructureSelection.has sel uid e.
Proof.
  unfold StructureSelection.has at 1; simpl.
  by rewrite anyHas_singleton_sel, unionStructure_has.
Qed.

(** Deciding membership in a list given in full. *)
Ltac elem_of_concrete :=
  repeat first [ apply list_elem_of_here | apply list_elem_of_further ].

(** * wholeResidues *)

Section WholeResidues.

Lemma segmentIndexFrom_sound i offs e r :
  Segmentation.segmentIndexFrom i offs e = Some r →
  ∃ k lo hi, r = i + k ∧ offs !! k = Some lo ∧ offs !! S k = Some hi ∧ lo ≤ e < hi.
Proof.
  revert i. induction offs as [|lo rest IH]; intros i; simpl; [done|].
  destruct rest as [|hi rest']; [done|].
  destruct ((lo <=? e) && (e <? hi)) eqn:Ht.
  - intros [= <-]. apply andb_prop in Ht as [Hlo%Nat.leb_le Hhi%Nat.ltb_lt].
    exists 0, lo, hi. repeat split; try done; lia.
  - intros (k & lo' & hi' & -> & Hk & HSk & Hr)%IH.
    exists (S k), lo', hi'. repeat split; try done; lia.
Qed.

Lemma segmentIndexFrom_complete i offs e k lo hi :
  Sorted (≤) offs → offs !! k = Some lo → offs !! S k = Some hi → lo ≤ e < hi →
  Segmentation.segmentIndexFrom i offs e = Some (i + k).
Proof.
  intros Hs%Sorted_StronglySorted; [|apply _]. revert i k.
  induction offs as [|lo0 rest IH]; intros i k Hk HSk He; [done|].
  simpl. destruct rest as [|hi0 rest']; [done|].
  apply StronglySorted_inv in Hs as [Hrest Hall].
  destruct k as [|k]; simpl in *.
  - injection Hk as ->. injection HSk as ->.
    assert ((lo <=? e) && (e <? hi) = true) as ->.
    { apply andb_true_intro. split; [apply Nat.leb_le|apply Nat.ltb_lt]; lia. }
    f_equal. lia.
  - assert (hi0 ≤ lo) as Hle.
    { destruct k as [|k]; simpl in Hk; [injection Hk as ->; done|].
      apply StronglySorted_inv in Hrest as [_ Hall'].
      rewrite Forall_forall in Hall'. apply Hall'.
      apply list_elem_of_lookup. by exists k. }
    assert ((lo0 <=? e) && (e <? hi0) = false) as ->.
    { apply andb_false_intro2. apply Nat.ltb_ge. lia. }
    rewrite (IH Hrest (S i) k Hk HSk He). f_equal. lia.
Qed.

Lemma segmentIndex_inResidue u e rI :
  Segmentation.segmentIndex (residueAtomSegments (atomicHierarchy (Unit.model u))) e = Some rI →
  inResidue u rI e.
Proof.
  unfold Segmentation.segmentIndex.
  intros (k & lo & hi & -> & ? & ? & ?)%segmentIndexFrom_sound. by exists lo, hi.
Qed.

Lemma inResidue_segmentIndex u e rI :
  monotonicOffsets u → inResidue u rI e →
  Segmentation.segmentIndex (residueAtomSegments (atomicHierarchy (Unit.model u))) e = Some rI.
Proof.
  intros Hs (lo & hi & Hlo & Hhi & He). unfold Segmentation.segmentIndex.
  by rewrite (segmentIndexFrom_complete 0 _ e rI lo hi Hs Hlo Hhi He).
Qed.

Lemma elem_of_segmentsFrom last segs els rI :
  rI ∈ Segmentation.segmentsFrom last segs els →
  ∃ e, e ∈ els ∧ Segmentation.segmentIndex segs e = Some rI.
Proof.
  revert last. induction els as [|e els IH]; intros last; simpl.
  - by intros ?%elem_of_nil.
  - destruct (Segmentation.segmentIndex segs e) as [r|] eqn:Hr.
    + case_decide.
      * intros (e' & ? & ?)%IH. exists e'. split; [by right|done].
      * intros [->|(e' & ? & ?)%IH]%elem_of_cons.
        -- exists e. split; [left|done].
        -- exists e'. split; [by right|done].
    + intros (e' & ? & ?)%IH. exists e'. split; [by right|done].
Qed.

Lemma segmentsFrom_elem_of last segs els e rI :
  e ∈ els → Segmentation.segmentIndex segs e = Some rI →
  last = Some rI ∨ rI ∈ Segmentation.segmentsFrom last segs els.
Proof.
  revert last. induction els as [|e0 els IH]; intros last; simpl.
  - by intros ?%elem_of_nil.
  - intros [->|Hin]%elem_of_cons Hr.
    + rewrite Hr. case_decide; [by left|right; left].
    + destruct (Segmentation.segmentIndex segs e0) as [r|] eqn:Hr0.
      * case_decide; [by apply IH|].
        destruct (IH (Some r) Hin Hr) as [[= ->]|?]; right; [left|by right].
      * by apply IH.
Qed.

(** The residues the iterator visits are those of the elements. *)
Lemma elem_of_transientSegments segs els rI :
  rI ∈ Segmentation.transientSegments segs els ↔
  ∃ e, e ∈ els ∧ Segmentation.segmentIndex segs e = Some rI.
Proof.
  unfold Segmentation.transientSegments. split; [apply elem_of_segmentsFrom|].
  intros (e & He & Hr). by destruct (segmentsFrom_elem_of None segs els e rI He Hr).
Qed.

Lemma elem_of_residueRange u rI e :
  e ∈ residueRange (residueAtomSegments (atomicHierarchy (Unit.model u))) rI ↔
  inResidue u rI e.
Proof.
  unfold residueRange, inResidue. rewrite Nat.add_1_r.
  destruct (_ !! rI) as [lo|]; [destruct (_ !! S rI) as [hi|]|].
  - rewrite elem_of_seq. split.
    + intros ?. exists lo, hi. repeat split; try done; lia.
    + intros (? & ? & [= <-] & [= <-] & ?). lia.
  - split; [by intros ?%elem_of_nil|]. by intros (? & ? & _ & ? & _).
  - split; [by intros ?%elem_of_nil|]. by intros (? & ? & ? & _).
Qed.

(** The elements residue expansion gives an atomic unit. *)
Lemma elem_of_wholeResidueElements u e :
  Unit.kind u = Unit.Atomic → monotonicOffsets u →
  e ∈ wholeResidueElements u ↔
  ∃ rI, inResidue u rI e ∧ ∃ e', e' ∈ Unit.elements u ∧ inResidue u rI e'.
Proof.
  intros Hk Hs. unfold wholeResidueElements. rewrite decide_False by (by intros []).
  simpl. rewrite elem_of_ascending, list_elem_of_join. split.
  - intros (l & He & (rI & -> & Hr)%list_elem_of_fmap).
    apply elem_of_transientSegments in Hr as (e' & He' & Hidx).
    exists rI. split; [by apply elem_of_residueRange|].
    exists e'. split; [done|by apply segmentIndex_inResidue].
  - intros (rI & He & e' & He' & Hr). eexists. split; [by apply elem_of_residueRange|].
    apply list_elem_of_fmap. exists rI. split; [done|].
    apply elem_of_transientSegments. exists e'. split; [done|].
    by apply inResidue_segmentIndex.
Qed.

End WholeResidues.

Section WholeResiduesRun.

Lemma foldl_addElement b l :
  foldl StructureSubsetBuilder.addElement b l =
  StructureSubsetBuilder.mk (StructureSubsetBuilder.parent b)
    (StructureSubsetBuilder.isSorted b) (StructureSubsetBuilder.committed b)
    (StructureSubsetBuilder.parentId b) (StructureSubsetBuilder.currentUnit b ++ l).
Proof.
  revert b. induction l as [|e l IH]; intros b; simpl.
  - rewrite app_nil_r. by destruct b.
  - rewrite IH. simpl. by rewrite <- app_assoc.
Qed.

Lemma foldl_addRanges (range : nat → list nat) b rs :
  foldl (λ b rI, foldl StructureSubsetBuilder.addElement b (range rI)) b rs =
  StructureSubsetBuilder.mk (StructureSubsetBuilder.parent b)
    (StructureSubsetBuilder.isSorted b) (StructureSubsetBuilder.committed b)
    (StructureSubsetBuilder.parentId b)
    (StructureSubsetBuilder.currentUnit b ++ mjoin (range <$> rs)).
Proof.
  revert b. induction rs as [|r rs IH]; intros b; simpl.
  - rewrite app_nil_r. by destruct b.
  - rewrite IH, foldl_addElement. simpl. by rewrite <- app_assoc.
Qed.

(** The loop of [getWholeResidues]: one deadline check per atomic unit, and
    one committed pair per unit. *)
Lemma getWholeResidues_loop us b ctx :
  ∃ b',
    forOf us b getWholeResidues_unit ctx
    = afterChecks (length (filter (λ u, Unit.kind u = Unit.Atomic) us)) b' ctx ∧
    StructureSubsetBuilder.parent b' = StructureSubsetBuilder.parent b ∧
    StructureSubsetBuilder.committed b' =
      StructureSubsetBuilder.committed b ++ ((λ u, (Unit.id u, wholeResidueElements u)) <$> us).
Proof.
  revert b ctx. induction us as [|u us IH]; intros b ctx.
  - exists b. simpl. by rewrite afterChecks_0, app_nil_r.
  - simpl. rewrite filter_cons. unfold bind at 1. unfold getWholeResidues_unit at 1.
    destruct (decide (Unit.kind u ≠ Unit.Atomic)) as [Hk|Hk].
    + rewrite decide_False by done. unfold ret at 1.
      destruct (IH (StructureSubsetBuilder.setUnit b (Unit.id u) (Unit.elements u)) ctx)
        as (b' & Hrun & Hp & Hc).
      exists b'. split; [done|]. split; [done|].
      rewrite Hc. simpl. rewrite <- app_assoc. simpl.
      unfold wholeResidueElements. by rewrite decide_True.
    + apply dec_stable in Hk. rewrite decide_True by done.
      rewrite foldl_addRanges. simpl.
      set (b1 := StructureSubsetBuilder.commitUnit _).
      destruct (QueryContext.clock ctx) as [|n] eqn:Hclock.
      * destruct (IH b1 ctx) as (b' & _ & Hp & Hc).
        exists b'. split.
        { unfold bind, throwIfTimedOut. rewrite Hclock.
          rewrite afterChecks_expired by (rewrite Hclock; simpl; lia).
          destruct ctx; simpl in *. by subst. }
        split; [done|]. rewrite Hc. simpl. rewrite <- app_assoc. simpl.
        unfold wholeResidueElements. by rewrite decide_False by (by intros []).
      * destruct (IH b1 (setClock ctx n)) as (b' & Hrun & Hp & Hc).
        exists b'. split.
        { unfold bind, throwIfTimedOut, ret. rewrite Hclock. fold (setClock ctx n).
          rewrite Hrun. unfold afterChecks. simpl. rewrite Hclock.
          destruct (decide (_ ≤ n)), (decide (S _ ≤ S n)); try lia; done. }
        split; [done|]. rewrite Hc. simpl. rewrite <- app_assoc. simpl.
        unfold wholeResidueElements. by rewrite decide_False by (by intros []).
Qed.

Lemma getWholeResidues_run source structure ctx :
  getWholeResidues source structure ctx
  = afterChecks (atomicUnits structure) (wholeResiduesOf source structure) ctx.
Proof.
  unfold getWholeResidues, bind.
  destruct (getWholeResidues_loop (Structure.units structure) (subsetBuilder source true) ctx)
    as (b' & -> & Hp & Hc).
  unfold afterChecks, atomicUnits. case_decide; [|done].
  unfold ret, StructureSubsetBuilder.getStructure, wholeResiduesOf. by rewrite Hp, Hc.
Qed.

Lemma resolve_children source us (els : Unit.t → list nat) :
  (∀ u, u ∈ us → ∃ p, Structure.unitMap_get source (Unit.id u) = Some p ∧
                      u = Unit.getChild p (Unit.elements u)) →
  StructureSubsetBuilder.resolve source ((λ u, (Unit.id u, els u)) <$> us)
  = (λ u, Unit.getChild u (els u)) <$> us.
Proof.
  unfold StructureSubsetBuilder.resolve. induction us as [|u us IH]; intros Hsub; [done|].
  csimpl. destruct (Hsub u) as (p & -> & Hu); [left|]. csimpl.
  rewrite IH by (intros v Hv; apply Hsub; by right).
  f_equal. rewrite Hu at 2. done.
Qed.

(** On a subset of the source, residue expansion rewrites the units in
    place. *)
Lemma wholeResiduesOf_sub source structure :
  subStructure structure source →
  wholeResiduesOf source structure
  = Structure.mk ((λ u, Unit.getChild u (wholeResidueElements u)) <$> Structure.units structure).
Proof. intros Hsub. unfold wholeResiduesOf. by rewrite resolve_children. Qed.

Lemma inResidue_unique u rI rJ e :
  monotonicOffsets u → inResidue u rI e → inResidue u rJ e → rI = rJ.
Proof.
  intros Hs HI%inResidue_segmentIndex HJ%inResidue_segmentIndex; try done. congruence.
Qed.

Lemma ascending_eq (l k : list nat) :
  (∀ e, e ∈ ascending l ↔ e ∈ ascending k) → ascending l = ascending k.
Proof.
  intros Hlk. apply ascending_ext. intros e.
  rewrite <- (elem_of_ascending l), <- (elem_of_ascending k). apply Hlk.
Qed.

(** Expanding the elements of an expanded unit changes nothing. *)
Lemma wholeResidueElements_idem u :
  monotonicOffsets u →
  wholeResidueElements (Unit.getChild u (wholeResidueElements u)) = wholeResidueElements u.
Proof.
  intros Hs. destruct (decide (Unit.kind u = Unit.Atomic)) as [Hk|Hk].
  - set (u' := Unit.getChild u (wholeResidueElements u)).
    assert (∀ e, e ∈ wholeResidueElements u' ↔ e ∈ wholeResidueElements u) as Hmem.
    { intros e. rewrite (elem_of_wholeResidueElements u') by done.
      rewrite (elem_of_wholeResidueElements u) by done.
      change (inResidue u') with (inResidue u). simpl. split.
      - intros (rI & He & e1 & He1 & Hr1).
        apply elem_of_wholeResidueElements in He1 as (rJ & Hr1' & e2 & He2 & Hr2); try done.
        rewrite (inResidue_unique u rI rJ e1) in He by done. by exists rJ; eauto.
      - intros (rI & He & e' & He' & Hr). exists rI. split; [done|].
        exists e. split; [|done]. apply elem_of_wholeResidueElements; try done.
        exists rI; eauto. }
    unfold wholeResidueElements in Hmem |- *.
    rewrite !decide_False in Hmem |- * by (simpl; by intros []).
    by apply ascending_eq.
  - unfold wholeResidueElements. simpl. by rewrite !decide_True.
Qed.

Lemma atomicUnits_children us (els : Unit.t → list nat) :
  length (filter (λ u, Unit.kind u = Unit.Atomic) ((λ u, Unit.getChild u (els u)) <$> us))
  = length (filter (λ u, Unit.kind u = Unit.Atomic) us).
Proof.
  induction us as [|u us IH]; [done|]. rewrite fmap_cons, !filter_cons. simpl.
  destruct (decide (Unit.kind u = Unit.Atomic)); simpl; by rewrite IH.
Qed.

End WholeResiduesRun.

(** * includeSurroundings *)

Section SurroundingsFacts.

Variable lookup3d : Structure.t → Z → Z → Z → Z → list (nat * nat).

Lemma findIntoBuilder_has source x y z r b uid e :
  entryHas (StructureUniqueSubsetBuilder.entries (findIntoBuilder lookup3d source x y z r b)) uid e
  ↔ entryHas (StructureUniqueSubsetBuilder.entries b) uid e ∨ (uid, e) ∈ lookup3d source x y z r.
Proof.
  unfold findIntoBuilder. generalize (lookup3d source x y z r) as hits.
  intros hits. revert b. induction hits as [|[i a] hits IH]; intros b; simpl.
  - split; [by left|]. by intros [?|?%elem_of_nil].
  - rewrite IH. simpl. rewrite addTo_has, elem_of_cons. split.
    + intros [[?|[-> ->]]|?]; [by left|right; by left|right; by right].
    + intros [?|[[= -> ->]|?]]; [left; by left|left; by right|by right].
Qed.

Lemma surroundUnit_has source r b u uid e :
  entryHas (StructureUniqueSubsetBuilder.entries (surroundUnit lookup3d source r b u)) uid e
  ↔ entryHas (StructureUniqueSubsetBuilder.entries b) uid e ∨
    ∃ e0, e0 ∈ Unit.elements u ∧
      (uid, e) ∈ lookup3d source (Conformation.x (Unit.conformation u) e0)
                   (Conformation.y (Unit.conformation u) e0)
                   (Conformation.z (Unit.conformation u) e0) r.
Proof.
  unfold surroundUnit. generalize (Unit.elements u) as els. intros els. revert b.
  induction els as [|e0 els IH]; intros b; simpl.
  - split; [by left|]. by intros [?|(? & ?%elem_of_nil & _)].
  - rewrite IH, findIntoBuilder_has. split.
    + intros [[?|?]|(e1 & ? & ?)]; [by left| |].
      * right. exists e0. split; [left|done].
      * right. exists e1. split; [by right|done].
    + intros [?|(e1 & [->|?]%elem_of_cons & ?)]; [left; by left|left; by right|].
      right. by exists e1.
Qed.

Lemma foldl_surroundUnit_has source r us b uid e :
  entryHas (StructureUniqueSubsetBuilder.entries (foldl (surroundUnit lookup3d source r) b us)) uid e
  ↔ entryHas (StructureUniqueSubsetBuilder.entries b) uid e ∨
    reported lookup3d source r (Structure.mk us) uid e.
Proof.
  unfold reported. simpl. revert b. induction us as [|u us IH]; intros b; simpl.
  - split; [by left|]. by intros [?|(? & ? & ?%elem_of_nil & _)].
  - rewrite IH, surroundUnit_has. split.
    + intros [[?|(e0 & ? & ?)]|(v & e0 & ? & ? & ?)]; [by left| |].
      * right. exists u, e0. split; [left|done].
      * right. exists v, e0. split; [by right|done].
    + intros [?|(v & e0 & [->|?]%elem_of_cons & ? & ?)]; [left; by left| |].
      * left. right. by exists e0.
      * right. by exists v, e0.
Qed.

Lemma findIntoBuilder_parent source x y z r b :
  StructureUniqueSubsetBuilder.parent (findIntoBuilder lookup3d source x y z r b)
  = StructureUniqueSubsetBuilder.parent b.
Proof.
  unfold findIntoBuilder. generalize (lookup3d source x y z r) as hits.
  intros hits. revert b. induction hits as [|hit hits IH]; intros b; simpl; [done|].
  by rewrite IH.
Qed.

Lemma surroundUnit_parent source r b u :
  StructureUniqueSubsetBuilder.parent (surroundUnit lookup3d source r b u)
  = StructureUniqueSubsetBuilder.parent b.
Proof.
  unfold surroundUnit. generalize (Unit.elements u) as els. intros els. revert b.
  induction els as [|e els IH]; intros b; simpl; [done|].
  by rewrite IH, findIntoBuilder_parent.
Qed.

Lemma foldl_surroundUnit_parent source r us b :
  StructureUniqueSubsetBuilder.parent (foldl (surroundUnit lookup3d source r) b us)
  = StructureUniqueSubsetBuilder.parent b.
Proof.
  revert b. induction us as [|u us IH]; intros b; simpl; [done|].
  by rewrite IH, surroundUnit_parent.
Qed.

(** The surroundings are the reported atoms whose unit the source has. *)
Lemma surroundingsOf_has source r structure uid e :
  Structure.has (surroundingsOf lookup3d source r structure) uid e ↔
  reported lookup3d source r structure uid e ∧ is_Some (Structure.unitMap_get source uid).
Proof.
  unfold surroundingsOf, StructureUniqueSubsetBuilder.getStructure.
  rewrite resolve_has, foldl_surroundUnit_has, foldl_surroundUnit_parent.
  destruct structure as [us]. cbn [StructureUniqueSubsetBuilder.create
    StructureUniqueSubsetBuilder.parent StructureUniqueSubsetBuilder.entries Structure.units].
  split; [|tauto]. intros [[(els & Hnil & _)|?] ?]; [by apply elem_of_nil in Hnil|done].
Qed.

Lemma afterChecks_bind {X Y} n m (v : X) (w : Y) (k : X → M Y) ctx :
  (∀ j, k v (setClock ctx j) = afterChecks m w (setClock ctx j)) →
  (let* x := afterChecks n v in k x) ctx = afterChecks (n + m) w ctx.
Proof.
  intros Hk. unfold bind. unfold afterChecks at 1.
  destruct (decide (n ≤ QueryContext.clock ctx)).
  - rewrite Hk. unfold afterChecks. simpl.
    destruct (decide (m ≤ _)), (decide (n + m ≤ _)); try lia.
    + unfold setClock; simpl. do 2 f_equal. lia.
    + done.
  - unfold afterChecks. by rewrite decide_False by lia.
Qed.

Lemma afterChecks_bind_pure {X Y} n (v : X) (w : Y) (k : X → M Y) ctx :
  (∀ j, k v (setClock ctx j) = (Ok w, setClock ctx j)) →
  (let* x := afterChecks n v in k x) ctx = afterChecks n w ctx.
Proof.
  intros Hk. unfold bind, afterChecks. case_decide; [|done]. apply Hk.
Qed.

Lemma bind_run {X Y} (m m' : M X) (k : X → M Y) ctx :
  m ctx = m' ctx → (let* x := m in k x) ctx = (let* x := m' in k x) ctx.
Proof. unfold bind. by intros ->. Qed.

Lemma getIncludeSurroundings_run source structure params ctx :
  getIncludeSurroundings lookup3d source structure params ctx
  = afterChecks (includeSurroundingsChecks lookup3d source params structure)
      (includeSurroundingsOf lookup3d source params structure) ctx.
Proof.
  unfold getIncludeSurroundings, includeSurroundingsChecks, includeSurroundingsOf.
  unfold getIncludeSurroundings_unit.
  set (r := IncludeSurroundingsParams.radius params).
  etrans.
  { apply bind_run.
    exact (checked_loop_run (surroundUnit lookup3d source r) (Structure.units structure)
             (StructureUniqueSubsetBuilder.create source) ctx). }
  destruct (default false (IncludeSurroundingsParams.wholeResidues params)).
  - apply (afterChecks_bind _ (atomicUnits (surroundingsOf lookup3d source r structure))
             _ (wholeResiduesOf source (surroundingsOf lookup3d source r structure))
             (λ builder, getWholeResidues source
                           (StructureUniqueSubsetBuilder.getStructure builder))).
    intros j. apply getWholeResidues_run.
  - rewrite Nat.add_0_r.
    exact (afterChecks_bind_ret _ _ StructureUniqueSubsetBuilder.getStructure ctx).
Qed.

(** The loop of [includeSurroundings] over the structures of an array
    selection. *)
Lemma includeSurroundings_loop params l bd ctx :
  forOf l bd (λ builder s,
    let* input := getInputStructure in
    let* surr := getIncludeSurroundings lookup3d input s params in
    ret (StructureSelection.uniqueAdd builder surr)) ctx
  = afterChecks
      (sum_list (includeSurroundingsChecks lookup3d (QueryContext.inputStructure ctx) params <$> l))
      (foldl (λ builder s,
                StructureSelection.uniqueAdd builder
                  (includeSurroundingsOf lookup3d (QueryContext.inputStructure ctx) params s))
             bd l) ctx.
Proof.
  revert bd ctx. induction l as [|s l IH]; intros bd ctx; simpl.
  - by rewrite afterChecks_0.
  - etrans.
    { apply bind_run. unfold bind at 1, getInputStructure at 1.
      etrans; [apply bind_run, getIncludeSurroundings_run|]. apply afterChecks_bind_ret. }
    apply afterChecks_bind. intros j. exact (IH _ (setClock ctx j)).
Qed.

(** [includeSurroundings], for both forms of the inner selection. *)
Lemma includeSurroundings_run query params ctx inner ctx1 :
  query ctx = (Ok inner, ctx1) →
  includeSurroundings lookup3d query params ctx
  = afterChecks
      (sum_list (includeSurroundingsChecks lookup3d (QueryContext.inputStructure ctx1) params
                   <$> StructureSelection.structures inner))
      (match inner with
       | StructureSelection.Singletons _ structure =>
           StructureSelection.Singletons (QueryContext.inputStructure ctx1)
             (includeSurroundingsOf lookup3d (QueryContext.inputStructure ctx1) params structure)
       | StructureSelection.Sequence _ structures =>
           StructureSelection.getSelection
             (foldl (λ builder s,
                       StructureSelection.uniqueAdd builder
                         (includeSurroundingsOf lookup3d (QueryContext.inputStructure ctx1) params s))
                    (UniqueStructuresBuilder (QueryContext.inputStructure ctx1)) structures)
       end) ctx1.
Proof.
  intros Hq. unfold includeSurroundings. unfold bind at 1. rewrite Hq.
  destruct inner as [src structure|src structures]; simpl.
  - unfold bind at 1, getInputStructure at 1. rewrite Nat.add_0_r.
    etrans; [apply bind_run, getIncludeSurroundings_run|].
    apply (afterChecks_bind_pure _ _ _
             (λ surr, let* input' := getInputStructure in
                      ret (StructureSelection.Singletons input' surr))).
    intros j. reflexivity.
  - unfold bind at 1, getInputStructure at 1.
    etrans; [apply bind_run, includeSurroundings_loop|]. apply afterChecks_bind_ret.
Qed.

Lemma foldl_uniqueAdd_has (f : Structure.t → Structure.t) l bd uid e :
  anyHas (StructureSelection.builderStructures
            (foldl (λ builder s, StructureSelection.uniqueAdd builder (f s)) bd l)) uid e
  ↔ anyHas (StructureSelection.builderStructures bd) uid e ∨
    ∃ s, s ∈ l ∧ Structure.has (f s) uid e.
Proof.
  revert bd. induction l as [|s l IH]; intros bd; simpl.
  - split; [by left|]. by intros [?|(? & ?%elem_of_nil & _)].
  - rewrite IH, uniqueAdd_has. split.
    + intros [[?|?]|(s' & ? & ?)]; [by left| |].
      * right. exists s. split; [left|done].
      * right. exists s'. split; [by right|done].
    + intros [?|(s' & [->|?]%elem_of_cons & ?)]; [left; by left|left; by right|].
      right. by exists s'.
Qed.

(** The structures of the result of [includeSurroundings] are the
    surroundings of the structures of the inner selection. *)
Lemma includeSurroundings_has query params ctx inner ctx1 sel ctx' uid e :
  query ctx = (Ok inner, ctx1) →
  includeSurroundings lookup3d query params ctx = (Ok sel, ctx') →
  StructureSelection.has sel uid e ↔
  ∃ s, s ∈ StructureSelection.structures inner ∧
       Structure.has (includeSurroundingsOf lookup3d (QueryContext.inputStructure ctx1) params s) uid e.
Proof.
  intros Hq. rewrite (includeSurroundings_run _ _ _ _ _ Hq).
  intros (-> & _ & _)%afterChecks_Ok. destruct inner as [src structure|src structures].
  - unfold StructureSelection.has. simpl. rewrite anyHas_singleton_sel. split.
    + intros ?. eexists. split; [by apply list_elem_of_singleton|done].
    + by intros (s & ->%list_elem_of_singleton & ?).
  - rewrite getSelection_has, foldl_uniqueAdd_has. simpl. split; [|by right].
    intros [?%anyHas_nil|?]; done.
Qed.

(** The surroundings of a subset of the source are children of the units of
    the source. *)
Lemma surroundingsOf_sub source r structure :
  subStructure (surroundingsOf lookup3d source r structure) source.
Proof.
  unfold surroundingsOf, StructureUniqueSubsetBuilder.getStructure, subStructure.
  rewrite foldl_surroundUnit_parent. simpl.
  unfold StructureSubsetBuilder.resolve.
  intros u ([i els] & _ & Hf)%list_elem_of_omap. simpl in Hf.
  destruct (Structure.unitMap_get source i) as [p|] eqn:Hp; [|done].
  injection Hf as <-. simpl. apply unitMap_get_Some in Hp as Hp'.
  destruct Hp' as [_ ->]. by exists p.
Qed.

End SurroundingsFacts.

(** * What the loops leave of the context *)

Section Respects.

Context (R : QueryContext.t → QueryContext.t → Prop) `{!PreOrder R}.
Context (E : QueryError → Prop).

Lemma respects_ret {A} (a : A) : respects R E (ret a).
Proof. intros ctx r ctx' [= <- <-]. split; [reflexivity|done]. Qed.

Lemma respects_bind {A B} (m : M A) (k : A → M B) :
  respects R E m → (∀ a, respects R E (k a)) → respects R E (let* x := m in k x).
Proof.
  intros Hm Hk ctx r ctx'. unfold bind.
  destruct (m ctx) as [[a|e] c1] eqn:Hrun; destruct (Hm _ _ _ Hrun) as [HR HE].
  - intros Hrun2. destruct (Hk a _ _ _ Hrun2) as [HR2 HE2].
    split; [by etrans|done].
  - intros [= <- <-]. split; [done|]. intros e0 [= <-]. by apply HE.
Qed.

Lemma respects_forOf {A B} (xs : list A) (acc : B) (body : B → A → M B) :
  (∀ acc x, respects R E (body acc x)) → respects R E (forOf xs acc body).
Proof.
  intros Hbody. revert acc. induction xs as [|x xs IH]; intros acc; simpl.
  - apply respects_ret.
  - apply respects_bind; [apply Hbody|]. intros acc'. apply IH.
Qed.

Lemma respects_forIndexedFrom {A B} i (xs : list A) (acc : B) (body : B → A → nat → M B) :
  (∀ acc x i, respects R E (body acc x i)) → respects R E (forIndexedFrom i xs acc body).
Proof.
  intros Hbody. revert i acc. induction xs as [|x xs IH]; intros i acc; simpl.
  - apply respects_ret.
  - apply respects_bind; [apply Hbody|]. intros acc'. apply IH.
Qed.

End Respects.

Lemma respects_weaken {A} (R R' : QueryContext.t → QueryContext.t → Prop)
    (E E' : QueryError → Prop) (m : M A) :
  (∀ c c', R c c' → R' c c') → (∀ e, E e → E' e) →
  respects R E m → respects R' E' m.
Proof.
  intros HR HE Hm ctx r ctx' Hrun. destruct (Hm _ _ _ Hrun) as [? ?]. split; eauto.
Qed.

Global Instance settles_preorder : PreOrder settles.
Proof.
  split.
  - intros c. unfold settles. repeat split; done.
  - intros c1 c2 c3 (? & ? & ? & ?) (? & ? & ? & ?). unfold settles.
    repeat split; try congruence. lia.
Qed.

Section ExpandPropertyFacts.

Context {P : Type} `{Countable P}.
Implicit Types (property : QueryFn P).

Lemma settles_setElementUnit E u : respects settles E (setElementUnit u).
Proof. intros ctx r ctx' [= <- <-]. split; [|done]. unfold settles. simpl. repeat split; done. Qed.

Lemma settles_setElementElement E e : respects settles E (setElementElement e).
Proof. intros ctx r ctx' [= <- <-]. split; [|done]. unfold settles. simpl. repeat split; done. Qed.

Lemma settles_evalProperty E property : respects settles E (evalProperty property).
Proof. intros ctx r ctx' [= <- <-]. split; [reflexivity|done]. Qed.

Lemma settles_getInputStructure E : respects settles E getInputStructure.
Proof. intros ctx r ctx' [= <- <-]. split; [reflexivity|done]. Qed.

Lemma settles_throwIfTimedOut : respects settles (λ e, e = TimedOut) throwIfTimedOut.
Proof.
  intros ctx r ctx'. unfold throwIfTimedOut.
  destruct (QueryContext.clock ctx) eqn:Hc.
  - intros [= <- <-]. split; [reflexivity|]. by intros e [= <-].
  - intros [= <- <-]. split; [|done]. unfold settles. simpl. repeat split; try done. lia.
Qed.

Lemma settles_throw {A} (E : QueryError → Prop) e : E e → respects settles E (@throw A e).
Proof. intros He ctx r ctx' [= <- <-]. split; [reflexivity|]. by intros ? [= <-]. Qed.

(** The first pass over one structure never raises. *)
Lemma expandProperty_claim_settles property sI map_ s :
  respects settles (λ _, False) (expandProperty_claim property sI map_ s).
Proof.
  unfold expandProperty_claim. apply respects_forOf; [apply _|]. intros acc u.
  apply respects_bind; [apply _|apply settles_setElementUnit|]. intros _.
  apply respects_forIndexedFrom; [apply _|]. intros acc' e i.
  apply respects_bind; [apply _|apply settles_setElementElement|]. intros _.
  apply respects_bind; [apply _|apply settles_evalProperty|]. intros p.
  apply respects_ret. apply _.
Qed.

(** A round of the first pass raises nothing but the timeout. *)
Lemma expandProperty_each_settles property st s sI :
  respects settles (λ e, e = TimedOut) (expandProperty_each property st s sI).
Proof.
  unfold expandProperty_each.
  apply respects_bind; [apply _| |].
  { eapply respects_weaken; [| |apply expandProperty_claim_settles]; done. }
  intros map_. apply respects_bind; [apply _|apply settles_getInputStructure|]. intros input.
  apply respects_bind; [apply _| |].
  { case_decide; [apply settles_throwIfTimedOut|apply respects_ret; apply _]. }
  intros _. apply respects_ret. apply _.
Qed.

(** The second pass raises nothing but the TypeError. *)
Lemma expandProperty_collect_settles property map_ input builders :
  respects settles (λ e, e = TypeError) (expandProperty_collect property map_ input builders).
Proof.
  unfold expandProperty_collect. apply respects_forOf; [apply _|]. intros acc u.
  apply respects_bind; [apply _|apply settles_setElementUnit|]. intros _.
  apply respects_forIndexedFrom; [apply _|]. intros acc' e i.
  unfold expandProperty_atom.
  apply respects_bind; [apply _|apply settles_setElementElement|]. intros _.
  apply respects_bind; [apply _|apply settles_evalProperty|]. intros p.
  destruct (map_ !! p) as [arr|]; [|apply respects_ret; apply _].
  apply respects_forIndexedFrom; [apply _|]. intros acc'' x j.
  destruct (_ !! i) as [k|]; [|by apply settles_throw].
  destruct (arrayGet acc'' k); [apply respects_ret; apply _|by apply settles_throw].
Qed.

End ExpandPropertyFacts.

Global Instance sameScope_preorder : PreOrder sameScope.
Proof.
  split.
  - intros c. unfold sameScope. repeat split; done.
  - intros c1 c2 c3 (? & ? & ? & ?) (? & ? & ? & ?). unfold sameScope.
    repeat split; congruence.
Qed.

Section ScopeFacts.

Lemma sameScope_throwIfTimedOut : respects sameScope (λ e, e = TimedOut) throwIfTimedOut.
Proof.
  intros ctx r ctx'. unfold throwIfTimedOut.
  destruct (QueryContext.clock ctx) eqn:Hc.
  - intros [= <- <-]. split; [reflexivity|]. by intros e [= <-].
  - intros [= <- <-]. split; [|done]. unfold sameScope. simpl. repeat split; done.
Qed.

(** A round of [querySelection] around an inner query that returns and
    leaves the scoped state in place: the structure pushed is popped before
    the deadline is checked. *)
Lemma querySelection_each_sameScope (query : StructureQuery) ret_ s sI :
  (∀ c, ∃ sel c', query c = (Ok sel, c') ∧ sameScope c c') →
  respects sameScope (λ e, e = TimedOut) (querySelection_each query ret_ s sI).
Proof.
  intros Hq ctx r ctx'. unfold querySelection_each.
  unfold bind at 1, pushInputStructure at 1. unfold bind at 1.
  match goal with |- context [query ?c] => destruct (Hq c) as (sel & c1 & -> & Hs) end.
  unfold bind at 1, popInputStructure at 1.
  destruct Hs as (Hi & Hst & Hel & Hes). simpl in Hi, Hst, Hel, Hes. rewrite Hst.
  set (c2 := QueryContext.mk _ _ _ _ _).
  assert (sameScope ctx c2) as Hc2 by (unfold sameScope, c2; simpl; repeat split; done).
  clearbody c2. intros Hrun.
  assert (respects sameScope (λ e, e = TimedOut)
            (let* _ := (if decide (sI `mod` 10 = 0) then throwIfTimedOut else ret ()) in
             ret (foldl StructureSelection.uniqueAdd ret_ (StructureSelection.structures sel))))
    as Hrest.
  { apply respects_bind; [apply _| |intros _; apply respects_ret; apply _].
    case_decide; [apply sameScope_throwIfTimedOut|apply respects_ret; apply _]. }
  destruct (Hrest _ _ _ Hrun) as [HR HE]. split; [by etrans|done].
Qed.

Lemma querySelection_sameScope (selection query : StructureQuery) ctx targetSel ctx1 r ctx' :
  selection ctx = (Ok targetSel, ctx1) →
  (∀ c, ∃ sel c', query c = (Ok sel, c') ∧ sameScope c c') →
  querySelection selection query ctx = (r, ctx') →
  sameScope ctx1 ctx' ∧ ∀ e, r = Err e → e = TimedOut.
Proof.
  intros Hsel Hq. unfold querySelection. unfold bind at 1. rewrite Hsel.
  case_decide.
  { intros [= <- <-]. split; [reflexivity|done]. }
  intros Hrun.
  assert (respects sameScope (λ e, e = TimedOut)
            (let* input := getInputStructure in
             let* ret_ := forEach targetSel (StructureSelection.UniqueBuilder input)
                            (querySelection_each query) in
             ret (StructureSelection.getSelection ret_))) as Hall.
  { apply respects_bind; [apply _| |].
    { intros c r0 c0 [= <- <-]. split; [reflexivity|done]. }
    intros input. apply respects_bind; [apply _| |intros ?; apply respects_ret; apply _].
    apply respects_forIndexedFrom; [apply _|]. intros acc s i.
    by apply querySelection_each_sameScope. }
  exact (Hall _ _ _ Hrun).
Qed.

(** An error of the inner query leaves [querySelection] with the context
    of the throw: the structure pushed is not popped. *)
Lemma querySelection_inner_error (selection query : StructureQuery)
    ctx targetSel ctx1 s rest e c' :
  selection ctx = (Ok targetSel, ctx1) →
  StructureSelection.structures targetSel = s :: rest →
  query (pushInputStructure s ctx1).2 = (Err e, c') →
  querySelection selection query ctx = (Err e, c').
Proof.
  intros Hsel Hs Hq. unfold querySelection. unfold bind at 1. rewrite Hsel.
  rewrite decide_False by (unfold StructureSelection.structureCount; by rewrite Hs).
  unfold bind at 1, getInputStructure at 1. unfold forEach. rewrite Hs. simpl.
  unfold bind at 1. unfold bind at 1. unfold querySelection_each at 1.
  unfold bind at 1, pushInputStructure at 1. unfold bind at 1.
  simpl in Hq. by rewrite Hq.
Qed.

End ScopeFacts.

Section ExpandPropertyScope.

Context {P : Type} `{Countable P}.

Lemma unchanged_final_loop (builders : list (option StructureSubsetBuilder.t)) ret_ :
  respects eq (λ e, e = TypeError)
    (forOf builders ret_ (λ ret_ b,
       match b with
       | Some b => ret (StructureSelection.uniqueAdd ret_ (StructureSubsetBuilder.getStructure b))
       | None => throw TypeError
       end)).
Proof.
  apply respects_forOf; [apply _|]. intros acc [b|].
  - apply respects_ret. apply _.
  - intros ctx r ctx' [= <- <-]. split; [done|]. by intros e [= <-].
Qed.

(** How [expandProperty] leaves the cursor: restored when it returns, still
    pushed when it ends in a timeout. *)
Lemma expandProperty_outcome (query : StructureQuery) (property : QueryFn P)
    ctx src ctx1 r ctx' :
  query ctx = (Ok src, ctx1) →
  expandProperty query property ctx = (r, ctx') →
  (∀ sel, r = Ok sel → sameScope ctx1 ctx') ∧
  (r = Err TimedOut →
     QueryContext.inputStructure ctx' = QueryContext.inputStructure ctx1 ∧
     QueryContext.inputStructureStack ctx' = QueryContext.inputStructureStack ctx1 ∧
     QueryContext.currentElementStack ctx' =
       QueryContext.element ctx1 :: QueryContext.currentElementStack ctx1).
Proof.
  intros Hq. unfold expandProperty. unfold bind at 1. rewrite Hq.
  unfold bind at 1, pushCurrentElement at 1.
  set (c1 := QueryContext.mk _ _ _ _ _).
  unfold bind at 1.
  destruct (forEach src _ _ c1) as [[st|e1] c2] eqn:Hpass1.
  all: destruct (respects_forIndexedFrom settles (λ e, e = TimedOut) 0 _ _ _
                   (λ acc s i, expandProperty_each_settles property acc s i) _ _ _ Hpass1)
         as [(Hi2 & Hs2 & He2 & _) Herr1].
  2:{ intros [= <- <-]. split; [done|]. intros _. by rewrite Hi2, Hs2, He2. }
  unfold bind at 1, getInputStructure at 1. unfold bind at 1.
  destruct (expandProperty_collect property st.1 _ st.2 c2) as [[bs|e2] c3] eqn:Hpass2.
  all: destruct (expandProperty_collect_settles _ _ _ _ _ _ _ Hpass2)
         as [(Hi3 & Hs3 & He3 & _) Herr2].
  2:{ intros [= <- <-]. split; [done|]. intros [= ->]. by specialize (Herr2 _ eq_refl). }
  unfold bind at 1, popCurrentElement at 1. rewrite He3, He2. simpl.
  set (c4 := QueryContext.mk _ _ _ _ _).
  unfold bind at 1, getInputStructure at 1. unfold bind at 1.
  match goal with
  | |- context [forOf bs ?acc ?body c4] =>
      destruct (forOf bs acc body c4) as [[ret_|e3] c5] eqn:Hfinal;
      destruct (unchanged_final_loop bs acc _ _ _ Hfinal) as [<- Herr3]
  end.
  - intros [= <- <-]. split; [|done]. intros _ _. unfold sameScope, c4. simpl.
    rewrite Hi3, Hi2, Hs3, Hs2. done.
  - intros [= <- <-]. split; [done|]. intros [= ->]. by specialize (Herr3 _ eq_refl).
Qed.

End ExpandPropertyScope.

(** * Deadline checks at a bounded stride *)

Section Stride.

(** A window of [k] consecutive indices holds a multiple of [k]. *)
Lemma multiple_in_window k i n :
  0 < k → k ≤ n → ∃ j, i ≤ j < i + n ∧ j `mod` k = 0.
Proof.
  intros Hk Hn. destruct (decide (i `mod` k = 0)) as [Hi|Hi].
  - exists i. split; [lia|done].
  - exists (i + (k - i `mod` k)).
    pose proof (Nat.mod_upper_bound i k ltac:(lia)) as Hlt. split; [lia|].
    rewrite (Nat.div_mod_eq i k) at 1.
    replace (k * (i `div` k) + i `mod` k + (k - i `mod` k)) with ((i `div` k + 1) * k) by lia.
    apply Nat.Div0.mod_mul.
Qed.

(** A loop whose rounds, once the deadline is over, either raise or leave
    the deadline over, and raise at the indices divisible by [k], does not
    get past a window that holds such an index. *)
Lemma stride_abort {A B} (k : nat) (E : QueryError → Prop) (body : B → A → nat → M B) :
  (∀ acc x sI c r c',
     QueryContext.clock c = 0 → body acc x sI c = (r, c') →
     match r with
     | Err e => E e
     | Ok _ => QueryContext.clock c' = 0 ∧ sI `mod` k ≠ 0
     end) →
  ∀ l sI acc c,
    QueryContext.clock c = 0 →
    (∃ j, sI ≤ j < sI + length l ∧ j `mod` k = 0) →
    ∃ e c', forIndexedFrom sI l acc body c = (Err e, c') ∧ E e.
Proof.
  intros Hbody l. induction l as [|x l IH]; intros sI acc c Hc (j & Hj & Hmod); simpl in *.
  - lia.
  - unfold bind. destruct (body acc x sI c) as [[acc'|e] c1] eqn:Hrun;
      pose proof (Hbody _ _ _ _ _ _ Hc Hrun) as Hr; simpl in Hr.
    + destruct Hr as [Hc1 Hne]. apply IH; [done|]. exists j. split; [|done].
      destruct (decide (j = sI)) as [->|]; [done|lia].
    + by eauto.
Qed.

(** The check of a loop that looks at the deadline when [sI mod k = 0]. *)
Lemma strided_check k sI c r c' :
  QueryContext.clock c = 0 →
  (if decide (sI `mod` k = 0) then throwIfTimedOut else ret ()) c = (r, c') →
  match r with
  | Err e => e = TimedOut
  | Ok _ => QueryContext.clock c' = 0 ∧ sI `mod` k ≠ 0
  end.
Proof.
  intros Hc. case_decide.
  - unfold throwIfTimedOut. rewrite Hc. by intros [= <- <-].
  - by intros [= <- <-].
Qed.

Lemma intersectBy_each_stride unionBy acc s sI c r c' :
  QueryContext.clock c = 0 → intersectBy_each unionBy acc s sI c = (r, c') →
  match r with
  | Err e => e = TimedOut
  | Ok _ => QueryContext.clock c' = 0 ∧ sI `mod` 50 ≠ 0
  end.
Proof.
  intros Hc. unfold intersectBy_each, bind.
  destruct ((if decide (sI `mod` 50 = 0) then throwIfTimedOut else ret ()) c)
    as [[[]|e] c1] eqn:Hcheck; pose proof (strided_check _ _ _ _ _ Hc Hcheck) as Hr;
    by intros [= <- <-].
Qed.

Lemma exceptBy_each_stride subtractBy acc s sI c r c' :
  QueryContext.clock c = 0 → exceptBy_each subtractBy acc s sI c = (r, c') →
  match r with
  | Err e => e = TimedOut
  | Ok _ => QueryContext.clock c' = 0 ∧ sI `mod` 50 ≠ 0
  end.
Proof.
  intros Hc. unfold exceptBy_each, bind.
  destruct ((if decide (sI `mod` 50 = 0) then throwIfTimedOut else ret ()) c)
    as [[[]|e] c1] eqn:Hcheck; pose proof (strided_check _ _ _ _ _ Hc Hcheck) as Hr;
    by intros [= <- <-].
Qed.

Lemma querySelection_each_stride (query : StructureQuery) acc s sI c r c' :
  clockMonotone query →
  QueryContext.clock c = 0 → querySelection_each query acc s sI c = (r, c') →
  match r with
  | Err e => True
  | Ok _ => QueryContext.clock c' = 0 ∧ sI `mod` 10 ≠ 0
  end.
Proof.
  intros Hmono Hc. unfold querySelection_each.
  unfold bind at 1, pushInputStructure at 1. unfold bind at 1.
  match goal with |- context [query ?c0] =>
    destruct (query c0) as [[inner|e] c1] eqn:Hq; pose proof (Hmono _ _ _ Hq) as Hle
  end; simpl in Hle; [|by intros [= <- <-]].
  unfold bind at 1, popInputStructure at 1.
  set (c2 := match QueryContext.inputStructureStack c1 with [] => c1 | _ => _ end).
  assert (QueryContext.clock c2 = 0) as Hc2.
  { unfold c2. destruct (QueryContext.inputStructureStack c1); simpl; lia. }
  clearbody c2. unfold bind.
  destruct ((if decide (sI `mod` 10 = 0) then throwIfTimedOut else ret ()) c2)
    as [[[]|e] c3] eqn:Hcheck; pose proof (strided_check _ _ _ _ _ Hc2 Hcheck) as Hr;
    by intros [= <- <-].
Qed.

End Stride.

Section StrideExpandProperty.

Context {P : Type} `{Countable P}.

Lemma expandProperty_each_stride (property : QueryFn P) st s sI c r c' :
  QueryContext.clock c = 0 → expandProperty_each property st s sI c = (r, c') →
  match r with
  | Err e => e = TimedOut
  | Ok _ => QueryContext.clock c' = 0 ∧ sI `mod` 10 ≠ 0
  end.
Proof.
  intros Hc. unfold expandProperty_each. unfold bind at 1.
  destruct (expandProperty_claim property sI st.1 s c) as [[map_|e] c1] eqn:Hclaim;
    destruct (expandProperty_claim_settles _ _ _ _ _ _ _ Hclaim) as [(_ & _ & _ & Hle) Herr].
  2:{ by destruct (Herr e eq_refl). }
  unfold bind at 1, getInputStructure at 1. unfold bind.
  assert (QueryContext.clock c1 = 0) as Hc1 by lia.
  destruct ((if decide (sI `mod` 10 = 0) then throwIfTimedOut else ret ()) c1)
    as [[[]|e] c3] eqn:Hcheck; pose proof (strided_check _ _ _ _ _ Hc1 Hcheck) as Hr;
    by intros [= <- <-].
Qed.

(** With no value claimed, the second pass gets through any input structure
    without raising and without looking at the deadline. *)
Lemma expandProperty_collect_unclaimed (property : QueryFn P) input builders ctx :
  ∃ ctx', expandProperty_collect property ∅ input builders ctx = (Ok builders, ctx').
Proof.
  unfold expandProperty_collect. generalize (Structure.units input) as us.
  intros us. revert ctx. induction us as [|u us IH]; intros ctx; simpl.
  - by eexists.
  - unfold bind at 1. unfold bind at 1, setElementUnit at 1.
    set (c1 := withElement _ _). clearbody c1.
    assert (∀ els i c, ∃ c', forIndexedFrom i els builders
                               (expandProperty_atom property ∅ u) c = (Ok builders, c'))
      as Hatoms.
    { intros els. induction els as [|e els IHe]; intros i c; simpl; [by eexists|].
      unfold bind at 1. unfold expandProperty_atom at 1.
      unfold bind at 1, setElementElement at 1. unfold bind at 1, evalProperty at 1.
      rewrite lookup_empty. unfold ret at 1. apply IHe. }
    destruct (Hatoms (Unit.elements u) 0 c1) as (c2 & ->). apply IH.
Qed.

End StrideExpandProperty.

(** * The claims *)

(** C5: when the first query of [intersectBy], [exceptBy] or
    [querySelection] yields a selection without structures, that empty
    selection of the current input structure is returned and the second
    query is not run (whatever it is, result and context are those of the
    first query); and when the [by] query of [intersectBy] or [exceptBy]
    yields no structure, the result is the empty selection of the input
    structure. *)
Theorem C5_empty_inputs_short_circuit (query by_ : StructureQuery)
    (ctx ctx1 : QueryContext.t) (selection : StructureSelection.t) :
  query ctx = (Ok selection, ctx1) →
  (StructureSelection.structureCount selection = 0 →
   StructureSelection.source selection = QueryContext.inputStructure ctx1 →
   ∀ second : StructureQuery,
     intersectBy query second ctx = (Ok selection, ctx1) ∧
     exceptBy query second ctx = (Ok selection, ctx1) ∧
     querySelection query second ctx = (Ok selection, ctx1) ∧
     selection = StructureSelection.Empty (QueryContext.inputStructure ctx1))
  ∧
  (StructureSelection.structureCount selection ≠ 0 →
   ∀ bySel ctx2,
     by_ ctx1 = (Ok bySel, ctx2) →
     StructureSelection.structureCount bySel = 0 →
     intersectBy query by_ ctx =
       (Ok (StructureSelection.Empty (QueryContext.inputStructure ctx2)), ctx2) ∧
     exceptBy query by_ ctx =
       (Ok (StructureSelection.Empty (QueryContext.inputStructure ctx2)), ctx2)).
Proof.
  intros Hq. split.
  - intros Hc Hsrc second. repeat split.
    + rewrite (intersectBy_run _ _ _ _ _ Hq). by rewrite decide_True.
    + rewrite (exceptBy_run _ _ _ _ _ Hq). by rewrite decide_True.
    + by apply querySelection_empty.
    + destruct selection as [src s|src l]; [done|].
      apply nil_length_inv in Hc. simpl in *. by subst.
  - intros Hc bySel ctx2 Hby Hbc. split.
    + rewrite (intersectBy_run _ _ _ _ _ Hq). rewrite decide_False by done.
      rewrite Hby. by rewrite decide_True.
    + rewrite (exceptBy_run _ _ _ _ _ Hq). rewrite decide_False by done.
      rewrite Hby. by rewrite decide_True.
Qed.

(** The second query is one that would raise, and it is not run. *)
Lemma C5_witness :
  querySelection (Sample.const (StructureSelection.Empty Sample.twenty))
    (throw TypeError) (QueryContext.create Sample.twenty 0)
  = (Ok (StructureSelection.Empty Sample.twenty), QueryContext.create Sample.twenty 0)
  ∧ exceptBy (Sample.const (StructureSelection.Sequence Sample.twenty [Sample.twenty]))
      (Sample.const (StructureSelection.Empty Sample.twenty))
      (QueryContext.create Sample.twenty 0)
    = (Ok (StructureSelection.Empty Sample.twenty), QueryContext.create Sample.twenty 0).
Proof.
  split.
  - exact (proj1 (proj2 (proj2
      (proj1 (C5_empty_inputs_short_circuit
                (Sample.const (StructureSelection.Empty Sample.twenty)) (throw TypeError)
                (QueryContext.create Sample.twenty 0) (QueryContext.create Sample.twenty 0)
                (StructureSelection.Empty Sample.twenty) eq_refl)
         eq_refl eq_refl (throw TypeError))))).
  - exact (proj2
      (proj2 (C5_empty_inputs_short_circuit
                (Sample.const (StructureSelection.Sequence Sample.twenty [Sample.twenty]))
                (Sample.const (StructureSelection.Empty Sample.twenty))
                (QueryContext.create Sample.twenty 0) (QueryContext.create Sample.twenty 0)
                (StructureSelection.Sequence Sample.twenty [Sample.twenty]) eq_refl)
         ltac:(discriminate) (StructureSelection.Empty Sample.twenty)
         (QueryContext.create Sample.twenty 0) eq_refl eq_refl)).
Defined.

(** C9: every atom of a structure of [intersectBy A B] is in a structure of
    the result of [A] and in a structure of the result of [B]; every atom of
    a structure of [exceptBy A B] is in no structure of the result of [B];
    and both combinators return when [B] does and the deadline allows the
    checks of the loop. *)
Theorem C9_intersectBy_exceptBy_bounds (A B : StructureQuery)
    (ctx ctx1 : QueryContext.t) (selA : StructureSelection.t) :
  A ctx = (Ok selA, ctx1) →
  (∀ res ctx' uid e,
     intersectBy A B ctx = (Ok res, ctx') → StructureSelection.has res uid e →
     StructureSelection.has selA uid e ∧
     ∃ selB ctx2, B ctx1 = (Ok selB, ctx2) ∧ StructureSelection.has selB uid e)
  ∧
  (∀ res ctx' uid e,
     exceptBy A B ctx = (Ok res, ctx') → StructureSelection.has res uid e →
     StructureSelection.has selA uid e ∧
     ∀ selB ctx2, B ctx1 = (Ok selB, ctx2) → ¬ StructureSelection.has selB uid e)
  ∧
  (∀ selB ctx2,
     B ctx1 = (Ok selB, ctx2) →
     checks 50 0 (StructureSelection.structureCount selA) ≤ QueryContext.clock ctx2 →
     (∃ res ctx', intersectBy A B ctx = (Ok res, ctx')) ∧
     (∃ res ctx', exceptBy A B ctx = (Ok res, ctx'))).
Proof.
  intros HA. split; [|split].
  - intros res ctx' uid e. rewrite (intersectBy_run _ _ _ _ _ HA).
    case_decide as Hc.
    { intros [= <- <-] Hh. by apply has_no_structures in Hh. }
    destruct (B ctx1) as [[selB|err] ctx2]; [|done].
    case_decide as Hb.
    { intros [= <- <-] Hh. by apply has_no_structures in Hh. }
    intros (-> & _ & _)%afterChecks_Ok Hh.
    apply getSelection_has, foldl_intersectBy_has in Hh as [Hh|[HU Hl]].
    { by apply anyHas_nil in Hh. }
    split; [done|]. exists selB, ctx2. split; [done|]. by apply unionStructure_has.
  - intros res ctx' uid e. rewrite (exceptBy_run _ _ _ _ _ HA).
    case_decide as Hc.
    { intros [= <- <-] Hh. by apply has_no_structures in Hh. }
    destruct (B ctx1) as [[selB|err] ctx2]; [|done].
    case_decide as Hb.
    { intros [= <- <-] Hh. by apply has_no_structures in Hh. }
    intros (-> & _ & _)%afterChecks_Ok Hh.
    apply getSelection_has, foldl_exceptBy_has in Hh as [Hh|[Hl HU]].
    { by apply anyHas_nil in Hh. }
    split; [done|]. intros selB' ctx2' [= <- <-] HB. by apply unionStructure_has in HB.
  - intros selB ctx2 HB Hclock.
    rewrite (intersectBy_run _ _ _ _ _ HA), (exceptBy_run _ _ _ _ _ HA), HB.
    repeat case_decide; try (split; by eexists _, _).
    rewrite !afterChecks_enough by done. split; by eexists _, _.
Qed.

Lemma C9_witness :
  ¬ StructureSelection.has
      (StructureSelection.Sequence Sample.twenty [Structure.mk [Sample.atomic 0 [7]]]) 0 3.
Proof.
  pose (A := Sample.const (StructureSelection.Sequence Sample.twenty
                             [Structure.mk [Sample.atomic 0 [3; 7]]])).
  pose (B := Sample.const (StructureSelection.Sequence Sample.twenty
                             [Structure.mk [Sample.atomic 0 [7]]])).
  pose (ctx := QueryContext.create Sample.twenty 1).
  destruct (C9_intersectBy_exceptBy_bounds A B ctx ctx
              (StructureSelection.Sequence Sample.twenty
                 [Structure.mk [Sample.atomic 0 [3; 7]]]) eq_refl)
    as (_ & Hexcept & _).
  refine (proj2 (Hexcept
           (StructureSelection.Sequence Sample.twenty [Structure.mk [Sample.atomic 0 [3]]])
           (QueryContext.create Sample.twenty 0) 0 3 _ _) _ ctx eq_refl).
  - vm_compute. reflexivity.
  - exists (Structure.mk [Sample.atomic 0 [3]]).
    split; [apply list_elem_of_singleton; reflexivity|].
    exists (Sample.atomic 0 [3]).
    split; [apply list_elem_of_singleton; reflexivity|].
    split; [reflexivity|apply list_elem_of_singleton; reflexivity].
Defined.

(** C4, as stated, fails: with a [by] query that yields no structure both
    [exceptBy] and [intersectBy] return the empty selection, and the atom
    (0, 3) of [A] is in neither. *)
Lemma C4_counterexample :
  ¬ partitionLaw
      (Sample.const (StructureSelection.Sequence Sample.twenty
                       [Structure.mk [Sample.atomic 0 [3]]]))
      (Sample.const (StructureSelection.Empty Sample.twenty))
      (QueryContext.create Sample.twenty 5).
Proof.
  intros Hlaw.
  assert (∀ uid e, StructureSelection.has (StructureSelection.Empty Sample.twenty) uid e →
                   Structure.has Sample.twenty uid e) as Hsub.
  { intros uid e Hh. by apply has_no_structures in Hh. }
  epose proof (Hlaw _ _ _ _ _ _ _ _ eq_refl eq_refl Hsub eq_refl eq_refl 0 3) as Hlaw'.
  clear Hlaw. rename Hlaw' into Hlaw.
  destruct (proj2 Hlaw) as [(s & Hs & u & Hu & _)|(s & Hs & u & Hu & _)].
  - apply unionStructure_has. exists (Structure.mk [Sample.atomic 0 [3]]).
    split; [by apply list_elem_of_singleton|].
    exists (Sample.atomic 0 [3]).
    split; [by apply list_elem_of_singleton|].
    split; [done|by apply list_elem_of_singleton].
  - apply list_elem_of_singleton in Hs. subst s. by apply elem_of_nil in Hu.
  - apply list_elem_of_singleton in Hs. subst s. by apply elem_of_nil in Hu.
Qed.

(** C4, amended: when the [by] query yields at least one structure (and the
    deadline allows the checks of the two loops), [union (exceptBy A B)] and
    [union (intersectBy A B)] return, and their atoms together are exactly
    the atoms of the union of the structures of [A]. *)
Theorem C4_partition_law_nonempty_by (A B : StructureQuery)
    (ctx ctx1 ctx2 : QueryContext.t) (selA selB : StructureSelection.t) :
  A ctx = (Ok selA, ctx1) →
  B ctx1 = (Ok selB, ctx2) →
  StructureSelection.structureCount selB ≠ 0 →
  (∀ uid e, StructureSelection.has selB uid e →
            Structure.has (QueryContext.inputStructure ctx) uid e) →
  checks 50 0 (StructureSelection.structureCount selA) ≤ QueryContext.clock ctx2 →
  ∃ sE cE sI cI,
    union (exceptBy A B) ctx = (Ok sE, cE) ∧
    union (intersectBy A B) ctx = (Ok sI, cI) ∧
    ∀ uid e,
      StructureSelection.has sE uid e ∨ StructureSelection.has sI uid e
      ↔ Structure.has (StructureSelection.unionStructure selA) uid e.
Proof.
  intros HA HB Hne _ Hclock.
  rewrite !union_run, (exceptBy_run _ _ _ _ _ HA), (intersectBy_run _ _ _ _ _ HA), HB.
  destruct (decide (StructureSelection.structureCount selA = 0)) as [Hc|Hc].
  - eexists _, _, _, _. split; [reflexivity|]. split; [reflexivity|]. intros uid e.
    rewrite !has_union_singleton, unionStructure_has. tauto.
  - rewrite !decide_False by done. rewrite !afterChecks_enough by done.
    eexists _, _, _, _. split; [reflexivity|]. split; [reflexivity|]. intros uid e.
    rewrite !has_union_singleton, unionStructure_has, !getSelection_has.
    rewrite foldl_exceptBy_has, foldl_intersectBy_has.
    change (StructureSelection.has selA uid e)
      with (anyHas (StructureSelection.structures selA) uid e).
    pose proof (anyHas_nil uid e).
    destruct (decide (Structure.hasb (StructureSelection.unionStructure selB) uid e = true))
      as [Hin|Hout].
    + apply hasb_has in Hin. simpl. tauto.
    + assert (¬ Structure.has (StructureSelection.unionStructure selB) uid e).
      { intros Hin. by apply Hout, hasb_has. }
      simpl. tauto.
Qed.

Lemma C4_witness :
  ∃ sE cE sI cI,
    union (exceptBy
             (Sample.const (StructureSelection.Sequence Sample.twenty
                              [Structure.mk [Sample.atomic 0 [3; 7]]]))
             (Sample.const (StructureSelection.Sequence Sample.twenty
                              [Structure.mk [Sample.atomic 0 [7]]])))
      (QueryContext.create Sample.twenty 2) = (Ok sE, cE) ∧
    union (intersectBy
             (Sample.const (StructureSelection.Sequence Sample.twenty
                              [Structure.mk [Sample.atomic 0 [3; 7]]]))
             (Sample.const (StructureSelection.Sequence Sample.twenty
                              [Structure.mk [Sample.atomic 0 [7]]])))
      (QueryContext.create Sample.twenty 2) = (Ok sI, cI) ∧
    ∀ uid e,
      StructureSelection.has sE uid e ∨ StructureSelection.has sI uid e
      ↔ Structure.has
          (StructureSelection.unionStructure
             (StructureSelection.Sequence Sample.twenty
                [Structure.mk [Sample.atomic 0 [3; 7]]])) uid e.
Proof.
  apply (C4_partition_law_nonempty_by _ _
           (QueryContext.create Sample.twenty 2) (QueryContext.create Sample.twenty 2)
           (QueryContext.create Sample.twenty 2) _
           (StructureSelection.Sequence Sample.twenty [Structure.mk [Sample.atomic 0 [7]]])
           eq_refl eq_refl).
  - discriminate.
  - intros uid e (s & Hs & u & Hu & Hid & He).
    apply list_elem_of_singleton in Hs. subst s.
    apply list_elem_of_singleton in Hu. subst u.
    apply list_elem_of_singleton in He. subst e. simpl in Hid. subst uid.
    exists (Sample.atomic 0 (seq 0 10)). split; [elem_of_concrete|].
    split; [reflexivity|]. simpl. elem_of_concrete.
  - vm_compute. lia.
Defined.

(** C7: for a structure that the inner query of [wholeResidues] yields from
    the source, [getWholeResidues] returns (one deadline check per atomic
    unit allowed) a structure whose units answer those of the input one by
    one: a non-atomic unit is the same unit, and an atomic unit has an
    element exactly when the residue of that element, the range
    [offsets[i], offsets[i+1]), holds an element of the input unit.  With
    residues of five atoms, selecting the atoms 3 and 7 returns the atoms
    0 to 9. *)
Theorem C7_wholeResidues_expands_touched_residues :
  (∀ (source structure : Structure.t) (ctx : QueryContext.t),
     subStructure structure source →
     (∀ u, u ∈ Structure.units structure → monotonicOffsets u) →
     atomicUnits structure ≤ QueryContext.clock ctx →
     ∃ out ctx',
       getWholeResidues source structure ctx = (Ok out, ctx') ∧
       Forall2 wholeResiduesUnit (Structure.units structure) (Structure.units out))
  ∧
  wholeResidues
    (Sample.const (StructureSelection.Singletons Sample.twenty
                     (Structure.mk [Sample.atomic 0 [3; 7]])))
    (QueryContext.create Sample.twenty 1)
  = (Ok (StructureSelection.Singletons Sample.twenty
           (Structure.mk [Sample.atomic 0 [0; 1; 2; 3; 4; 5; 6; 7; 8; 9]])),
     QueryContext.create Sample.twenty 0).
Proof.
  split; [|vm_compute; reflexivity].
  intros source structure ctx Hsub Hmono Hclock.
  rewrite getWholeResidues_run, afterChecks_enough by done.
  eexists _, _. split; [reflexivity|].
  rewrite wholeResiduesOf_sub by done. simpl.
  apply Forall2_fmap_r, Forall_Forall2_diag, Forall_forall.
  intros u Hu. split.
  - intros Hk. unfold wholeResidueElements. rewrite decide_True by done.
    destruct (Hsub u Hu) as (p & _ & Hp). by rewrite Hp.
  - intros Hk. split; [done|]. intros e. simpl.
    apply elem_of_wholeResidueElements; [done|by apply Hmono].
Qed.

Lemma C7_witness :
  ∃ out ctx',
    getWholeResidues Sample.twenty (Structure.mk [Sample.atomic 1 [3; 7]])
      (QueryContext.create Sample.twenty 1) = (Ok out, ctx') ∧
    Forall2 wholeResiduesUnit [Sample.atomic 1 [3; 7]] (Structure.units out).
Proof.
  apply (proj1 C7_wholeResidues_expands_touched_residues Sample.twenty
           (Structure.mk [Sample.atomic 1 [3; 7]]) (QueryContext.create Sample.twenty 1)).
  - intros u Hu. apply list_elem_of_singleton in Hu. subst u.
    exists (Sample.atomic 1 (seq 0 10)). split; reflexivity.
  - intros u Hu. apply list_elem_of_singleton in Hu. subst u.
    unfold monotonicOffsets. simpl. repeat constructor.
  - vm_compute. lia.
Defined.

(** C8: residue expansion is idempotent: on a subset of the source, the
    expansion returns a structure (one deadline check per atomic unit
    allowed), and expanding that structure returns the same structure. *)
Theorem C8_wholeResidues_idempotent (source structure : Structure.t)
    (ctx : QueryContext.t) :
  subStructure structure source →
  (∀ u, u ∈ Structure.units structure → monotonicOffsets u) →
  atomicUnits structure ≤ QueryContext.clock ctx →
  ∃ whole ctx1,
    getWholeResidues source structure ctx = (Ok whole, ctx1) ∧
    ∀ ctx2, atomicUnits structure ≤ QueryContext.clock ctx2 →
      ∃ ctx3, getWholeResidues source whole ctx2 = (Ok whole, ctx3).
Proof.
  intros Hsub Hmono Hclock.
  rewrite getWholeResidues_run, afterChecks_enough by done.
  eexists _, _. split; [reflexivity|]. intros ctx2 Hclock2.
  rewrite getWholeResidues_run.
  rewrite wholeResiduesOf_sub by done.
  set (whole := Structure.mk _).
  assert (subStructure whole source) as Hsub'.
  { intros u' (u & -> & Hu)%list_elem_of_fmap.
    destruct (Hsub u Hu) as (p & Hp & Hchild). exists p. split; [done|].
    rewrite Hchild at 1. done. }
  assert (atomicUnits whole = atomicUnits structure) as Hat.
  { unfold atomicUnits, whole. simpl. apply atomicUnits_children. }
  rewrite afterChecks_enough by lia. eexists. f_equal. f_equal.
  rewrite wholeResiduesOf_sub by done. unfold whole. simpl. f_equal.
  rewrite <- list_fmap_compose. apply list_fmap_ext. intros i u Hiu. simpl.
  rewrite wholeResidueElements_idem; [done|].
  apply Hmono, list_elem_of_lookup. by exists i.
Qed.

Lemma C8_witness :
  ∃ whole ctx1,
    getWholeResidues Sample.twenty (Structure.mk [Sample.atomic 1 [3; 7]])
      (QueryContext.create Sample.twenty 1) = (Ok whole, ctx1) ∧
    ∀ ctx2, atomicUnits (Structure.mk [Sample.atomic 1 [3; 7]]) ≤ QueryContext.clock ctx2 →
      ∃ ctx3, getWholeResidues Sample.twenty whole ctx2 = (Ok whole, ctx3).
Proof.
  apply (C8_wholeResidues_idempotent Sample.twenty
           (Structure.mk [Sample.atomic 1 [3; 7]]) (QueryContext.create Sample.twenty 1)).
  - intros u Hu. apply list_elem_of_singleton in Hu. subst u.
    exists (Sample.atomic 1 (seq 0 10)). split; reflexivity.
  - intros u Hu. apply list_elem_of_singleton in Hu. subst u.
    unfold monotonicOffsets. simpl. repeat constructor.
  - vm_compute. lia.
Defined.

(** C3, as stated, fails: with the radius -1 [includeSurroundings] is not
    rejected, it queries the index and returns. *)
Lemma C3_counterexample : ¬ rejectsNegativeRadius SampleIndex.lookup3d.
Proof.
  intros Hreject.
  destruct (Hreject
              (Sample.const (StructureSelection.Singletons Sample.twenty
                               (Structure.mk [Sample.atomic 0 [3]])))
              (-1)%Z None (QueryContext.create Sample.twenty 5) eq_refl)
    as (err & ctx' & Hrun).
  vm_compute in Hrun. discriminate Hrun.
Qed.

(** C3, amended: [includeSurroundings] does not validate the radius.  For
    every radius, negative ones included, and any index, once the inner
    query has returned and the deadline allows the checks of the loops, the
    query returns a selection: it holds the surroundings of the structures
    of the inner selection, and, unless whole residues are asked for, its
    atoms are exactly the atoms the index reported for that radius around
    an atom of the inner selection, in so far as the input structure has
    their unit. *)
Theorem C3_includeSurroundings_does_not_validate_radius
    (lookup3d : Structure.t → Z → Z → Z → Z → list (nat * nat))
    (query : StructureQuery) (r : Z) (wholeResidues : option bool)
    (ctx ctx1 : QueryContext.t) (inner : StructureSelection.t) :
  query ctx = (Ok inner, ctx1) →
  sum_list (includeSurroundingsChecks lookup3d (QueryContext.inputStructure ctx1)
              (IncludeSurroundingsParams.mk r wholeResidues)
              <$> StructureSelection.structures inner) ≤ QueryContext.clock ctx1 →
  ∃ sel ctx',
    includeSurroundings lookup3d query (IncludeSurroundingsParams.mk r wholeResidues) ctx
    = (Ok sel, ctx') ∧
    (∀ uid e,
       StructureSelection.has sel uid e ↔
       ∃ s, s ∈ StructureSelection.structures inner ∧
            Structure.has (includeSurroundingsOf lookup3d (QueryContext.inputStructure ctx1)
                             (IncludeSurroundingsParams.mk r wholeResidues) s) uid e) ∧
    (default false wholeResidues = false →
     ∀ uid e,
       StructureSelection.has sel uid e ↔
       (∃ s, s ∈ StructureSelection.structures inner ∧
             reported lookup3d (QueryContext.inputStructure ctx1) r s uid e) ∧
       is_Some (Structure.unitMap_get (QueryContext.inputStructure ctx1) uid)).
Proof.
  intros Hq Hclock.
  pose proof (includeSurroundings_run lookup3d query
                (IncludeSurroundingsParams.mk r wholeResidues) ctx inner ctx1 Hq) as Hrun.
  rewrite afterChecks_enough in Hrun by done.
  eexists _, _. split; [exact Hrun|].
  pose proof (λ uid e, includeSurroundings_has lookup3d _ _ _ _ _ _ _ uid e Hq Hrun) as Hhas.
  split; [exact Hhas|]. intros Hwr uid e. rewrite Hhas.
  unfold includeSurroundingsOf. simpl. rewrite Hwr. split.
  - intros (s & Hs & [Hrep Hsome]%surroundingsOf_has). split; [by exists s|done].
  - intros [(s & Hs & Hrep) Hsome]. exists s. split; [done|].
    by apply surroundingsOf_has.
Qed.

Lemma C3_witness :
  ∃ sel ctx',
    includeSurroundings SampleIndex.lookup3d
      (Sample.const (StructureSelection.Singletons Sample.twenty
                       (Structure.mk [Sample.atomic 0 [3]])))
      (IncludeSurroundingsParams.mk (-1)%Z None) (QueryContext.create Sample.twenty 5)
    = (Ok sel, ctx').
Proof.
  destruct (C3_includeSurroundings_does_not_validate_radius SampleIndex.lookup3d
              (Sample.const (StructureSelection.Singletons Sample.twenty
                               (Structure.mk [Sample.atomic 0 [3]])))
              (-1)%Z None (QueryContext.create Sample.twenty 5)
              (QueryContext.create Sample.twenty 5)
              (StructureSelection.Singletons Sample.twenty
                 (Structure.mk [Sample.atomic 0 [3]]))
              eq_refl ltac:(vm_compute; lia))
    as (sel & ctx' & Hrun & _).
  by exists sel, ctx'.
Defined.

(** C6: for a subset of the source and a radius that is not negative, when
    the index reports the atom at the centre of every ball, the structure
    [getIncludeSurroundings] returns (given a deadline that allows the
    checks of its loops) has every atom of the subset; when whole residues
    are asked for, the units of the subset are to satisfy the invariant of
    the segmentation.  So the surroundings of radius 0 of one atom hold that
    atom. *)
Theorem C6_includeSurroundings_superset
    (lookup3d : Structure.t → Z → Z → Z → Z → list (nat * nat))
    (source structure : Structure.t) (params : IncludeSurroundingsParams.t) :
  (0 ≤ IncludeSurroundingsParams.radius params)%Z →
  subStructure structure source →
  selfHits lookup3d source (IncludeSurroundingsParams.radius params) structure →
  (IncludeSurroundingsParams.wholeResidues params = Some true →
   ∀ u, u ∈ Structure.units structure → monotonicOffsets u ∧ coveredByResidues u) →
  ∃ fuel, ∀ ctx, fuel ≤ QueryContext.clock ctx →
    ∃ out ctx',
      getIncludeSurroundings lookup3d source structure params ctx = (Ok out, ctx') ∧
      ∀ uid e, Structure.has structure uid e → Structure.has out uid e.
Proof.
  intros _ Hsub Hself Hseg.
  exists (includeSurroundingsChecks lookup3d source params structure). intros ctx Hclock.
  rewrite getIncludeSurroundings_run, afterChecks_enough by done.
  eexists _, _. split; [reflexivity|]. intros uid e (u & Hu & Hid & He).
  set (r := IncludeSurroundingsParams.radius params).
  destruct (Hsub u Hu) as (p & Hp & Hchild).
  assert (Structure.has (surroundingsOf lookup3d source r structure) uid e) as Hsurr.
  { apply surroundingsOf_has. split.
    - exists u, e. subst uid. split; [done|]. split; [done|]. by apply Hself.
    - subst uid. by eexists. }
  unfold includeSurroundingsOf. fold r.
  destruct (IncludeSurroundingsParams.wholeResidues params) as [[|]|] eqn:Hwr;
    simpl; try done.
  rewrite wholeResiduesOf_sub by apply surroundingsOf_sub.
  destruct Hsurr as (v & Hv & Hvid & Hve).
  exists (Unit.getChild v (wholeResidueElements v)).
  split; [apply list_elem_of_fmap; by exists v|]. split; [done|]. simpl.
  destruct (surroundingsOf_sub lookup3d source r structure v Hv) as (q & Hq & Hvq).
  assert (q = p) as -> by (rewrite Hvid, <- Hid, Hp in Hq; congruence).
  destruct (Hseg eq_refl u Hu) as [Hmono Hcov].
  assert (Unit.model v = Unit.model u) as Hmodel by (by rewrite Hvq, Hchild).
  assert (Unit.kind v = Unit.kind u) as Hkind by (by rewrite Hvq, Hchild).
  destruct (decide (Unit.kind v = Unit.Atomic)) as [Hk|Hk].
  - apply elem_of_wholeResidueElements; [done| |].
    + unfold monotonicOffsets. by rewrite Hmodel.
    + destruct (Hcov e He) as (rI & Hr).
      assert (inResidue v rI e) as Hr' by (unfold inResidue; by rewrite Hmodel).
      exists rI. split; [done|]. by exists e.
  - unfold wholeResidueElements. by rewrite decide_True.
Qed.

(** The surroundings of radius 0 of the atom 3 hold the atom 3. *)
Lemma C6_witness :
  ∃ fuel, ∀ ctx, fuel ≤ QueryContext.clock ctx →
    ∃ out ctx',
      getIncludeSurroundings SampleIndex.lookup3d Sample.twenty
        (Structure.mk [Sample.atomic 0 [3]])
        (IncludeSurroundingsParams.mk 0%Z (Some true)) ctx = (Ok out, ctx') ∧
      ∀ uid e, Structure.has (Structure.mk [Sample.atomic 0 [3]]) uid e →
               Structure.has out uid e.
Proof.
  apply (C6_includeSurroundings_superset SampleIndex.lookup3d Sample.twenty
           (Structure.mk [Sample.atomic 0 [3]])
           (IncludeSurroundingsParams.mk 0%Z (Some true))).
  - simpl. lia.
  - intros u Hu. apply list_elem_of_singleton in Hu. subst u.
    exists (Sample.atomic 0 (seq 0 10)). split; reflexivity.
  - intros u e Hu He. apply list_elem_of_singleton in Hu. subst u.
    apply list_elem_of_singleton in He. subst e. vm_compute. elem_of_concrete.
  - intros _ u Hu. apply list_elem_of_singleton in Hu. subst u. split.
    + unfold monotonicOffsets. simpl. repeat constructor.
    + intros e He. apply list_elem_of_singleton in He. subst e.
      exists 0, 0, 5. simpl. repeat split; lia.
Defined.

(** C2, as stated, fails: a timeout of the first pass of [expandProperty]
    leaves the cursor pushed, and a timeout raised inside the inner query
    of [querySelection] leaves the structure pushed. *)
Lemma C2_counterexample :
  ¬ restoresOnTimeout (expandProperty SampleScope.firstOnly SampleScope.constant) ∧
  ¬ restoresOnTimeout (querySelection SampleScope.all (wholeResidues SampleScope.all)).
Proof.
  split.
  - intros Hrestore.
    destruct (Hrestore (QueryContext.create SampleScope.two 0) _ eq_refl)
      as (_ & _ & _ & Hstack).
    vm_compute in Hstack. discriminate Hstack.
  - intros Hrestore.
    destruct (Hrestore (QueryContext.create SampleScope.two 0) _ eq_refl)
      as (_ & Hstack & _).
    vm_compute in Hstack. discriminate Hstack.
Qed.

(** C2, amended: an error is propagated at once, no restoration is run.
    In [querySelection] the deadline is checked after the pop, so around an
    inner query that returns and leaves the scoped state in place, a
    timeout (the only error then) leaves input structure, stacks and cursor
    as the outer query left them; an error raised inside the inner query
    comes out with the context of the throw, the structure still pushed.
    [expandProperty] restores the cursor when it returns, and a timeout
    leaves the saved cursor on the cursor stack. *)
Theorem C2_timeout_runs_no_restoration :
  (∀ (selection query : StructureQuery) ctx targetSel ctx1 r ctx',
     selection ctx = (Ok targetSel, ctx1) →
     (∀ c, ∃ sel c', query c = (Ok sel, c') ∧ sameScope c c') →
     querySelection selection query ctx = (r, ctx') →
     sameScope ctx1 ctx' ∧ ∀ e, r = Err e → e = TimedOut)
  ∧
  (∀ (selection query : StructureQuery) ctx targetSel ctx1 s rest e c',
     selection ctx = (Ok targetSel, ctx1) →
     StructureSelection.structures targetSel = s :: rest →
     query (pushInputStructure s ctx1).2 = (Err e, c') →
     querySelection selection query ctx = (Err e, c'))
  ∧
  (∀ (P : Type) `{Countable P} (query : StructureQuery) (property : QueryFn P)
     ctx src ctx1 r ctx',
     query ctx = (Ok src, ctx1) →
     expandProperty query property ctx = (r, ctx') →
     (∀ sel, r = Ok sel → sameScope ctx1 ctx') ∧
     (r = Err TimedOut →
        QueryContext.inputStructure ctx' = QueryContext.inputStructure ctx1 ∧
        QueryContext.inputStructureStack ctx' = QueryContext.inputStructureStack ctx1 ∧
        QueryContext.currentElementStack ctx' =
          QueryContext.element ctx1 :: QueryContext.currentElementStack ctx1)).
Proof.
  split; [|split].
  - intros. by eapply querySelection_sameScope.
  - intros. by eapply querySelection_inner_error.
  - intros. by eapply expandProperty_outcome.
Qed.

(** The timeout of [expandProperty] over the sample leaves the cursor stack
    one deeper. *)
Lemma C2_witness :
  QueryContext.currentElementStack
    (expandProperty SampleScope.firstOnly SampleScope.constant
       (QueryContext.create SampleScope.two 0)).2
  = [StructureElement.create].
Proof.
  exact (proj2 (proj2
    (proj2 (proj2 (proj2 C2_timeout_runs_no_restoration)
              nat _ _ SampleScope.firstOnly SampleScope.constant
              (QueryContext.create SampleScope.two 0) _
              (QueryContext.create SampleScope.two 0)
              (expandProperty SampleScope.firstOnly SampleScope.constant
                 (QueryContext.create SampleScope.two 0)).1
              (expandProperty SampleScope.firstOnly SampleScope.constant
                 (QueryContext.create SampleScope.two 0)).2
              eq_refl eq_refl) eq_refl))).
Defined.

(** C10, as stated, fails: no bound holds for the second pass of
    [expandProperty], which never checks the deadline, nor for
    [getWholeResidues] over non-atomic units, which are copied without a
    check: with the deadline over, both get through structures of any
    number of units. *)
Lemma C10_counterexample :
  ¬ boundedStride (λ s, expandProperty
                          (Sample.const (StructureSelection.Empty s))
                          SampleScope.constant) ∧
  ¬ boundedStride (λ s, getWholeResidues s s).
Proof.
  split.
  - intros (k & Hk).
    set (s := Structure.mk (replicate k (Sample.atomic 0 [0]))).
    destruct (Hk s (QueryContext.create s 0)) as (e & ctx' & Hrun);
      [unfold s; simpl; by rewrite length_replicate|done|done|].
    revert Hrun. unfold expandProperty. unfold bind at 1. unfold Sample.const at 1.
    unfold ret at 1. unfold bind at 1, pushCurrentElement at 1.
    unfold bind at 1. unfold forEach. simpl forIndexedFrom. unfold ret at 1.
    unfold bind at 1, getInputStructure at 1. unfold bind at 1. simpl fst. simpl snd.
    match goal with |- context [expandProperty_collect ?p ∅ ?i ?b ?c] =>
      destruct (expandProperty_collect_unclaimed p i b c) as (c3 & ->) end.
    by vm_compute.
  - intros (k & Hk).
    set (s := Structure.mk (replicate k (Sample.coarse 0 [0]))).
    destruct (Hk s (QueryContext.create s 0)) as (e & ctx' & Hrun);
      [unfold s; simpl; by rewrite length_replicate|done|done|].
    rewrite getWholeResidues_run in Hrun.
    assert (atomicUnits s = 0) as Hat.
    { unfold atomicUnits, s. simpl. clear. induction k as [|k IH]; [done|].
      simpl. by rewrite filter_cons_False. }
    rewrite Hat, afterChecks_0 in Hrun. discriminate Hrun.
Qed.

(** C10, amended: the loops that check the deadline do so at a bounded
    stride.  With the deadline over, [getWholeResidues] is aborted at the
    first atomic unit and [getIncludeSurroundings] at the first unit; from
    any index on, the loops of [intersectBy] and [exceptBy] are aborted
    within 50 structures, the first pass of [expandProperty] within 10,
    and the loop of [querySelection] within 10 (around an inner query that
    does not turn back the clock it ends in an error, the timeout or one of
    the inner query). *)
Theorem C10_deadline_checked_at_bounded_stride :
  (∀ us b ctx,
     QueryContext.clock ctx = 0 →
     (∃ u, u ∈ us ∧ Unit.kind u = Unit.Atomic) →
     ∃ ctx', forOf us b getWholeResidues_unit ctx = (Err TimedOut, ctx'))
  ∧
  (∀ lookup3d source r us b ctx,
     QueryContext.clock ctx = 0 → 1 ≤ length us →
     ∃ ctx', forOf us b (getIncludeSurroundings_unit lookup3d source r) ctx
             = (Err TimedOut, ctx'))
  ∧
  (∀ unionBy l sI acc ctx,
     QueryContext.clock ctx = 0 → 50 ≤ length l →
     (∃ ctx', forIndexedFrom sI l acc (intersectBy_each unionBy) ctx = (Err TimedOut, ctx')) ∧
     (∃ ctx', forIndexedFrom sI l acc (exceptBy_each unionBy) ctx = (Err TimedOut, ctx')))
  ∧
  (∀ (P : Type) `{Countable P} (property : QueryFn P) l sI st ctx,
     QueryContext.clock ctx = 0 → 10 ≤ length l →
     ∃ ctx', forIndexedFrom sI l st (expandProperty_each property) ctx
             = (Err TimedOut, ctx'))
  ∧
  (∀ (query : StructureQuery) l sI acc ctx,
     clockMonotone query →
     QueryContext.clock ctx = 0 → 10 ≤ length l →
     ∃ e ctx', forIndexedFrom sI l acc (querySelection_each query) ctx = (Err e, ctx')).
Proof.
  split; [|split; [|split; [|split]]].
  - intros us b ctx Hc (u & Hu & Hk).
    destruct (getWholeResidues_loop us b ctx) as (b' & -> & _).
    rewrite afterChecks_expired; [by eexists|]. rewrite Hc.
    assert (u ∈ filter (λ u, Unit.kind u = Unit.Atomic) us) as Hin
      by (by apply list_elem_of_filter).
    destruct (filter _ us); [by apply elem_of_nil in Hin|simpl; lia].
  - intros lookup3d source r us b ctx Hc Hlen.
    exists (setClock ctx 0).
    etrans; [exact (checked_loop_run (surroundUnit lookup3d source r) us b ctx)|].
    apply afterChecks_expired. lia.
  - intros unionBy l sI acc ctx Hc Hlen. split.
    + destruct (stride_abort 50 (λ e, e = TimedOut) (intersectBy_each unionBy)
                  (λ acc x sI c r c', intersectBy_each_stride unionBy acc x sI c r c')
                  l sI acc ctx Hc (multiple_in_window 50 sI _ ltac:(lia) Hlen))
        as (e & ctx' & Hrun & ->). by eexists.
    + destruct (stride_abort 50 (λ e, e = TimedOut) (exceptBy_each unionBy)
                  (λ acc x sI c r c', exceptBy_each_stride unionBy acc x sI c r c')
                  l sI acc ctx Hc (multiple_in_window 50 sI _ ltac:(lia) Hlen))
        as (e & ctx' & Hrun & ->). by eexists.
  - intros P ? ? property l sI st ctx Hc Hlen.
    destruct (stride_abort 10 (λ e, e = TimedOut) (expandProperty_each property)
                (λ acc x sI c r c', expandProperty_each_stride property acc x sI c r c')
                l sI st ctx Hc (multiple_in_window 10 sI _ ltac:(lia) Hlen))
      as (e & ctx' & Hrun & ->). by eexists.
  - intros query l sI acc ctx Hmono Hc Hlen.
    destruct (stride_abort 10 (λ _, True) (querySelection_each query)
                (λ acc x sI c r c', querySelection_each_stride query acc x sI c r c' Hmono)
                l sI acc ctx Hc (multiple_in_window 10 sI _ ltac:(lia) Hlen))
      as (e & ctx' & Hrun & _). by eexists _, _.
Qed.

(** Fifty structures from the index 7 on: the loop of [intersectBy] is
    aborted. *)
Lemma C10_witness :
  ∃ ctx',
    forIndexedFrom 7 (replicate 50 SampleScope.two)
      (StructureSelection.UniqueBuilder SampleScope.two)
      (intersectBy_each SampleScope.two) (QueryContext.create SampleScope.two 0)
    = (Err TimedOut, ctx').
Proof.
  apply (proj1 (proj2 (proj2 C10_deadline_checked_at_bounded_stride))
           SampleScope.two (replicate 50 SampleScope.two) 7
           (StructureSelection.UniqueBuilder SampleScope.two)
           (QueryContext.create SampleScope.two 0)).
  - reflexivity.
  - rewrite length_replicate. lia.
Defined.

(** C1 (where the code departs from the claim): the second pass of
    [expandProperty] picks the builder by the position of the atom in its
    unit, [indices[i]], not by the claiming indices.  Two structures of one
    atom each claim the one value of a constant property; each output
    structure should hold both atoms and holds one; and with one structure
    the atom at position 1 finds no index and the TypeError is raised. *)
Theorem C1_expandProperty_indexes_by_atom_position :
  (expandProperty SampleScope.each SampleScope.constant
     (QueryContext.create SampleScope.two 5)).1
  = Ok (StructureSelection.Sequence SampleScope.two
          [SampleScope.first; SampleScope.second])
  ∧
  (expandProperty SampleScope.firstOnly SampleScope.constant
     (QueryContext.create SampleScope.two 5)).1
  = Err TypeError.
Proof. split; vm_compute; reflexivity. Qed.

(** * Further properties of the modifiers *)

Section SetAlgebraMore.

Implicit Types (A B : StructureQuery) (ctx : QueryContext.t).

Lemma foldl_intersectBy_nonempty U l bd :
  (∀ s, s ∈ StructureSelection.builderStructures bd → Structure.elementCount s ≠ 0) →
  ∀ s, s ∈ StructureSelection.builderStructures (foldl (intersectBy_add U) bd l) →
       Structure.elementCount s ≠ 0.
Proof.
  revert bd. induction l as [|x l IH]; intros bd Hbd; simpl; [done|].
  apply IH. unfold intersectBy_add. case_decide as Hc; [|done].
  intros s [Hs| ->]%uniqueAdd_in; [by apply Hbd|done].
Qed.

Lemma foldl_exceptBy_nonempty U l bd :
  (∀ s, s ∈ StructureSelection.builderStructures bd → Structure.elementCount s ≠ 0) →
  ∀ s, s ∈ StructureSelection.builderStructures (foldl (exceptBy_add U) bd l) →
       Structure.elementCount s ≠ 0.
Proof.
  revert bd. induction l as [|x l IH]; intros bd Hbd; simpl; [done|].
  apply IH. unfold exceptBy_add. case_decide as Hc; [|done].
  intros s [Hs| ->]%uniqueAdd_in; [by apply Hbd|done].
Qed.

Lemma uniqueAdd_length bd s :
  length (StructureSelection.builderStructures (StructureSelection.uniqueAdd bd s))
  ≤ S (length (StructureSelection.builderStructures bd)).
Proof.
  unfold StructureSelection.uniqueAdd. destruct (existsb _ _); simpl; [lia|].
  rewrite length_app. simpl. lia.
Qed.

Lemma foldl_intersectBy_length U l bd :
  length (StructureSelection.builderStructures (foldl (intersectBy_add U) bd l))
  ≤ length (StructureSelection.builderStructures bd) + length l.
Proof.
  revert bd. induction l as [|x l IH]; intros bd; simpl; [lia|].
  etrans; [apply IH|]. unfold intersectBy_add. case_decide; [|lia].
  pose proof (uniqueAdd_length bd (structureIntersect U x)). lia.
Qed.

Lemma foldl_exceptBy_length U l bd :
  length (StructureSelection.builderStructures (foldl (exceptBy_add U) bd l))
  ≤ length (StructureSelection.builderStructures bd) + length l.
Proof.
  revert bd. induction l as [|x l IH]; intros bd; simpl; [lia|].
  etrans; [apply IH|]. unfold exceptBy_add. case_decide; [|lia].
  pose proof (uniqueAdd_length bd (structureSubtract x U)). lia.
Qed.

End SetAlgebraMore.

(** X1: [intersectBy] returns exactly the common atoms: when both queries
    return and the deadline allows the checks of the loop, an atom is in a
    structure of the result if and only if it is in a structure of the
    result of [A] and in a structure of the result of [B]. *)
Theorem X1_intersectBy_exact_atoms (A B : StructureQuery)
    (ctx ctx1 ctx2 : QueryContext.t) (selA selB : StructureSelection.t) :
  A ctx = (Ok selA, ctx1) →
  B ctx1 = (Ok selB, ctx2) →
  checks 50 0 (StructureSelection.structureCount selA) ≤ QueryContext.clock ctx2 →
  ∃ res ctx',
    intersectBy A B ctx = (Ok res, ctx') ∧
    ∀ uid e, StructureSelection.has res uid e ↔
             StructureSelection.has selA uid e ∧ StructureSelection.has selB uid e.
Proof.
  intros HA HB Hclock. rewrite (intersectBy_run _ _ _ _ _ HA), HB.
  destruct (decide (StructureSelection.structureCount selA = 0)) as [Ha|Ha].
  { eexists _, _. split; [reflexivity|]. intros uid e.
    pose proof (has_no_structures selA uid e Ha). tauto. }
  destruct (decide (StructureSelection.structureCount selB = 0)) as [Hb|Hb].
  { eexists _, _. split; [reflexivity|]. intros uid e.
    pose proof (has_no_structures selB uid e Hb).
    pose proof (has_no_structures
                  (StructureSelection.Empty (QueryContext.inputStructure ctx2)) uid e eq_refl).
    tauto. }
  rewrite afterChecks_enough by done. eexists _, _. split; [reflexivity|]. intros uid e.
  rewrite getSelection_has, foldl_intersectBy_has, unionStructure_has.
  change (StructureSelection.has selA uid e)
    with (anyHas (StructureSelection.structures selA) uid e).
  pose proof (anyHas_nil uid e). simpl. tauto.
Qed.

Lemma X1_witness :
  ∃ res ctx',
    intersectBy SampleScope.each SampleScope.firstOnly (QueryContext.create SampleScope.two 1)
    = (Ok res, ctx') ∧
    ∀ uid e, StructureSelection.has res uid e ↔
             StructureSelection.has
               (StructureSelection.Sequence SampleScope.two
                  [SampleScope.first; SampleScope.second]) uid e ∧
             StructureSelection.has
               (StructureSelection.Sequence SampleScope.two [SampleScope.first]) uid e.
Proof.
  apply (X1_intersectBy_exact_atoms SampleScope.each SampleScope.firstOnly
           (QueryContext.create SampleScope.two 1) (QueryContext.create SampleScope.two 1)
           (QueryContext.create SampleScope.two 1) _ _ eq_refl eq_refl).
  vm_compute. lia.
Defined.

(** X2: [exceptBy] returns exactly the atoms of [A] that [B] does not have,
    provided the result of [B] has at least one structure (with none, the
    result is empty whatever [A] selects). *)
Theorem X2_exceptBy_exact_atoms (A B : StructureQuery)
    (ctx ctx1 ctx2 : QueryContext.t) (selA selB : StructureSelection.t) :
  A ctx = (Ok selA, ctx1) →
  B ctx1 = (Ok selB, ctx2) →
  StructureSelection.structureCount selB ≠ 0 →
  checks 50 0 (StructureSelection.structureCount selA) ≤ QueryContext.clock ctx2 →
  ∃ res ctx',
    exceptBy A B ctx = (Ok res, ctx') ∧
    ∀ uid e, StructureSelection.has res uid e ↔
             StructureSelection.has selA uid e ∧ ¬ StructureSelection.has selB uid e.
Proof.
  intros HA HB Hb Hclock. rewrite (exceptBy_run _ _ _ _ _ HA), HB.
  destruct (decide (StructureSelection.structureCount selA = 0)) as [Ha|Ha].
  { eexists _, _. split; [reflexivity|]. intros uid e.
    pose proof (has_no_structures selA uid e Ha). tauto. }
  rewrite decide_False by done.
  rewrite afterChecks_enough by done. eexists _, _. split; [reflexivity|]. intros uid e.
  rewrite getSelection_has, foldl_exceptBy_has, unionStructure_has.
  change (StructureSelection.has selA uid e)
    with (anyHas (StructureSelection.structures selA) uid e).
  pose proof (anyHas_nil uid e). simpl. tauto.
Qed.

Lemma X2_witness :
  ∃ res ctx',
    exceptBy SampleScope.each SampleScope.firstOnly (QueryContext.create SampleScope.two 1)
    = (Ok res, ctx') ∧
    ∀ uid e, StructureSelection.has res uid e ↔
             StructureSelection.has
               (StructureSelection.Sequence SampleScope.two
                  [SampleScope.first; SampleScope.second]) uid e ∧
             ¬ StructureSelection.has
                 (StructureSelection.Sequence SampleScope.two [SampleScope.first]) uid e.
Proof.
  apply (X2_exceptBy_exact_atoms SampleScope.each SampleScope.firstOnly
           (QueryContext.create SampleScope.two 1) (QueryContext.create SampleScope.two 1)
           (QueryContext.create SampleScope.two 1) _ _ eq_refl eq_refl).
  - discriminate.
  - vm_compute. lia.
Defined.

(** X3: [intersectBy] and [exceptBy] keep no empty structure and return at
    most as many structures as the first query yields. *)
Theorem X3_set_algebra_results_nonempty_and_bounded (A B : StructureQuery)
    (ctx ctx1 ctx' : QueryContext.t) (selA res : StructureSelection.t) :
  A ctx = (Ok selA, ctx1) →
  intersectBy A B ctx = (Ok res, ctx') ∨ exceptBy A B ctx = (Ok res, ctx') →
  (∀ s, s ∈ StructureSelection.structures res → Structure.elementCount s ≠ 0) ∧
  StructureSelection.structureCount res ≤ StructureSelection.structureCount selA.
Proof.
  intros HA. rewrite (intersectBy_run _ _ _ _ _ HA), (exceptBy_run _ _ _ _ _ HA).
  destruct (decide (StructureSelection.structureCount selA = 0)) as [Ha|Ha].
  { intros [[= <- <-]|[= <- <-]]; (split; [|done]); intros s Hs;
      unfold StructureSelection.structureCount in Ha; apply nil_length_inv in Ha;
      rewrite Ha in Hs; by apply elem_of_nil in Hs. }
  destruct (B ctx1) as [[selB|err] ctx2]; [|by intros [|]].
  destruct (decide (StructureSelection.structureCount selB = 0)) as [Hb|Hb].
  { intros [[= <- <-]|[= <- <-]];
      (split; [|unfold StructureSelection.structureCount; simpl; lia]); intros s Hs;
      by apply elem_of_nil in Hs. }
  intros [(-> & _ & _)%afterChecks_Ok|(-> & _ & _)%afterChecks_Ok].
  - split.
    + apply foldl_intersectBy_nonempty. by intros s ?%elem_of_nil.
    + unfold StructureSelection.structureCount at 1. simpl.
      etrans; [apply foldl_intersectBy_length|]. done.
  - split.
    + apply foldl_exceptBy_nonempty. by intros s ?%elem_of_nil.
    + unfold StructureSelection.structureCount at 1. simpl.
      etrans; [apply foldl_exceptBy_length|]. done.
Qed.

Lemma X3_witness :
  (∀ s, s ∈ [SampleScope.second] → Structure.elementCount s ≠ 0) ∧
  StructureSelection.structureCount
    (StructureSelection.Sequence SampleScope.two [SampleScope.second])
  ≤ StructureSelection.structureCount
      (StructureSelection.Sequence SampleScope.two [SampleScope.first; SampleScope.second]).
Proof.
  apply (X3_set_algebra_results_nonempty_and_bounded
           SampleScope.each SampleScope.firstOnly
           (QueryContext.create SampleScope.two 1) (QueryContext.create SampleScope.two 1)
           (QueryContext.create SampleScope.two 0) _
           (StructureSelection.Sequence SampleScope.two [SampleScope.second]) eq_refl).
  right. vm_compute. reflexivity.
Defined.

Section CheckCount.

Lemma checks_none k i n :
  (∀ j, i ≤ j < i + n → j `mod` k ≠ 0) → checks k i n = 0.
Proof.
  revert i. induction n as [|n IH]; intros i Hno; [done|].
  rewrite checks_S, decide_False by (apply Hno; lia).
  rewrite IH; [done|]. intros j Hj. apply Hno. lia.
Qed.

Lemma checks_shift k i n : checks k (i + k) n = checks k i n.
Proof.
  revert i. induction n as [|n IH]; intros i; [done|].
  rewrite !checks_S. change (S (i + k)) with (S i + k). rewrite IH.
  destruct (decide (k = 0)) as [->|Hk].
  - by rewrite Nat.add_0_r.
  - rewrite <- (Nat.Div0.add_mod_idemp_r i k k), Nat.Div0.mod_same, Nat.add_0_r. done.
Qed.

Lemma checks_app k i n m : checks k i (n + m) = checks k i n + checks k (i + n) m.
Proof.
  unfold checks. by rewrite seq_app, filter_app, length_app.
Qed.

Lemma checks_first_block k n : 0 < n → n ≤ k → checks k 0 n = 1.
Proof.
  intros Hn Hk. destruct n as [|n]; [lia|].
  rewrite checks_S, decide_True by (by apply Nat.Div0.mod_0_l).
  rewrite checks_none; [done|]. intros j Hj. rewrite Nat.mod_small by lia. lia.
Qed.

(** A loop over [n] items that checks the deadline at the indices divisible
    by [k] makes [n / k], rounded up, checks. *)
Lemma checks_closed_form k n : 0 < k → checks k 0 n = (n + k - 1) `div` k.
Proof.
  intros Hk. induction n as [n IH] using lt_wf_ind.
  destruct (decide (n = 0)) as [->|Hn].
  - simpl. rewrite Nat.div_small by lia. done.
  - destruct (decide (n ≤ k)) as [Hle|Hgt].
    + rewrite checks_first_block by lia.
      replace (n + k - 1) with (1 * k + (n - 1)) by lia.
      rewrite Nat.div_add_l by lia. rewrite Nat.div_small by lia. done.
    + replace n with (k + (n - k)) at 1 by lia.
      rewrite checks_app, checks_first_block by lia.
      rewrite (checks_shift k 0 (n - k)), IH by lia.
      replace (n + k - 1) with (1 * k + (n - k + k - 1)) by lia.
      by rewrite Nat.div_add_l by lia.
Qed.

End CheckCount.

(** X4: the deadline decides [intersectBy] and [exceptBy] by a count: over a
    selection of [n] structures (and a [by] result that is not empty) the
    loop makes [n / 50], rounded up, checks; the combinator returns, with
    the clock lowered by that number, when the deadline allows that many
    checks, and ends in the timeout otherwise. *)
Theorem X4_set_algebra_deadline_cost (A B : StructureQuery)
    (ctx ctx1 ctx2 : QueryContext.t) (selA selB : StructureSelection.t) :
  A ctx = (Ok selA, ctx1) →
  B ctx1 = (Ok selB, ctx2) →
  StructureSelection.structureCount selA ≠ 0 →
  StructureSelection.structureCount selB ≠ 0 →
  let cost := (StructureSelection.structureCount selA + 49) `div` 50 in
  (cost ≤ QueryContext.clock ctx2 →
     (∃ res, intersectBy A B ctx
             = (Ok res, setClock ctx2 (QueryContext.clock ctx2 - cost))) ∧
     (∃ res, exceptBy A B ctx
             = (Ok res, setClock ctx2 (QueryContext.clock ctx2 - cost))))
  ∧
  (QueryContext.clock ctx2 < cost →
     intersectBy A B ctx = (Err TimedOut, setClock ctx2 0) ∧
     exceptBy A B ctx = (Err TimedOut, setClock ctx2 0)).
Proof.
  intros HA HB Ha Hb cost.
  rewrite (intersectBy_run _ _ _ _ _ HA), (exceptBy_run _ _ _ _ _ HA), HB.
  rewrite !decide_False by done.
  rewrite (checks_closed_form 50) by lia.
  replace (StructureSelection.structureCount selA + 50 - 1)
    with (StructureSelection.structureCount selA + 49) by lia.
  fold cost. split.
  - intros Hc. rewrite !afterChecks_enough by done. split; by eexists.
  - intros Hc. rewrite !afterChecks_expired by done. done.
Qed.

Lemma X4_witness :
  intersectBy (Sample.const (StructureSelection.Sequence SampleScope.two
                               (replicate 51 SampleScope.first)))
    SampleScope.firstOnly (QueryContext.create SampleScope.two 1)
  = (Err TimedOut, QueryContext.create SampleScope.two 0).
Proof.
  apply (X4_set_algebra_deadline_cost
           (Sample.const (StructureSelection.Sequence SampleScope.two
                            (replicate 51 SampleScope.first)))
           SampleScope.firstOnly
           (QueryContext.create SampleScope.two 1) (QueryContext.create SampleScope.two 1)
           (QueryContext.create SampleScope.two 1) _ _ eq_refl eq_refl).
  - discriminate.
  - discriminate.
  - vm_compute. lia.
Defined.

(** X5: [union] returns one structure, associated with the input structure
    read before the query is run, that has exactly the atoms of the
    structures the query yields; it checks no deadline and passes an error
    of the query on. *)
Theorem X5_union_keeps_the_atoms (query : StructureQuery) (ctx ctx1 : QueryContext.t) :
  (∀ sel, query ctx = (Ok sel, ctx1) →
     ∃ u, union query ctx
          = (Ok (StructureSelection.Sequence (QueryContext.inputStructure ctx) [u]), ctx1) ∧
          ∀ uid e, Structure.has u uid e ↔ StructureSelection.has sel uid e)
  ∧
  (∀ err, query ctx = (Err err, ctx1) → union query ctx = (Err err, ctx1)).
Proof.
  split.
  - intros sel Hq. rewrite union_run, Hq. eexists. split; [reflexivity|].
    intros uid e. apply unionStructure_has.
  - intros err Hq. by rewrite union_run, Hq.
Qed.

Lemma X5_witness :
  ∃ u, union SampleScope.each (QueryContext.create SampleScope.two 0)
       = (Ok (StructureSelection.Sequence SampleScope.two [u]),
          QueryContext.create SampleScope.two 0) ∧
       ∀ uid e, Structure.has u uid e ↔
                StructureSelection.has
                  (StructureSelection.Sequence SampleScope.two
                     [SampleScope.first; SampleScope.second]) uid e.
Proof.
  exact (proj1 (X5_union_keeps_the_atoms SampleScope.each
                  (QueryContext.create SampleScope.two 0)
                  (QueryContext.create SampleScope.two 0)) _ eq_refl).
Defined.

Section QuerySelectionMerge.

Lemma forIndexedFrom_ext {A B} (body body' : B → A → nat → M B) i l acc c :
  (∀ acc x i c, body acc x i c = body' acc x i c) →
  forIndexedFrom i l acc body c = forIndexedFrom i l acc body' c.
Proof.
  intros Hext. revert i acc c. induction l as [|x l IH]; intros i acc c; simpl; [done|].
  unfold bind. rewrite Hext. destruct (body' acc x i c) as [[acc'|e] c1]; [apply IH|done].
Qed.

(** A round of [querySelection] around a query that reads the input
    structure: the structure is pushed, the query sees it, and the pop
    gives the context back. *)
Lemma querySelection_each_readsInput f acc s sI c :
  querySelection_each (readsInput f) acc s sI c
  = (let* _ := (if decide (sI `mod` 10 = 0) then throwIfTimedOut else ret ()) in
     ret (foldl StructureSelection.uniqueAdd acc (StructureSelection.structures (f s)))) c.
Proof. by destruct c. Qed.

Lemma foldl_merge_has (f : Structure.t → StructureSelection.t) l bd uid e :
  anyHas (StructureSelection.builderStructures
            (foldl (λ acc s, foldl StructureSelection.uniqueAdd acc
                               (StructureSelection.structures (f s))) bd l)) uid e
  ↔ anyHas (StructureSelection.builderStructures bd) uid e ∨
    ∃ s, s ∈ l ∧ StructureSelection.has (f s) uid e.
Proof.
  assert (∀ ss bd',
            anyHas (StructureSelection.builderStructures
                      (foldl StructureSelection.uniqueAdd bd' ss)) uid e
            ↔ anyHas (StructureSelection.builderStructures bd') uid e ∨ anyHas ss uid e)
    as Hinner.
  { intros ss. induction ss as [|x ss IH]; intros bd'; simpl.
    - pose proof (anyHas_nil uid e). tauto.
    - rewrite IH, uniqueAdd_has. unfold anyHas at 4. split.
      + intros [[?|?]|(s & ? & ?)]; [by left| |].
        * right. exists x. split; [left|done].
        * right. exists s. split; [by right|done].
      + intros [?|(s & [->|?]%elem_of_cons & ?)]; [left; by left|left; by right|].
        right. by exists s. }
  revert bd. induction l as [|s l IH]; intros bd; simpl.
  - split; [by left|]. by intros [?|(? & ?%elem_of_nil & _)].
  - rewrite IH, Hinner. split.
    + intros [[?|?]|(s' & ? & ?)]; [by left| |].
      * right. exists s. split; [left|done].
      * right. exists s'. split; [by right|done].
    + intros [?|(s' & [->|?]%elem_of_cons & ?)]; [left; by left|left; by right|].
      right. by exists s'.
Qed.

End QuerySelectionMerge.

(** X6: [querySelection] merges the results of the inner query.  Around an
    inner query that computes its selection from the input structure, every
    structure of the outer selection is pushed as the input structure in
    turn: an atom is in the result if and only if it is in the inner
    selection of one of them.  The loop makes one deadline check per ten
    structures, and input structure, stacks and cursor are left as the
    outer query left them. *)
Theorem X6_querySelection_merges_inner_results (selection : StructureQuery)
    (f : Structure.t → StructureSelection.t)
    (ctx ctx1 : QueryContext.t) (targetSel : StructureSelection.t) :
  selection ctx = (Ok targetSel, ctx1) →
  let cost := checks 10 0 (StructureSelection.structureCount targetSel) in
  cost ≤ QueryContext.clock ctx1 →
  ∃ res,
    querySelection selection (readsInput f) ctx
    = (Ok res, setClock ctx1 (QueryContext.clock ctx1 - cost)) ∧
    ∀ uid e, StructureSelection.has res uid e ↔
             ∃ s, s ∈ StructureSelection.structures targetSel ∧
                  StructureSelection.has (f s) uid e.
Proof.
  intros Hsel cost Hclock. unfold querySelection. unfold bind at 1. rewrite Hsel.
  destruct (decide (StructureSelection.structureCount targetSel = 0)) as [Hc|Hc].
  - exists targetSel. split.
    + unfold cost. rewrite Hc. unfold ret, checks. simpl.
      by rewrite Nat.sub_0_r, setClock_clock.
    + intros uid e. pose proof (has_no_structures targetSel uid e Hc).
      unfold StructureSelection.structureCount in Hc. apply nil_length_inv in Hc.
      rewrite Hc. split; [done|]. by intros (? & ?%elem_of_nil & _).
  - unfold bind at 1, getInputStructure at 1. unfold forEach, bind.
    rewrite (forIndexedFrom_ext _ _ _ _ _ _ (querySelection_each_readsInput f)).
    rewrite (strided_loop_run 10
               (λ acc s, foldl StructureSelection.uniqueAdd acc
                           (StructureSelection.structures (f s)))).
    fold (StructureSelection.structureCount targetSel). fold cost.
    rewrite afterChecks_enough by done. eexists. split; [reflexivity|].
    intros uid e. rewrite getSelection_has, foldl_merge_has.
    pose proof (anyHas_nil uid e). simpl. tauto.
Qed.

Lemma X6_witness :
  ∃ res,
    querySelection SampleScope.each
      (readsInput (λ s, StructureSelection.Singletons s s))
      (QueryContext.create SampleScope.two 1)
    = (Ok res, setClock (QueryContext.create SampleScope.two 1) 0) ∧
    ∀ uid e, StructureSelection.has res uid e ↔
             ∃ s, s ∈ [SampleScope.first; SampleScope.second] ∧
                  StructureSelection.has (StructureSelection.Singletons s s) uid e.
Proof.
  apply (X6_querySelection_merges_inner_results SampleScope.each
           (λ s, StructureSelection.Singletons s s)
           (QueryContext.create SampleScope.two 1) (QueryContext.create SampleScope.two 1)
           _ eq_refl).
  vm_compute. lia.
Defined.

Section WholeResiduesMore.

Lemma wholeResiduesOf_has source structure uid e :
  subStructure structure source →
  Structure.has (wholeResiduesOf source structure) uid e ↔
  ∃ u, u ∈ Structure.units structure ∧ Unit.id u = uid ∧ e ∈ wholeResidueElements u.
Proof.
  intros Hsub. rewrite wholeResiduesOf_sub by done. unfold Structure.has. simpl. split.
  - intros (u' & (u & -> & Hu)%list_elem_of_fmap & Hid & He). by exists u.
  - intros (u & Hu & Hid & He). exists (Unit.getChild u (wholeResidueElements u)).
    split; [apply list_elem_of_fmap; by exists u|done].
Qed.

(** Two units of subsets of one source that carry the same id are children
    of the same unit. *)
Lemma subStructure_same_parent s s' source u u' :
  subStructure s source → subStructure s' source →
  u ∈ Structure.units s → u' ∈ Structure.units s' → Unit.id u' = Unit.id u →
  Unit.kind u' = Unit.kind u ∧ Unit.model u' = Unit.model u.
Proof.
  intros Hs Hs' Hu Hu' Hid.
  destruct (Hs u Hu) as (p & Hp & ->). destruct (Hs' u' Hu') as (p' & Hp' & ->).
  simpl in *. apply unitMap_get_Some in Hp as Hpid. apply unitMap_get_Some in Hp' as Hpid'.
  destruct Hpid as [_ Hpid], Hpid' as [_ Hpid'].
  assert (p' = p) as -> by (rewrite Hid in Hp'; congruence). done.
Qed.

Lemma wholeResidues_subStructure source structure :
  subStructure structure source → subStructure (wholeResiduesOf source structure) source.
Proof.
  intros Hsub. rewrite wholeResiduesOf_sub by done.
  intros u' (u & -> & Hu)%list_elem_of_fmap.
  destruct (Hsub u Hu) as (p & Hp & Hchild). exists p. split; [done|].
  rewrite Hchild at 1. done.
Qed.

(** The pure form of idempotence. *)
Lemma wholeResiduesOf_idem source structure :
  segmentedSubset structure source →
  wholeResiduesOf source (wholeResiduesOf source structure) = wholeResiduesOf source structure.
Proof.
  intros [Hsub Hmono].
  rewrite (wholeResiduesOf_sub source (wholeResiduesOf source structure))
    by (by apply wholeResidues_subStructure).
  rewrite wholeResiduesOf_sub by done. simpl. f_equal.
  rewrite <- list_fmap_compose. apply list_fmap_ext. intros i u Hiu. simpl.
  rewrite wholeResidueElements_idem; [done|].
  apply Hmono, list_elem_of_lookup. by exists i.
Qed.

Lemma wholeResiduesOf_atomicUnits source structure :
  subStructure structure source →
  atomicUnits (wholeResiduesOf source structure) = atomicUnits structure.
Proof.
  intros Hsub. rewrite wholeResiduesOf_sub by done. apply atomicUnits_children.
Qed.

Lemma wholeResidues_segmentedSubset source structure :
  segmentedSubset structure source →
  segmentedSubset (wholeResiduesOf source structure) source.
Proof.
  intros [Hsub Hmono]. split; [by apply wholeResidues_subStructure|].
  rewrite wholeResiduesOf_sub by done.
  intros u' (u & -> & Hu)%list_elem_of_fmap. exact (Hmono u Hu).
Qed.

(** The loop of [wholeResidues] over the structures of an array
    selection. *)
Lemma wholeResidues_loop l bd ctx :
  forOf l bd (λ builder s,
    let* input := getInputStructure in
    let* whole := getWholeResidues input s in
    ret (StructureSelection.uniqueAdd builder whole)) ctx
  = afterChecks (sum_list (atomicUnits <$> l))
      (foldl (λ builder s,
                StructureSelection.uniqueAdd builder
                  (wholeResiduesOf (QueryContext.inputStructure ctx) s)) bd l) ctx.
Proof.
  revert bd ctx. induction l as [|s l IH]; intros bd ctx; simpl.
  - by rewrite afterChecks_0.
  - etrans.
    { apply bind_run. unfold bind at 1, getInputStructure at 1.
      etrans; [apply bind_run, getWholeResidues_run|].
      exact (afterChecks_bind_ret _ _
               (StructureSelection.uniqueAdd bd) ctx). }
    apply afterChecks_bind. intros j. exact (IH _ (setClock ctx j)).
Qed.

(** [wholeResidues], for both forms of the inner selection. *)
Lemma wholeResidues_run (query : StructureQuery) ctx inner ctx1 :
  query ctx = (Ok inner, ctx1) →
  wholeResidues query ctx
  = afterChecks (wholeResiduesChecks inner)
      (wholeResiduesSelection (QueryContext.inputStructure ctx1) inner) ctx1.
Proof.
  intros Hq. unfold wholeResidues. unfold bind at 1. rewrite Hq.
  unfold wholeResiduesChecks, wholeResiduesSelection.
  destruct inner as [src structure|src structures]; simpl.
  - unfold bind at 1, getInputStructure at 1. rewrite Nat.add_0_r.
    etrans; [apply bind_run, getWholeResidues_run|].
    exact (afterChecks_bind_ret _ _
             (StructureSelection.Singletons (QueryContext.inputStructure ctx1)) ctx1).
  - unfold bind at 1, getInputStructure at 1.
    etrans; [apply bind_run, wholeResidues_loop|].
    exact (afterChecks_bind_ret _ _ StructureSelection.getSelection ctx1).
Qed.

End WholeResiduesMore.

(** X7: residue expansion loses no atom: for a subset of the source whose
    atomic units keep the invariant of the segmentation (monotonic offsets
    that cover the elements), every atom of the structure is in the
    structure [getWholeResidues] returns. *)
Theorem X7_wholeResidues_keeps_every_atom (source structure : Structure.t)
    (ctx : QueryContext.t) :
  segmentedSubset structure source →
  (∀ u, u ∈ Structure.units structure → Unit.kind u = Unit.Atomic → coveredByResidues u) →
  atomicUnits structure ≤ QueryContext.clock ctx →
  ∃ out ctx',
    getWholeResidues source structure ctx = (Ok out, ctx') ∧
    ∀ uid e, Structure.has structure uid e → Structure.has out uid e.
Proof.
  intros [Hsub Hmono] Hcov Hclock.
  rewrite getWholeResidues_run, afterChecks_enough by done.
  eexists _, _. split; [reflexivity|]. intros uid e (u & Hu & Hid & He).
  apply wholeResiduesOf_has; [done|]. exists u. split; [done|]. split; [done|].
  destruct (decide (Unit.kind u = Unit.Atomic)) as [Hk|Hk].
  - apply elem_of_wholeResidueElements; [done|by apply Hmono|].
    destruct (Hcov u Hu Hk e He) as (rI & Hr). exists rI. split; [done|]. by exists e.
  - unfold wholeResidueElements. by rewrite decide_True.
Qed.

Lemma X7_witness :
  ∃ out ctx',
    getWholeResidues Sample.twenty (Structure.mk [Sample.atomic 1 [3; 7]])
      (QueryContext.create Sample.twenty 1) = (Ok out, ctx') ∧
    ∀ uid e, Structure.has (Structure.mk [Sample.atomic 1 [3; 7]]) uid e →
             Structure.has out uid e.
Proof.
  apply (X7_wholeResidues_keeps_every_atom Sample.twenty
           (Structure.mk [Sample.atomic 1 [3; 7]]) (QueryContext.create Sample.twenty 1)).
  - split.
    + intros u Hu. apply list_elem_of_singleton in Hu. subst u.
      exists (Sample.atomic 1 (seq 0 10)). split; reflexivity.
    + intros u Hu. apply list_elem_of_singleton in Hu. subst u.
      unfold monotonicOffsets. simpl. repeat constructor.
  - intros u Hu _ e He. apply list_elem_of_singleton in Hu. subst u.
    apply elem_of_cons in He as [->|He].
    + exists 0, 0, 5. simpl. repeat split; lia.
    + apply list_elem_of_singleton in He. subst e.
      exists 1, 5, 10. simpl. repeat split; lia.
  - vm_compute. lia.
Defined.

(** X8: residue expansion is monotone: of two subsets of one source that
    keep the invariant of the segmentation, if one has every atom of the
    other, so do their expansions. *)
Theorem X8_wholeResidues_monotone (source small large : Structure.t) :
  segmentedSubset small source →
  segmentedSubset large source →
  (∀ uid e, Structure.has small uid e → Structure.has large uid e) →
  ∀ uid e,
    Structure.has (wholeResiduesOf source small) uid e →
    Structure.has (wholeResiduesOf source large) uid e.
Proof.
  intros [Hsub Hmono] [Hsub' Hmono'] Hincl uid e.
  rewrite !wholeResiduesOf_has by done. intros (u & Hu & Hid & He).
  destruct (decide (Unit.kind u = Unit.Atomic)) as [Hk|Hk].
  - apply elem_of_wholeResidueElements in He as (rI & Hr & e' & He' & Hr');
      [|done|by apply Hmono].
    destruct (Hincl uid e') as (u' & Hu' & Hid' & He''); [by exists u|].
    destruct (subStructure_same_parent small large source u u' Hsub Hsub' Hu Hu')
      as [Hkind Hmodel]; [congruence|].
    exists u'. split; [done|]. split; [done|].
    apply elem_of_wholeResidueElements; [congruence|by apply Hmono'|].
    exists rI. unfold inResidue in *. rewrite Hmodel. split; [done|]. by exists e'.
  - unfold wholeResidueElements in He. rewrite decide_True in He by done.
    destruct (Hincl uid e) as (u' & Hu' & Hid' & He'); [by exists u|].
    destruct (subStructure_same_parent small large source u u' Hsub Hsub' Hu Hu')
      as [Hkind Hmodel]; [congruence|].
    exists u'. split; [done|]. split; [done|].
    unfold wholeResidueElements. rewrite decide_True by congruence. done.
Qed.

Lemma X8_witness :
  Structure.has (wholeResiduesOf Sample.twenty (Structure.mk [Sample.atomic 1 [3; 7]])) 1 4.
Proof.
  apply (X8_wholeResidues_monotone Sample.twenty (Structure.mk [Sample.atomic 1 [3]])).
  - split.
    + intros u Hu. apply list_elem_of_singleton in Hu. subst u.
      exists (Sample.atomic 1 (seq 0 10)). split; reflexivity.
    + intros u Hu. apply list_elem_of_singleton in Hu. subst u.
      unfold monotonicOffsets. simpl. repeat constructor.
  - split.
    + intros u Hu. apply list_elem_of_singleton in Hu. subst u.
      exists (Sample.atomic 1 (seq 0 10)). split; reflexivity.
    + intros u Hu. apply list_elem_of_singleton in Hu. subst u.
      unfold monotonicOffsets. simpl. repeat constructor.
  - intros uid e (u & Hu & Hid & He).
    apply list_elem_of_singleton in Hu. subst u.
    apply list_elem_of_singleton in He. subst e.
    exists (Sample.atomic 1 [3; 7]). split; [elem_of_concrete|].
    split; [done|]. simpl. elem_of_concrete.
  - exists (Sample.atomic 1 [0; 1; 2; 3; 4]). split; [|split; [reflexivity|]].
    + vm_compute. elem_of_concrete.
    + simpl. elem_of_concrete.
Defined.

(** X9: the deadline decides the loops over the units by a count:
    [getWholeResidues] makes one check per atomic unit (none for the
    others) and [getIncludeSurroundings], when whole residues are not asked
    for, one per unit; each returns, with the clock lowered by that number,
    when the deadline allows that many checks, and ends in the timeout
    otherwise. *)
Theorem X9_unit_loops_deadline_cost
    (lookup3d : Structure.t → Z → Z → Z → Z → list (nat * nat))
    (source structure : Structure.t) (r : Z) (ctx : QueryContext.t) :
  ((atomicUnits structure ≤ QueryContext.clock ctx →
      ∃ out, getWholeResidues source structure ctx
             = (Ok out, setClock ctx (QueryContext.clock ctx - atomicUnits structure))) ∧
   (QueryContext.clock ctx < atomicUnits structure →
      getWholeResidues source structure ctx = (Err TimedOut, setClock ctx 0)))
  ∧
  ((length (Structure.units structure) ≤ QueryContext.clock ctx →
      ∃ out, getIncludeSurroundings lookup3d source structure
               (IncludeSurroundingsParams.mk r None) ctx
             = (Ok out, setClock ctx (QueryContext.clock ctx
                                      - length (Structure.units structure)))) ∧
   (QueryContext.clock ctx < length (Structure.units structure) →
      getIncludeSurroundings lookup3d source structure
        (IncludeSurroundingsParams.mk r None) ctx
      = (Err TimedOut, setClock ctx 0))).
Proof.
  rewrite getWholeResidues_run, getIncludeSurroundings_run.
  unfold includeSurroundingsChecks. simpl. rewrite Nat.add_0_r.
  repeat split; intros Hc.
  - rewrite afterChecks_enough by done. by eexists.
  - by rewrite afterChecks_expired.
  - rewrite afterChecks_enough by done. by eexists.
  - by rewrite afterChecks_expired.
Qed.

Lemma X9_witness :
  getWholeResidues Sample.twenty Sample.twenty (QueryContext.create Sample.twenty 1)
  = (Err TimedOut, QueryContext.create Sample.twenty 0).
Proof.
  apply (proj2 (proj1 (X9_unit_loops_deadline_cost SampleIndex.lookup3d
                         Sample.twenty Sample.twenty 0%Z
                         (QueryContext.create Sample.twenty 1)))).
  vm_compute. lia.
Defined.

Section UniqueStructures.

Lemma existsb_areEqual_false pre x :
  Structure.content x ∉ Structure.content <$> pre →
  existsb (λ s', Structure.areEqual s' x) pre = false.
Proof.
  intros Hnot. destruct (existsb _ pre) eqn:Hex; [|done].
  apply existsb_exists in Hex as (s' & Hs' & Heq). exfalso. apply Hnot.
  apply bool_decide_eq_true in Heq. rewrite <- Heq.
  apply list_elem_of_fmap. exists s'. split; [done|by apply list_elem_of_In].
Qed.

Lemma uniqueAdd_NoDup bd s :
  NoDup (Structure.content <$> StructureSelection.builderStructures bd) →
  NoDup (Structure.content <$>
           StructureSelection.builderStructures (StructureSelection.uniqueAdd bd s)).
Proof.
  intros Hnd. unfold StructureSelection.uniqueAdd.
  destruct (existsb _ _) eqn:Hex; [done|]. simpl.
  rewrite fmap_app. simpl. apply NoDup_app. split; [done|]. split.
  - intros c Hc ->%list_elem_of_singleton.
    apply list_elem_of_fmap in Hc as (s' & Hcs & Hs').
    assert (existsb (λ s', Structure.areEqual s' s)
              (StructureSelection.builderStructures bd) = true) as Htrue; [|congruence].
    apply existsb_exists. exists s'. split; [by apply list_elem_of_In|].
    by apply bool_decide_eq_true.
  - apply NoDup_singleton.
Qed.

Lemma foldl_uniqueAdd_NoDup (W : Structure.t → Structure.t) l bd :
  NoDup (Structure.content <$> StructureSelection.builderStructures bd) →
  NoDup (Structure.content <$>
           StructureSelection.builderStructures
             (foldl (λ builder s, StructureSelection.uniqueAdd builder (W s)) bd l)).
Proof.
  revert bd. induction l as [|s l IH]; intros bd Hnd; simpl; [done|].
  by apply IH, uniqueAdd_NoDup.
Qed.

Lemma foldl_uniqueAdd_in (W : Structure.t → Structure.t) l bd s' :
  s' ∈ StructureSelection.builderStructures
         (foldl (λ builder s, StructureSelection.uniqueAdd builder (W s)) bd l) →
  s' ∈ StructureSelection.builderStructures bd ∨ ∃ s, s ∈ l ∧ s' = W s.
Proof.
  revert bd. induction l as [|s l IH]; intros bd; simpl; [by left|].
  intros [[?| ->]%uniqueAdd_in|(s0 & ? & ?)]%IH; [by left| |].
  - right. exists s. split; [left|done].
  - right. exists s0. split; [by right|done].
Qed.

Lemma foldl_uniqueAdd_source (W : Structure.t → Structure.t) l bd :
  StructureSelection.builderSource
    (foldl (λ builder s, StructureSelection.uniqueAdd builder (W s)) bd l)
  = StructureSelection.builderSource bd.
Proof.
  revert bd. induction l as [|s l IH]; intros bd; simpl; [done|].
  by rewrite IH, uniqueAdd_source.
Qed.

(** Adding again, to an empty builder, structures that are pairwise
    distinct and that [W] leaves as they are gives the same list. *)
Lemma foldl_uniqueAdd_fixed (W : Structure.t → Structure.t) src l pre :
  (∀ s, s ∈ l → W s = s) →
  NoDup (Structure.content <$> (pre ++ l)) →
  foldl (λ builder s, StructureSelection.uniqueAdd builder (W s))
        (StructureSelection.mkBuilder src pre) l
  = StructureSelection.mkBuilder src (pre ++ l).
Proof.
  revert pre. induction l as [|s l IH]; intros pre Hfix Hnd; simpl.
  - by rewrite app_nil_r.
  - rewrite Hfix by left. unfold StructureSelection.uniqueAdd at 2. simpl.
    rewrite existsb_areEqual_false.
    + rewrite IH.
      * by rewrite <- app_assoc.
      * intros s' Hs'. apply Hfix. by right.
      * by rewrite <- app_assoc.
    + rewrite fmap_app in Hnd. apply NoDup_app in Hnd as (_ & Hdisj & _).
      intros Hin. apply (Hdisj _ Hin). rewrite fmap_cons. left.
Qed.

End UniqueStructures.

(** X10: [wholeResidues] is idempotent as a query: when the structures the
    inner query yields are subsets of the input structure that keep the
    invariant of the segmentation, and [wholeResidues query] returns a
    selection, then [wholeResidues (wholeResidues query)] returns the same
    selection, given a deadline that allows the checks of the second
    expansion. *)
Theorem X10_wholeResidues_query_idempotent (query : StructureQuery)
    (ctx ctx1 ctx2 : QueryContext.t) (inner sel : StructureSelection.t) :
  query ctx = (Ok inner, ctx1) →
  (∀ s, s ∈ StructureSelection.structures inner →
        segmentedSubset s (QueryContext.inputStructure ctx1)) →
  wholeResidues query ctx = (Ok sel, ctx2) →
  wholeResiduesChecks sel ≤ QueryContext.clock ctx2 →
  ∃ ctx3, wholeResidues (wholeResidues query) ctx = (Ok sel, ctx3).
Proof.
  intros Hq Hseg Hrun Hclock.
  rewrite (wholeResidues_run (wholeResidues query) ctx sel ctx2 Hrun).
  rewrite afterChecks_enough by done. eexists. f_equal. f_equal.
  rewrite (wholeResidues_run query ctx inner ctx1 Hq) in Hrun.
  apply afterChecks_Ok in Hrun as (-> & _ & ->). simpl.
  set (input := QueryContext.inputStructure ctx1) in *.
  destruct inner as [src structure|src structures]; simpl.
  - f_equal. apply wholeResiduesOf_idem, Hseg. simpl. left.
  - unfold StructureSelection.getSelection.
    set (W := wholeResiduesOf input).
    set (bd := foldl _ (UniqueStructuresBuilder input) structures).
    assert (StructureSelection.builderSource bd = input) as Hsrc
      by apply foldl_uniqueAdd_source.
    change (UniqueStructuresBuilder input) with (StructureSelection.mkBuilder input []).
    rewrite (foldl_uniqueAdd_fixed W input (StructureSelection.builderStructures bd) []).
    + simpl. by rewrite Hsrc.
    + intros s' [Hs'|(s & Hs & ->)]%foldl_uniqueAdd_in; [by apply elem_of_nil in Hs'|].
      apply wholeResiduesOf_idem, Hseg. simpl. done.
    + simpl. apply foldl_uniqueAdd_NoDup. simpl. apply NoDup_nil_2.
Qed.

Lemma X10_witness :
  ∃ ctx3,
    wholeResidues
      (wholeResidues
         (Sample.const (StructureSelection.Sequence Sample.twenty
                          [Structure.mk [Sample.atomic 1 [3]];
                           Structure.mk [Sample.atomic 1 [4]]])))
      (QueryContext.create Sample.twenty 3)
    = (Ok (StructureSelection.Sequence Sample.twenty
             [Structure.mk [Sample.atomic 1 [0; 1; 2; 3; 4]]]), ctx3).
Proof.
  apply (X10_wholeResidues_query_idempotent
           (Sample.const (StructureSelection.Sequence Sample.twenty
                            [Structure.mk [Sample.atomic 1 [3]];
                             Structure.mk [Sample.atomic 1 [4]]]))
           (QueryContext.create Sample.twenty 3) (QueryContext.create Sample.twenty 3)
           (QueryContext.create Sample.twenty 1)
           (StructureSelection.Sequence Sample.twenty
              [Structure.mk [Sample.atomic 1 [3]]; Structure.mk [Sample.atomic 1 [4]]])
           _ eq_refl).
  - intros s Hs. split.
    + intros u Hu. exists (Sample.atomic 1 (seq 0 10)).
      apply elem_of_cons in Hs as [->|Hs];
        [|apply list_elem_of_singleton in Hs; subst s];
        apply list_elem_of_singleton in Hu; subst u; split; reflexivity.
    + intros u Hu.
      apply elem_of_cons in Hs as [->|Hs];
        [|apply list_elem_of_singleton in Hs; subst s];
        apply list_elem_of_singleton in Hu; subst u;
        unfold monotonicOffsets; simpl; repeat constructor.
  - vm_compute. reflexivity.
  - vm_compute. lia.
Defined.

(** X11: over an array selection without structures [wholeResidues] and
    [includeSurroundings] return the empty selection of the current input
    structure; they query no index and check no deadline, so they return
    even when the deadline is over. *)
Theorem X11_empty_array_selection (query : StructureQuery)
    (ctx ctx1 : QueryContext.t) (src : Structure.t) :
  query ctx = (Ok (StructureSelection.Sequence src []), ctx1) →
  wholeResidues query ctx
  = (Ok (StructureSelection.Empty (QueryContext.inputStructure ctx1)), ctx1) ∧
  ∀ lookup3d params,
    includeSurroundings lookup3d query params ctx
    = (Ok (StructureSelection.Empty (QueryContext.inputStructure ctx1)), ctx1).
Proof.
  intros Hq. split.
  - rewrite (wholeResidues_run _ _ _ _ Hq). unfold wholeResiduesChecks. simpl.
    by rewrite afterChecks_0.
  - intros lookup3d params. rewrite (includeSurroundings_run _ _ _ _ _ _ Hq). simpl.
    by rewrite afterChecks_0.
Qed.

Lemma X11_witness :
  wholeResidues (Sample.const (StructureSelection.Sequence SampleScope.two []))
    (QueryContext.create Sample.twenty 0)
  = (Ok (StructureSelection.Empty Sample.twenty), QueryContext.create Sample.twenty 0).
Proof.
  exact (proj1 (X11_empty_array_selection
                  (Sample.const (StructureSelection.Sequence SampleScope.two []))
                  (QueryContext.create Sample.twenty 0)
                  (QueryContext.create Sample.twenty 0) SampleScope.two eq_refl)).
Defined.

(** X12: over a selection without structures [expandProperty] returns the
    empty selection of the input structure, for every property and also
    when the deadline is over, and leaves input structure, stacks and
    cursor as the inner query left them. *)
Theorem X12_expandProperty_of_nothing (P : Type) `{Countable P}
    (query : StructureQuery) (property : QueryFn P)
    (ctx ctx1 : QueryContext.t) (src : StructureSelection.t) :
  query ctx = (Ok src, ctx1) →
  StructureSelection.structureCount src = 0 →
  ∃ ctx',
    expandProperty query property ctx
    = (Ok (StructureSelection.Empty (QueryContext.inputStructure ctx1)), ctx') ∧
    sameScope ctx1 ctx'.
Proof.
  intros Hq Hc.
  destruct (expandProperty query property ctx) as [r ctx'] eqn:Hrun.
  pose proof (expandProperty_outcome query property ctx src ctx1 r ctx' Hq Hrun) as [Hok _].
  exists ctx'. revert Hrun Hok. unfold expandProperty. unfold bind at 1. rewrite Hq.
  unfold bind at 1, pushCurrentElement at 1. unfold bind at 1. unfold forEach.
  unfold StructureSelection.structureCount in Hc. apply nil_length_inv in Hc. rewrite Hc.
  simpl forIndexedFrom. unfold ret at 1. simpl fst. simpl snd.
  unfold bind at 1, getInputStructure at 1. unfold bind at 1.
  match goal with |- context [expandProperty_collect ?p ∅ ?i ?b ?c] =>
    destruct (expandProperty_collect_unclaimed p i b c) as (c3 & Hcollect);
    pose proof (expandProperty_collect_settles p ∅ i b _ _ _ Hcollect)
      as [(Hi3 & _ & _ & _) _];
    rewrite Hcollect
  end.
  unfold bind at 1, popCurrentElement at 1. unfold bind at 1, getInputStructure at 1.
  simpl forOf. unfold bind, ret. simpl in Hi3.
  intros [= <- <-] Hok. split; [|by eapply Hok].
  unfold StructureSelection.getSelection, StructureSelection.UniqueBuilder,
    StructureSelection.Empty.
  destruct (QueryContext.currentElementStack c3); simpl; by rewrite Hi3.
Qed.

Lemma X12_witness :
  ∃ ctx',
    expandProperty (Sample.const (StructureSelection.Empty SampleScope.two))
      SampleScope.constant (QueryContext.create Sample.twenty 0)
    = (Ok (StructureSelection.Empty Sample.twenty), ctx') ∧
    sameScope (QueryContext.create Sample.twenty 0) ctx'.
Proof.
  apply (X12_expandProperty_of_nothing nat
           (Sample.const (StructureSelection.Empty SampleScope.two)) SampleScope.constant
           (QueryContext.create Sample.twenty 0) (QueryContext.create Sample.twenty 0)
           (StructureSelection.Empty SampleScope.two) eq_refl eq_refl).
Defined.

Section LoopInvariants.

(** An invariant of the locals and the context that every round keeps is
    kept by the loop. *)
Lemma forOf_inv {A B} (Inv : B → QueryContext.t → Prop) (xs : list A)
    (body : B → A → M B) :
  (∀ acc x c acc' c', x ∈ xs → Inv acc c → body acc x c = (Ok acc', c') → Inv acc' c') →
  ∀ acc c accF cF, Inv acc c → forOf xs acc body c = (Ok accF, cF) → Inv accF cF.
Proof.
  induction xs as [|x xs IH]; intros Hbody acc c accF cF HI; simpl.
  - by intros [= <- <-].
  - unfold bind. destruct (body acc x c) as [[acc'|e] c1] eqn:Hb; [|done].
    apply IH.
    + intros acc0 x0 c0 acc0' c0' Hx0. apply Hbody. by right.
    + eapply Hbody; [left|exact HI|exact Hb].
Qed.

Lemma forIndexedFrom_inv {A B} (Inv : B → QueryContext.t → Prop) (xs : list A)
    (body : B → A → nat → M B) :
  (∀ acc x i c acc' c', x ∈ xs → Inv acc c → body acc x i c = (Ok acc', c') → Inv acc' c') →
  ∀ i acc c accF cF, Inv acc c → forIndexedFrom i xs acc body c = (Ok accF, cF) → Inv accF cF.
Proof.
  induction xs as [|x xs IH]; intros Hbody i acc c accF cF HI; simpl.
  - by intros [= <- <-].
  - unfold bind. destruct (body acc x i c) as [[acc'|e] c1] eqn:Hb; [|done].
    apply IH.
    + intros acc0 x0 i0 c0 acc0' c0' Hx0. apply Hbody. by right.
    + eapply Hbody; [left|exact HI|exact Hb].
Qed.

End LoopInvariants.

Section ExpandPropertySound.

Context {P : Type} `{Countable P}.
Variable g : StructureElement.t → P.
Variable src : StructureSelection.t.
Variable input : Structure.t.

Let property : QueryFn P := λ c, g (QueryContext.element c).

Let keysClaimed := keysClaimedBy g src.

(** The first pass over a structure of the selection adds claimed values
    only. *)
Lemma expandProperty_claim_keys sI map_ s c map' c' :
  s ∈ StructureSelection.structures src →
  keysClaimed map_ →
  expandProperty_claim property sI map_ s c = (Ok map', c') →
  keysClaimed map'.
Proof.
  intros Hs Hkeys. unfold expandProperty_claim.
  apply (forOf_inv (λ m _, keysClaimed m)); [|done].
  intros acc u c0 acc' c0' Hu Hacc. unfold bind at 1, setElementUnit at 1.
  set (c1 := withElement c0 _).
  apply (forIndexedFrom_inv
           (λ m c, keysClaimed m ∧
                   StructureElement.unit (QueryContext.element c) = Some u)); [|done].
  intros m e i c2 m' c2' He [Hm Hunit].
  unfold bind at 1, setElementElement at 1. unfold bind at 1, evalProperty at 1.
  unfold ret. intros [= <- <-]. split; [|done].
  unfold property. simpl. rewrite Hunit.
  set (p := g (StructureElement.mk (Some u) e)).
  assert (claimed g src p) as Hp by (by exists s, u, e).
  intros q Hq. destruct (decide (q = p)) as [->|Hne]; [done|].
  rewrite lookup_insert_ne in Hq by done.
  destruct (m !! p); [by apply Hm|].
  rewrite lookup_insert_ne in Hq by done. by apply Hm.
Qed.

Lemma arraySet_holdsClaimed builders sI b :
  Forall (holdsClaimed g src input) builders →
  holdsClaimed g src input (Some b) →
  Forall (holdsClaimed g src input) (arraySet builders sI b).
Proof.
  intros Hall Hb. unfold arraySet. case_decide.
  - by apply Forall_insert.
  - apply Forall_app. split; [done|]. apply Forall_app. split.
    + by apply Forall_replicate.
    + by apply Forall_singleton.
Qed.

(** The first pass builds a map of claimed values and empty builders over
    the input structure. *)
Lemma expandProperty_first_pass l sI st c st' c' :
  (∀ s, s ∈ l → s ∈ StructureSelection.structures src) →
  QueryContext.inputStructure c = input →
  keysClaimed st.1 → Forall (holdsClaimed g src input) st.2 →
  forIndexedFrom sI l st (expandProperty_each property) c = (Ok st', c') →
  keysClaimed st'.1 ∧ Forall (holdsClaimed g src input) st'.2 ∧
  QueryContext.inputStructure c' = input.
Proof.
  intros Hl Hin Hkeys Hall.
  apply (forIndexedFrom_inv
           (λ st c, keysClaimed st.1 ∧ Forall (holdsClaimed g src input) st.2 ∧
                    QueryContext.inputStructure c = input)); [|done].
  intros acc s i c0 acc' c0' Hs (Hk & Hb & Hi). unfold expandProperty_each.
  unfold bind at 1.
  destruct (expandProperty_claim property i acc.1 s c0) as [[map'|e] c1] eqn:Hclaim; [|done].
  pose proof (expandProperty_claim_keys _ _ _ _ _ _ (Hl s Hs) Hk Hclaim) as Hk'.
  destruct (expandProperty_claim_settles _ _ _ _ _ _ _ Hclaim) as [(Hi1 & _ & _ & _) _].
  unfold bind at 1, getInputStructure at 1. unfold bind.
  destruct ((if decide (i `mod` 10 = 0) then throwIfTimedOut else ret ()) c1)
    as [[?|e] c2] eqn:Hcheck; [|done].
  intros [= <- <-]. simpl. split; [done|]. split.
  - apply arraySet_holdsClaimed; [done|]. unfold subsetBuilder. simpl.
    split; [exact (eq_trans Hi1 Hi)|].
    by intros uid e (els & ?%elem_of_nil & _).
  - revert Hcheck. case_decide.
    + unfold throwIfTimedOut. destruct (QueryContext.clock c1); [done|].
      intros [= _ Hc2]. rewrite <- Hc2. exact (eq_trans Hi1 Hi).
    + intros [= _ Hc2]. rewrite <- Hc2. exact (eq_trans Hi1 Hi).
Qed.

(** The second pass adds claimed atoms of the input structure only. *)
Lemma expandProperty_second_pass map_ builders c builders' c' :
  keysClaimed map_ → Forall (holdsClaimed g src input) builders →
  expandProperty_collect property map_ input builders c = (Ok builders', c') →
  Forall (holdsClaimed g src input) builders'.
Proof.
  intros Hkeys Hall. unfold expandProperty_collect.
  apply (forOf_inv (λ bs _, Forall (holdsClaimed g src input) bs)); [|done].
  intros acc u c0 acc' c0' Hu Hacc. unfold bind at 1, setElementUnit at 1.
  set (c1 := withElement c0 _).
  apply (forIndexedFrom_inv
           (λ bs c, Forall (holdsClaimed g src input) bs ∧
                    StructureElement.unit (QueryContext.element c) = Some u)); [|done].
  intros bs e i c2 bs' c2' He [Hbs Hunit]. unfold expandProperty_atom.
  unfold bind at 1, setElementElement at 1. unfold bind at 1, evalProperty at 1.
  unfold property at 1. simpl QueryContext.element. rewrite Hunit.
  match goal with
  | |- context [g (QueryContext.element (withElement ?c ?el))] =>
      change (g (QueryContext.element (withElement c el))) with (g el)
  end.
  set (p := g (StructureElement.mk (Some u) e)).
  destruct (map_ !! p) as [arr|] eqn:Hp.
  2:{ unfold ret. intros [= <- <-]. done. }
  assert (claimedAtom g src input (Unit.id u) e) as Hgood.
  { exists u. repeat split; try done. apply Hkeys. exists arr. exact Hp. }
  set (c3 := withElement c2 _).
  assert (StructureElement.unit (QueryContext.element c3) = Some u) as Hunit3 by done.
  clearbody c3.
  apply (forIndexedFrom_inv
           (λ bs c, Forall (holdsClaimed g src input) bs ∧
                    StructureElement.unit (QueryContext.element c) = Some u)); [|done].
  intros bs0 x j c4 bs0' c4' _ [Hbs0 Hunit4]. unfold throw, ret.
  destruct (UniqueArray.array arr !! i) as [k|]; [|done].
  destruct (arrayGet bs0 k) as [b|] eqn:Hget; [|done].
  intros [= <- <-]. split; [|done]. apply Forall_insert; [done|].
  unfold arrayGet in Hget. destruct (bs0 !! k) as [ob|] eqn:Hk; [|done].
  simpl in Hget. subst ob.
  pose proof (Forall_lookup_1 _ _ _ _ Hbs0 Hk) as [Hparent Hentries].
  split; [done|]. intros uid e' [Hold|[-> ->]]%addTo_has; [by apply Hentries|done].
Qed.

(** The structures of the result are those of the builders. *)
Lemma expandProperty_final builders ret_ c retF cF :
  (∀ s, s ∈ StructureSelection.builderStructures ret_ →
        ∃ b, Some b ∈ builders ∧ s = StructureSubsetBuilder.getStructure b) →
  forOf builders ret_ (λ ret_ b,
    match b with
    | Some b => ret (StructureSelection.uniqueAdd ret_ (StructureSubsetBuilder.getStructure b))
    | None => throw TypeError
    end) c = (Ok retF, cF) →
  ∀ s, s ∈ StructureSelection.builderStructures retF →
       ∃ b, Some b ∈ builders ∧ s = StructureSubsetBuilder.getStructure b.
Proof.
  intros Hinit.
  apply (forOf_inv (λ r _, ∀ s, s ∈ StructureSelection.builderStructures r →
                                ∃ b, Some b ∈ builders ∧
                                     s = StructureSubsetBuilder.getStructure b)); [|done].
  intros acc [b|] c0 acc' c0' Hb Hacc; unfold throw, ret; [|done].
  intros [= <- <-] s [Hs| ->]%uniqueAdd_in; [by apply Hacc|by exists b].
Qed.

(** What [expandProperty] selects: claimed atoms of the input structure. *)
Lemma expandProperty_sound (query : StructureQuery) ctx ctx1 res ctx' uid e :
  query ctx = (Ok src, ctx1) →
  QueryContext.inputStructure ctx1 = input →
  expandProperty query property ctx = (Ok res, ctx') →
  StructureSelection.has res uid e → claimedAtom g src input uid e.
Proof.
  intros Hq Hin. unfold expandProperty. unfold bind at 1. rewrite Hq.
  unfold bind at 1, pushCurrentElement at 1.
  set (c1 := QueryContext.mk _ _ _ _ _).
  unfold bind at 1.
  destruct (forEach src _ _ c1) as [[st|e1] c2] eqn:Hpass1; [|done].
  destruct (expandProperty_first_pass (StructureSelection.structures src) 0 (∅, [])
              c1 st c2) as (Hkeys & Hall & Hi2); try done.
  { intros p [? Hp]. simpl in Hp. by rewrite lookup_empty in Hp. }
  unfold bind at 1, getInputStructure at 1. unfold bind at 1. rewrite Hi2.
  destruct (expandProperty_collect property st.1 input st.2 c2) as [[bs|e2] c3] eqn:Hpass2;
    [|done].
  pose proof (expandProperty_second_pass _ _ _ _ _ Hkeys Hall Hpass2) as Hbs.
  unfold bind at 1, popCurrentElement at 1.
  unfold bind at 1, getInputStructure at 1. unfold bind at 1.
  match goal with
  | |- context [forOf bs ?acc ?body ?c4] =>
      destruct (forOf bs acc body c4) as [[retF|e3] c5] eqn:Hfinal; [|done];
      pose proof (expandProperty_final bs acc c4 retF c5) as Hres
  end.
  intros [= <- <-] (s & Hs & Hhas). simpl in Hs.
  destruct (Hres ltac:(by intros ? ?%elem_of_nil) Hfinal s Hs) as (b & Hb & ->).
  rewrite Forall_forall in Hbs. destruct (Hbs _ Hb) as [Hparent Hentries].
  unfold StructureSubsetBuilder.getStructure in Hhas.
  apply resolve_has in Hhas as [Hentry _]. by apply Hentries.
Qed.

End ExpandPropertySound.

(** X13: [expandProperty] selects claimed atoms of the input structure
    only: for a property of the cursor, every atom of a structure of the
    result is an atom of the input structure, and its property value is
    the value at some atom of a structure of the inner selection.  (Atoms
    with a value that no structure claims are in no output structure.) *)
Theorem X13_expandProperty_selects_claimed_atoms (P : Type) `{Countable P}
    (g : StructureElement.t → P) (query : StructureQuery)
    (ctx ctx1 ctx' : QueryContext.t) (src res : StructureSelection.t) :
  query ctx = (Ok src, ctx1) →
  expandProperty query (λ c, g (QueryContext.element c)) ctx = (Ok res, ctx') →
  ∀ uid e, StructureSelection.has res uid e →
           claimedAtom g src (QueryContext.inputStructure ctx1) uid e.
Proof.
  intros Hq Hrun uid e Hhas.
  by eapply (expandProperty_sound g src (QueryContext.inputStructure ctx1) query).
Qed.

Lemma X13_witness :
  claimedAtom (λ _ : StructureElement.t, 0)
    (StructureSelection.Sequence SampleScope.two [SampleScope.first; SampleScope.second])
    SampleScope.two 0 1.
Proof.
  apply (X13_expandProperty_selects_claimed_atoms nat (λ _, 0) SampleScope.each
           (QueryContext.create SampleScope.two 5) (QueryContext.create SampleScope.two 5)
           (expandProperty SampleScope.each SampleScope.constant
              (QueryContext.create SampleScope.two 5)).2
           (StructureSelection.Sequence SampleScope.two [SampleScope.first; SampleScope.second])
           (StructureSelection.Sequence SampleScope.two [SampleScope.first; SampleScope.second])
           eq_refl).
  - vm_compute. reflexivity.
  - exists SampleScope.second. split; [elem_of_concrete|].
    exists (Sample.atomic 0 [1]). split; [elem_of_concrete|].
    split; [reflexivity|]. simpl. elem_of_concrete.
Defined.

(** X14: the surroundings grow with the structure: of two subsets of the
    source, if one has every atom of the other, the atoms the index reports
    around the smaller one are among those it reports around the larger
    one, for the same index and radius. *)
Theorem X14_surroundings_monotone
    (lookup3d : Structure.t → Z → Z → Z → Z → list (nat * nat))
    (source small large : Structure.t) (r : Z) :
  subStructure small source →
  subStructure large source →
  (∀ uid e, Structure.has small uid e → Structure.has large uid e) →
  ∀ uid e,
    Structure.has (surroundingsOf lookup3d source r small) uid e →
    Structure.has (surroundingsOf lookup3d source r large) uid e.
Proof.
  intros Hsub Hsub' Hincl uid e. rewrite !surroundingsOf_has.
  intros [(u & e0 & Hu & He0 & Hhit) Hsome]. split; [|done].
  destruct (Hincl (Unit.id u) e0) as (u' & Hu' & Hid' & He0'); [by exists u|].
  exists u', e0. split; [done|]. split; [done|].
  destruct (Hsub u Hu) as (p & Hp & Hchild).
  destruct (Hsub' u' Hu') as (p' & Hp' & Hchild').
  assert (p' = p) as -> by (rewrite Hid' in Hp'; congruence).
  rewrite Hchild'. rewrite Hchild in Hhit. exact Hhit.
Qed.

Lemma X14_witness :
  Structure.has
    (surroundingsOf SampleIndex.lookup3d Sample.twenty 1%Z
       (Structure.mk [Sample.atomic 0 [3; 7]])) 0 4.
Proof.
  apply (X14_surroundings_monotone SampleIndex.lookup3d Sample.twenty
           (Structure.mk [Sample.atomic 0 [3]])).
  - intros u Hu. apply list_elem_of_singleton in Hu. subst u.
    exists (Sample.atomic 0 (seq 0 10)). split; reflexivity.
  - intros u Hu. apply list_elem_of_singleton in Hu. subst u.
    exists (Sample.atomic 0 (seq 0 10)). split; reflexivity.
  - intros uid e (u & Hu & Hid & He).
    apply list_elem_of_singleton in Hu. subst u.
    apply list_elem_of_singleton in He. subst e.
    exists (Sample.atomic 0 [3; 7]). split; [elem_of_concrete|].
    split; [done|]. simpl. elem_of_concrete.
  - exists (Sample.atomic 0 [2; 3; 4]). split; [|split; [reflexivity|]].
    + vm_compute. elem_of_concrete.
    + simpl. elem_of_concrete.
Defined.

(** * The method and the ids of volume streaming *)

Section StreamingFacts.

Import VolumeStreaming.

Variable toUpperCase : string → string.

Lemma returnFrom_Some {A} i n test (v w : A) :
  returnFrom i n test v = Some w ↔ w = v ∧ ∃ j, i ≤ j < i + n ∧ test j = true.
Proof.
  revert i. induction n as [|n IH]; intros i; simpl.
  - split; [done|]. intros (_ & j & ? & _). lia.
  - destruct (test i) eqn:Ht.
    + split.
      * intros [= <-]. split; [done|]. exists i. split; [lia|done].
      * by intros (-> & _).
    + rewrite IH. split.
      * intros (-> & j & ? & ?). split; [done|]. exists j. split; [lia|done].
      * intros (-> & j & ? & Hj). split; [done|]. exists j. split; [|done].
        destruct (decide (j = i)) as [->|]; [congruence|lia].
Qed.

Lemma returnFrom_None {A} i n test (v : A) :
  returnFrom i n test v = None ↔ ∀ j, i ≤ j < i + n → test j = false.
Proof.
  split.
  - intros Hnone j Hj. destruct (test j) eqn:Ht; [|done].
    assert (returnFrom i n test v = Some v) as Hsome; [|congruence].
    apply returnFrom_Some. split; [done|]. by exists j.
  - intros Hall. destruct (returnFrom i n test v) as [w|] eqn:Hr; [|done].
    apply returnFrom_Some in Hr as (_ & j & Hj & Ht). rewrite (Hall j Hj) in Ht. done.
Qed.

Lemma returnFrom_someRow {A} n test (v : A) :
  (someRow n test → returnFrom 0 n test v = Some v) ∧
  (¬ someRow n test → returnFrom 0 n test v = None).
Proof.
  split.
  - intros (i & Hi & Ht). apply returnFrom_Some. split; [done|]. exists i.
    split; [lia|done].
  - intros Hno. apply returnFrom_None. intros j Hj.
    destruct (test j) eqn:Ht; [|done]. exfalso. apply Hno. exists j. split; [lia|done].
Qed.

Lemma startsWith_spec sub s :
  startsWith sub s = true ↔ ∃ post, s = (sub +:+ post)%string.
Proof.
  revert s. induction sub as [|a sub IH]; intros s; simpl.
  - split; [|done]. intros _. by exists s.
  - destruct s as [|b s]; simpl.
    + split; [done|]. by intros (post & ?).
    + rewrite andb_true_iff, IH. split.
      * intros [->%Ascii.eqb_eq (post & ->)]. by exists post.
      * intros (post & [= -> ->]). split; [apply Ascii.eqb_refl|by exists post].
Qed.

(** [indexOf] finds the substring exactly when there is an occurrence. *)
Lemma indexOfFrom_found i s sub :
  (0 ≤ indexOfFrom i s sub)%Z ↔ ∃ pre post, s = (pre +:+ sub +:+ post)%string.
Proof.
  revert i. induction s as [|b s IH]; intros i; simpl.
  - destruct (startsWith sub "") eqn:Hs.
    + split; [|lia]. intros _. apply startsWith_spec in Hs as (post & Hpost).
      by exists ""%string, post.
    + split; [lia|]. intros (pre & post & Heq).
      destruct pre as [|c pre]; [|done]. simpl in Heq.
      assert (startsWith sub "" = true) as Ht; [|congruence].
      apply startsWith_spec. by exists post.
  - destruct (startsWith sub (String b s)) eqn:Hs.
    + split; [|lia]. intros _. apply startsWith_spec in Hs as (post & Hpost).
      by exists ""%string, post.
    + rewrite IH. split.
      * intros (pre & post & ->). by exists (String b pre), post.
      * intros (pre & post & Heq). destruct pre as [|c pre]; simpl in Heq.
        -- assert (startsWith sub (String b s) = true) as Ht; [|congruence].
           apply startsWith_spec. by exists post.
        -- injection Heq as -> ->. by exists pre, post.
Qed.

Lemma getEmIds_rows_filter related i n ids :
  getEmIds_rows toUpperCase related i n ids
  = ids ++ (Column.value (db_id related) <$>
              filter (λ j, isEmdbRow toUpperCase related j = true) (seq i n)).
Proof.
  revert i ids. induction n as [|n IH]; intros i ids; simpl.
  - by rewrite app_nil_r.
  - rewrite IH, filter_cons. destruct (isEmdbRow toUpperCase related i) eqn:Hrow.
    + rewrite decide_True by done. rewrite fmap_cons, <- app_assoc. done.
    + rewrite decide_False by done. done.
Qed.

End StreamingFacts.

(** X15: the order in which [getStreamingMethod] decides, for a structure
    whose first model is in the mmCIF format: a related EMDB entry that is
    the associated EM volume gives 'em', whatever else is recorded; without
    one, released structure factors give 'x-ray', whatever the experimental
    method; without either, an experimental method whose name holds
    MICROSCOPY gives 'em'; and otherwise the default kind is returned
    ('x-ray' when none is passed). *)
Theorem X15_streaming_method_order (toUpperCase : string → string)
    (s : VolumeStreaming.Structure) (model : VolumeStreaming.Model)
    (rest : list VolumeStreaming.Model) (db : VolumeStreaming.Database)
    (defaultKind : option VolumeStreaming.Kind) :
  VolumeStreaming.models s = model :: rest →
  VolumeStreaming.sourceData model = VolumeStreaming.Mmcif db →
  let related := VolumeStreaming.pdbx_database_related db in
  let sf := VolumeStreaming.status_code_sf (VolumeStreaming.pdbx_database_status db) in
  let methods := VolumeStreaming.method (VolumeStreaming.exptl db) in
  let emdb := VolumeStreaming.someRow (VolumeStreaming._rowCount related)
                (VolumeStreaming.isEmdbRow toUpperCase related) in
  let released := VolumeStreaming.Column.isDefined sf = true ∧
                  VolumeStreaming.Column.value sf 0 = "REL" in
  let microscopy :=
    ∃ i pre post, i < VolumeStreaming.Column.rowCount methods ∧
      toUpperCase (VolumeStreaming.Column.value methods i)
      = (pre +:+ "MICROSCOPY" +:+ post)%string in
  let result := VolumeStreaming.getStreamingMethod toUpperCase (Some s) defaultKind in
  (emdb → result = Ok VolumeStreaming.em) ∧
  (¬ emdb → released → result = Ok VolumeStreaming.x_ray) ∧
  (¬ emdb → ¬ released → microscopy → result = Ok VolumeStreaming.em) ∧
  (¬ emdb → ¬ released → ¬ microscopy →
   result = Ok (default VolumeStreaming.x_ray defaultKind)).
Proof.
  intros Hmodels Hsource related sf methods emdb released microscopy result.
  unfold result, VolumeStreaming.getStreamingMethod. rewrite Hmodels, Hsource.
  fold related. fold sf.
  assert (Hmic : microscopy ↔
                 VolumeStreaming.someRow (VolumeStreaming.Column.rowCount methods)
                   (VolumeStreaming.isMicroscopyRow toUpperCase (VolumeStreaming.exptl db))).
  { unfold microscopy, VolumeStreaming.someRow, VolumeStreaming.isMicroscopyRow. split.
    - intros (i & pre & post & Hi & Heq). exists i. split; [done|].
      apply bool_decide_eq_true. apply indexOfFrom_found. by exists pre, post.
    - intros (i & Hi & Hfound). apply bool_decide_eq_true in Hfound.
      apply indexOfFrom_found in Hfound as (pre & post & Heq). by exists i, pre, post. }
  assert (Hrel : released ↔
                 VolumeStreaming.Column.isDefined sf &&
                 bool_decide (VolumeStreaming.Column.value sf 0 = "REL") = true).
  { unfold released. rewrite andb_true_iff, bool_decide_eq_true. done. }
  unfold methods in *. repeat split.
  - intros Hemdb.
    by rewrite (proj1 (returnFrom_someRow _ _ VolumeStreaming.em) Hemdb).
  - intros Hno Hreleased.
    rewrite (proj2 (returnFrom_someRow _ _ VolumeStreaming.em) Hno).
    by rewrite (proj1 Hrel Hreleased).
  - intros Hno Hnot Hmicro.
    rewrite (proj2 (returnFrom_someRow _ _ VolumeStreaming.em) Hno).
    destruct (_ && _) eqn:Hsf; [by destruct Hnot; apply Hrel|].
    by rewrite (proj1 (returnFrom_someRow _ _ VolumeStreaming.em) (proj1 Hmic Hmicro)).
  - intros Hno Hnot Hnomicro.
    rewrite (proj2 (returnFrom_someRow _ _ VolumeStreaming.em) Hno).
    destruct (_ && _) eqn:Hsf; [by destruct Hnot; apply Hrel|].
    rewrite (proj2 (returnFrom_someRow _ _ VolumeStreaming.em)); [done|].
    intros Hsome. by apply Hnomicro, Hmic.
Qed.

(** The sample entry has released structure factors and an EMDB map: the
    map wins. *)
Lemma X15_witness :
  VolumeStreaming.getStreamingMethod SampleStreaming.toUpperCase
    (Some SampleStreaming.structure) None
  = Ok VolumeStreaming.em.
Proof.
  refine (proj1 (X15_streaming_method_order SampleStreaming.toUpperCase
                   SampleStreaming.structure SampleStreaming.model [] SampleStreaming.db
                   None eq_refl eq_refl) _).
  exists 1. split; [simpl; lia|]. vm_compute. reflexivity.
Defined.

(** X16: the ids [getEmIds] returns for a model in the mmCIF format whose
    [db_name] column is defined are the [db_id] values of the rows that
    name an EMDB entry as the associated EM volume, in the order of the
    rows; when no row does, the list is empty: the entry id is the fallback
    only for another format or an undefined column. *)
Theorem X16_getEmIds_lists_the_emdb_rows (toUpperCase : string → string)
    (model : VolumeStreaming.Model) (db : VolumeStreaming.Database) :
  VolumeStreaming.sourceData model = VolumeStreaming.Mmcif db →
  let related := VolumeStreaming.pdbx_database_related db in
  VolumeStreaming.Column.isDefined (VolumeStreaming.db_name related) = true →
  let rows := filter (λ i, VolumeStreaming.isEmdbRow toUpperCase related i = true)
                (seq 0 (VolumeStreaming.Column.rowCount (VolumeStreaming.db_name related))) in
  VolumeStreaming.getEmIds toUpperCase model
  = VolumeStreaming.Column.value (VolumeStreaming.db_id related) <$> rows
  ∧ (VolumeStreaming.getEmIds toUpperCase model = [] ↔
     ¬ VolumeStreaming.someRow
         (VolumeStreaming.Column.rowCount (VolumeStreaming.db_name related))
         (VolumeStreaming.isEmdbRow toUpperCase related)).
Proof.
  intros Hsource related Hdefined rows.
  assert (VolumeStreaming.getEmIds toUpperCase model
          = VolumeStreaming.Column.value (VolumeStreaming.db_id related) <$> rows) as Hids.
  { unfold VolumeStreaming.getEmIds. rewrite Hsource. fold related. rewrite Hdefined.
    simpl. by rewrite getEmIds_rows_filter. }
  split; [done|]. rewrite Hids. split.
  - intros Hnil%fmap_nil_inv (i & Hi & Hrow).
    assert (i ∈ rows) as Hin.
    { apply list_elem_of_filter. split; [done|]. apply elem_of_seq. lia. }
    rewrite Hnil in Hin. by apply elem_of_nil in Hin.
  - intros Hno. assert (rows = []) as ->; [|done].
    apply elem_of_nil_inv. intros i [Hrow Hi%elem_of_seq]%list_elem_of_filter.
    apply Hno. exists i. split; [lia|done].
Qed.

Lemma X16_witness :
  VolumeStreaming.getEmIds SampleStreaming.toUpperCase SampleStreaming.model
  = VolumeStreaming.Column.value
      (VolumeStreaming.db_id (VolumeStreaming.pdbx_database_related SampleStreaming.db))
    <$> filter (λ i, VolumeStreaming.isEmdbRow SampleStreaming.toUpperCase
                       (VolumeStreaming.pdbx_database_related SampleStreaming.db) i = true)
          (seq 0 2).
Proof.
  exact (proj1 (X16_getEmIds_lists_the_emdb_rows SampleStreaming.toUpperCase
                  SampleStreaming.model SampleStreaming.db eq_refl eq_refl)).
Defined.

(** X17: the method and the ids agree: when the first model is in the mmCIF
    format, its [db_name] column is defined and has the rows of the
    category, and a row names an EMDB entry as the associated EM volume,
    then [getStreamingMethod] chooses 'em' and [getIds] for 'em' returns the
    [db_id] of that row (so the list is not empty). *)
Theorem X17_em_method_has_ids (toUpperCase : string → string)
    (s : VolumeStreaming.Structure) (model : VolumeStreaming.Model)
    (rest : list VolumeStreaming.Model) (db : VolumeStreaming.Database)
    (defaultKind : option VolumeStreaming.Kind) (i : nat) :
  VolumeStreaming.models s = model :: rest →
  VolumeStreaming.sourceData model = VolumeStreaming.Mmcif db →
  let related := VolumeStreaming.pdbx_database_related db in
  VolumeStreaming.Column.isDefined (VolumeStreaming.db_name related) = true →
  VolumeStreaming._rowCount related
  ≤ VolumeStreaming.Column.rowCount (VolumeStreaming.db_name related) →
  i < VolumeStreaming._rowCount related →
  VolumeStreaming.isEmdbRow toUpperCase related i = true →
  VolumeStreaming.getStreamingMethod toUpperCase (Some s) defaultKind
  = Ok VolumeStreaming.em ∧
  VolumeStreaming.Column.value (VolumeStreaming.db_id related) i
  ∈ VolumeStreaming.getIds toUpperCase VolumeStreaming.em (Some s).
Proof.
  intros Hmodels Hsource related Hdefined Hrows Hi Hrow. split.
  - unfold VolumeStreaming.getStreamingMethod. rewrite Hmodels, Hsource. fold related.
    rewrite (proj1 (returnFrom_someRow _ _ VolumeStreaming.em)); [done|].
    by exists i.
  - unfold VolumeStreaming.getIds, VolumeStreaming.getEmIds.
    rewrite Hmodels, Hsource. fold related. rewrite Hdefined. simpl.
    rewrite getEmIds_rows_filter. simpl. apply list_elem_of_fmap. exists i.
    split; [done|]. apply list_elem_of_filter. split; [done|]. apply elem_of_seq. lia.
Qed.

Lemma X17_witness :
  VolumeStreaming.getStreamingMethod SampleStreaming.toUpperCase
    (Some SampleStreaming.structure) None = Ok VolumeStreaming.em ∧
  "EMD-1234"%string
  ∈ VolumeStreaming.getIds SampleStreaming.toUpperCase VolumeStreaming.em
      (Some SampleStreaming.structure).
Proof.
  apply (X17_em_method_has_ids SampleStreaming.toUpperCase SampleStreaming.structure
           SampleStreaming.model [] SampleStreaming.db None 1 eq_refl eq_refl eq_refl).
  - simpl. lia.
  - simpl. lia.
  - vm_compute. reflexivity.
Defined.
